(** * Leyr backend: comment aggregation and notification engine

    A shallow embedding of [server.js] (the file-backed server and its
    Firestore sibling) together with the properties of the comment tree
    builder, the vote tallies, the mention loop, the cascade on deletion,
    the pagination figures and the socket broadcast, followed by further
    properties of the mention scanner, the vote rows, the listing and its
    pages, the notification endpoints and the account endpoints.

    Conventions of the embedding:
    - a JavaScript string is the [string] of the bytes of its UTF-8
      encoding, so that [length] is [js_length] (the number of UTF-16 code
      units), not [String.length]; a request field that may be absent is an
      [option string], and [truthy] is JavaScript truthiness on it;
    - [String.prototype.toLowerCase] is computed on strings of ASCII
      characters and is a section variable on all others (the examples,
      whose data are ASCII, pass the identity for it);
    - integral JavaScript numbers are [Z]; the results of [parseInt] and of
      a division are [num] (an integer, an infinity or NaN);
    - the clock ([Date.now()]) and [Math.random()] are inputs of a handler;
    - the sanitiser pipeline ([DOMPurify], [marked]) is a section variable,
      and so are [bcrypt] and the token signer of the account endpoints;
    - objects that are shared and mutated ([buildCommentTree]'s nodes) live
      in an explicit heap of cells addressed by allocation order. *)

From Stdlib Require Import ZArith Ascii String.
From stdpp Require Import gmap strings pretty list fin_maps sorting.

Local Open Scope string_scope.
Local Open Scope nat_scope.
Local Open Scope list_scope.

(** ** Data model *)

Module Comment.
(** One stored comment. [upvotes]/[downvotes] are the counters the
    file-backed server keeps on the object itself. *)
Record t := mk {
  id : string;
  url : string;
  text : string;
  rawText : string;
  parentId : option string;
  authorId : string;
  authorName : string;
  timestamp : Z;
  editedAt : option Z;
  upvotes : Z;
  downvotes : Z
}.
End Comment.

Module User.
Record t := mk {
  id : string;
  fullname : string;
  username : string;
  email : string
}.
End User.

Module Notification.
(** [type] is always the string 'mention' and is left out. *)
Record t := mk {
  id : string;
  userId : string;
  message : string;
  commentId : string;
  url : string;
  timestamp : Z;
  read : bool
}.
End Notification.

(** The payload of a verified token: [req.user]. *)
Record AuthUser := { au_id : string; au_username : string }.

#[global] Instance Comment_eq_dec : EqDecision Comment.t.
Proof. solve_decision. Defined.
#[global] Instance User_eq_dec : EqDecision User.t.
Proof. solve_decision. Defined.
#[global] Instance Notification_eq_dec : EqDecision Notification.t.
Proof. solve_decision. Defined.

(** JavaScript truthiness of a value that is a string, [null] or absent. *)
Definition truthy (o : option string) : bool :=
  match o with
  | Some s => negb (String.eqb s "")
  | None => false
  end.

(** [x || null] on such a value. *)
Definition or_null (o : option string) : option string :=
  if truthy o then o else None.

(** ** Numbers: [parseInt], division, [Math.ceil], comparisons *)

Inductive num :=
| Fin (z : Z)
| PInf
| NInf
| NaN.

(** [Math.ceil(total / limit)] for an array length [total] (so [0 <= total])
    and a parsed [limit].  For a non-zero integral limit the quotient is
    rounded up; a zero limit gives [Infinity], or [NaN] when [total] is zero
    too; an unparsable limit gives [NaN]. *)
Definition ceil_div (total : Z) (limit : num) : num :=
  match limit with
  | Fin l =>
      if (l =? 0)%Z then (if (total =? 0)%Z then NaN else PInf)
      else Fin (- ((- total) / l))%Z
  | PInf | NInf => Fin 0
  | NaN => NaN
  end.

(** [a < b] on JavaScript numbers: false as soon as one side is NaN. *)
Definition num_lt (a b : num) : bool :=
  match a, b with
  | NaN, _ | _, NaN => false
  | Fin x, Fin y => (x <? y)%Z
  | NInf, NInf => false
  | NInf, _ => true
  | _, PInf => match a with PInf => false | _ => true end
  | _, _ => false
  end.

Definition num_gt (a b : num) : bool := num_lt b a.

(** The [pagination] object of [GET /api/comments]. *)
Record Pagination := {
  currentPage : num;
  totalPages : num;
  totalComments : Z;
  hasNextPage : bool;
  hasPrevPage : bool
}.

(** Lines 384-407 (and 1080-1111): the figures computed from the length of
    the filtered list and the two parsed query parameters. *)
Definition pagination (total : Z) (pageNum limitNum : num) : Pagination :=
  let totalPages := ceil_div total limitNum in
  {| currentPage := pageNum;
     totalPages := totalPages;
     totalComments := total;
     hasNextPage := num_lt pageNum totalPages;
     hasPrevPage := num_gt pageNum (Fin 1) |}.

(** ** Mentions *)

(** The class [\w] of a regular expression without the unicode flag. *)
Definition is_word (c : ascii) : bool :=
  let n := nat_of_ascii c in
  ((48 <=? n) && (n <=? 57)) || ((65 <=? n) && (n <=? 90))
  || ((97 <=? n) && (n <=? 122)) || (n =? 95).

Definition is_at (c : ascii) : bool := (nat_of_ascii c =? 64).

(** What a pending match contributes when it ends: [@] followed by no word
    character is no match. *)
Definition flush (cur : option string) : list string :=
  match cur with
  | Some EmptyString | None => []
  | Some w => [w]
  end.

(** The loop [while ((match = /@(\w+)/g.exec(text)) !== null)] as one
    left-to-right pass.  [cur] is [Some w] while the scanner is inside a
    candidate: an [@] has been seen and [w] is the run of word characters
    read after it.  A non-word character ends the candidate; when that
    character is itself an [@] it opens the next one, which is where the
    regular expression resumes. *)
Fixpoint scan_mentions (cur : option string) (s : string) : list string :=
  match s with
  | EmptyString => flush cur
  | String c rest =>
      match cur with
      | Some w =>
          if is_word c then scan_mentions (Some (w ++ String c EmptyString)%string) rest
          else flush cur ++ scan_mentions (if is_at c then Some EmptyString else None) rest
      | None => scan_mentions (if is_at c then Some EmptyString else None) rest
      end
  end.

Definition extractMentions (text : string) : list string :=
  scan_mentions None text.

(** [String.prototype.toLowerCase].  On a string of ASCII characters it
    replaces the letters [A]-[Z] by [a]-[z] and keeps every other
    character. *)
Definition lower_ascii (c : ascii) : ascii :=
  let n := nat_of_ascii c in
  if (65 <=? n) && (n <=? 90) then ascii_of_nat (n + 32) else c.

Fixpoint ascii_toLowerCase (s : string) : string :=
  match s with
  | EmptyString => EmptyString
  | String c rest => String (lower_ascii c) (ascii_toLowerCase rest)
  end.

Fixpoint ascii_only (s : string) : bool :=
  match s with
  | EmptyString => true
  | String c rest => (nat_of_ascii c <? 128) && ascii_only rest
  end.

(** On any other string the result is the one of the built-in function,
    [unicode_lower], which folds by the Unicode tables (for instance
    the KELVIN SIGN to [k]). *)
Definition toLowerCase (unicode_lower : string → string) (s : string) : string :=
  if ascii_only s then ascii_toLowerCase s else unicode_lower s.

(** [s.length]: the number of UTF-16 code units of the string.  A
    character of one, two or three bytes is one unit, a character of four
    bytes is two (a surrogate pair); bytes [10xxxxxx] continue a
    character. *)
Definition utf16_units (c : ascii) : nat :=
  let n := nat_of_ascii c in
  if n <? 128 then 1 else if n <? 192 then 0 else if n <? 240 then 1 else 2.

Fixpoint js_length (s : string) : nat :=
  match s with
  | EmptyString => 0
  | String c rest => utf16_units c + js_length rest
  end.

(** [Array.prototype.find]. *)
Definition js_find {A} (P : A → bool) (l : list A) : option A := List.find P l.

(** [Array.prototype.findIndex]: the first index, or [-1]. *)
Fixpoint findIndex {A} (P : A → bool) (l : list A) : Z :=
  match l with
  | [] => (-1)%Z
  | x :: r => if P x then 0%Z else
      let i := findIndex P r in if (i <? 0)%Z then (-1)%Z else (i + 1)%Z
  end.

(** [arr.splice(i, 1)]: a negative index counts from the end (clamped at the
    start of the array), an index past the end removes nothing. *)
Definition splice1 {A} (i : Z) (l : list A) : list A :=
  let n := Z.of_nat (length l) in
  let start := if (i <? 0)%Z then Z.max (n + i) 0 else Z.min i n in
  delete (Z.to_nat start) l.

(** The object found by [find] is mutated in place: the first element
    satisfying [P] is replaced by its image. *)
Fixpoint update_first {A} (P : A → bool) (f : A → A) (l : list A) : list A :=
  match l with
  | [] => []
  | x :: r => if P x then f x :: r else x :: update_first P f r
  end.

(** ** Events, sockets and responses *)

Inductive Event :=
| EvNewComment (url : string) (c : Comment.t)
| EvNotification (userId : string) (n : Notification.t)
| EvCommentVoted (commentId : string) (upvotes downvotes : Z)
| EvCommentEdited (commentId text : string) (editedAt : Z)
| EvCommentDeleted (commentId : string).

#[global] Instance Event_eq_dec : EqDecision Event.
Proof. solve_decision. Defined.

(** A connected socket and the rooms it has joined through [joinRoom]. *)
Record Socket := { sid : string; rooms : list string }.

(** The server-side registry: the sockets currently connected. *)
Definition Hub := list Socket.

Definition connect (s : string) (hub : Hub) : Hub :=
  hub ++ [{| sid := s; rooms := [] |}].

Definition joinRoom (s room : string) (hub : Hub) : Hub :=
  (λ k, if bool_decide (sid k = s)
        then {| sid := sid k; rooms := rooms k ++ [room] |} else k) <$> hub.

Definition disconnect (s : string) (hub : Hub) : Hub :=
  filter (λ k, sid k ≠ s) hub.

(** [io.emit(event, payload)]: one delivery per connected socket, whatever
    rooms it has joined. *)
Definition io_emit (hub : Hub) (e : Event) : list (string * Event) :=
  (λ k, (sid k, e)) <$> hub.

(** All deliveries caused by the events of one request, in order. *)
Definition deliveries (hub : Hub) (es : list Event) : list (string * Event) :=
  es ≫= io_emit hub.

(** The only per-socket subscription the server records is room
    membership; a socket counts as subscribed as [r] when it has joined the
    room named [r]. *)
Definition subscribed_as (r : string) (k : Socket) : Prop := r ∈ rooms k.

Inductive Status := OK | Created | BadRequest | Forbidden | NotFound.

Inductive Body :=
| JError (msg : string)
| JComment (c : Comment.t)
| JVote (upvotes downvotes : Z)
| JSuccess.

Record Response := { status : Status; body : Body }.

(** The message of a mention notification. *)
Definition mention_message (username : string) : string :=
  (username ++ " mentioned you in a comment")%string.

(** [Date.now().toString()]. *)
Definition Date_toString (now : Z) : string := pretty now.

(** ['up'], ['down'] or ['remove']. *)
Definition valid_voteType (voteType : option string) : bool :=
  match voteType with
  | Some v => bool_decide (v = "up") || bool_decide (v = "down") || bool_decide (v = "remove")
  | None => false
  end.

(** ** The file-backed server (first [server.js]) *)

Module FileBacked.

Record State := {
  comments : list Comment.t;
  users : list User.t;
  notifications : list Notification.t;
  votes : gmap string (Z * Z)
}.

Definition empty : State :=
  {| comments := []; users := []; notifications := []; votes := ∅ |}.

(** What one handler produces: the response, the store after it and the
    events it emitted, in order. *)
Record Outcome := {
  response : Response;
  state : State;
  events : list Event
}.

Definition reject (st : State) (s : Status) (msg : string) : Outcome :=
  {| response := {| status := s; body := JError msg |}; state := st; events := [] |}.

Section Handlers.
(** The built-in [toLowerCase] on strings that are not all ASCII. *)
Variable unicode_lower : string → string.
(** The sanitiser pipeline [DOMPurify.sanitize(marked(DOMPurify.sanitize(text)))]. *)
Variable render : string → string.
(** The successive results of [Math.random()], already as strings. *)
Variable random : nat → string.

(** [users.find(u => u.username.toLowerCase() === mention.toLowerCase())] *)
Definition resolve (users : list User.t) (mention : string) : option User.t :=
  js_find (λ u, bool_decide (toLowerCase unicode_lower (User.username u)
                             = toLowerCase unicode_lower mention)) users.

(** Lines 449-467: the body of [mentions.forEach], on the pair of the
    notification store and the events emitted so far. *)
Definition mention_step (users : list User.t) (user : AuthUser) (now : Z)
    (commentId url : string)
    (acc : list Notification.t * list Event) (mention : string)
    : list Notification.t * list Event :=
  match resolve users mention with
  | Some mentionedUser =>
      if bool_decide (User.id mentionedUser ≠ au_id user) then
        let notification :=
          {| Notification.id := (Date_toString now ++ random (length acc.1))%string;
             Notification.userId := User.id mentionedUser;
             Notification.message := mention_message (au_username user);
             Notification.commentId := commentId;
             Notification.url := url;
             Notification.timestamp := now;
             Notification.read := false |} in
        (acc.1 ++ [notification],
         acc.2 ++ [EvNotification (User.id mentionedUser) notification])
      else acc
  | None => acc
  end.

(** [POST /api/comments], lines 416-477. *)
Definition createComment (user : AuthUser) (now : Z)
    (url text parentId : option string) (st : State) : Outcome :=
  match url, text with
  | Some url', Some text' =>
      if negb (truthy url && truthy text) then
        reject st BadRequest "URL and text are required"
      else
        let newComment :=
          {| Comment.id := Date_toString now;
             Comment.url := url';
             Comment.text := render text';
             Comment.rawText := text';
             Comment.parentId := or_null parentId;
             Comment.authorId := au_id user;
             Comment.authorName := au_username user;
             Comment.timestamp := now;
             Comment.editedAt := None;
             Comment.upvotes := 0;
             Comment.downvotes := 0 |} in
        let mentions := extractMentions text' in
        let '(notifications', notified) :=
          fold_left (mention_step (users st) user now (Comment.id newComment) url')
                    mentions (notifications st, []) in
        {| response := {| status := Created; body := JComment newComment |};
           state := {| comments := comments st ++ [newComment];
                       users := users st;
                       notifications := notifications';
                       votes := <[Comment.id newComment := (0, 0)%Z]> (votes st) |};
           events := notified ++ [EvNewComment url' newComment] |}
  | _, _ => reject st BadRequest "URL and text are required"
  end.

Definition with_tallies (up down : Z) (c : Comment.t) : Comment.t :=
  {| Comment.id := Comment.id c; Comment.url := Comment.url c;
     Comment.text := Comment.text c; Comment.rawText := Comment.rawText c;
     Comment.parentId := Comment.parentId c;
     Comment.authorId := Comment.authorId c;
     Comment.authorName := Comment.authorName c;
     Comment.timestamp := Comment.timestamp c;
     Comment.editedAt := Comment.editedAt c;
     Comment.upvotes := up; Comment.downvotes := down |}.

(** Lines 494-509: the counters after a request of type [voteType]. *)
Definition voted (voteType : string) (c : Comment.t) : Comment.t :=
  if bool_decide (voteType = "remove") then
    with_tallies (Z.max 0 (Comment.upvotes c - 1)) (Z.max 0 (Comment.downvotes c - 1)) c
  else if bool_decide (voteType = "up") then
    with_tallies (Comment.upvotes c + 1) (Comment.downvotes c) c
  else
    with_tallies (Comment.upvotes c) (Comment.downvotes c + 1) c.

Definition has_id (id : string) (c : Comment.t) : bool :=
  bool_decide (Comment.id c = id).

(** [POST /api/comments/:id/vote], lines 480-520. *)
Definition vote (user : AuthUser) (id : string) (voteType : option string)
    (st : State) : Outcome :=
  match voteType with
  | Some voteType' =>
      if negb (valid_voteType voteType) then
        reject st BadRequest "Invalid vote type"
      else
        match js_find (has_id id) (comments st) with
        | None => reject st NotFound "Comment not found"
        | Some comment =>
            let comment' := voted voteType' comment in
            {| response :=
                 {| status := OK;
                    body := JVote (Comment.upvotes comment') (Comment.downvotes comment') |};
               state := {| comments := update_first (has_id id) (voted voteType') (comments st);
                           users := users st;
                           notifications := notifications st;
                           votes := votes st |};
               events := [EvCommentVoted id (Comment.upvotes comment')
                                         (Comment.downvotes comment')] |}
        end
  | None => reject st BadRequest "Invalid vote type"
  end.

Definition edited (text : string) (now : Z) (c : Comment.t) : Comment.t :=
  {| Comment.id := Comment.id c; Comment.url := Comment.url c;
     Comment.text := render text; Comment.rawText := text;
     Comment.parentId := Comment.parentId c;
     Comment.authorId := Comment.authorId c;
     Comment.authorName := Comment.authorName c;
     Comment.timestamp := Comment.timestamp c;
     Comment.editedAt := Some now;
     Comment.upvotes := Comment.upvotes c; Comment.downvotes := Comment.downvotes c |}.

(** [PUT /api/comments/:id], lines 523-562. *)
Definition editComment (user : AuthUser) (now : Z) (id : string)
    (text : option string) (st : State) : Outcome :=
  match text with
  | Some text' =>
      if negb (truthy text) then reject st BadRequest "Text is required"
      else
        match js_find (has_id id) (comments st) with
        | None => reject st NotFound "Comment not found"
        | Some comment =>
            if bool_decide (Comment.authorId comment ≠ au_id user) then
              reject st Forbidden "Not authorized to edit this comment"
            else
              {| response := {| status := OK; body := JComment (edited text' now comment) |};
                 state := {| comments := update_first (has_id id) (edited text' now) (comments st);
                             users := users st;
                             notifications := notifications st;
                             votes := votes st |};
                 events := [EvCommentEdited id text' now] |}
        end
  | None => reject st BadRequest "Text is required"
  end.

(** Lines 579-588: the comment is spliced out, then every element of
    [comments.filter(c => c.parentId === id)] is looked up by its own
    identifier and spliced out in turn. *)
Definition cascade (id : string) (comments : list Comment.t) : list Comment.t :=
  let comments1 := splice1 (findIndex (has_id id) comments) comments in
  let repliesToRemove := filter (λ c, Comment.parentId c = Some id) comments1 in
  fold_left (λ cs reply, splice1 (findIndex (has_id (Comment.id reply)) cs) cs)
            repliesToRemove comments1.

(** [DELETE /api/comments/:id], lines 565-601. *)
Definition deleteComment (user : AuthUser) (id : string) (st : State) : Outcome :=
  match js_find (has_id id) (comments st) with
  | None => reject st NotFound "Comment not found"
  | Some comment =>
      if bool_decide (Comment.authorId comment ≠ au_id user) then
        reject st Forbidden "Not authorized to delete this comment"
      else
        {| response := {| status := OK; body := JSuccess |};
           state := {| comments := cascade id (comments st);
                       users := users st;
                       notifications := notifications st;
                       votes := votes st |};
           events := [EvCommentDeleted id] |}
  end.

(** The mutating requests of the comment API. *)
Inductive Request :=
| PostComment (user : AuthUser) (now : Z) (url text parentId : option string)
| PostVote (user : AuthUser) (id : string) (voteType : option string)
| PutComment (user : AuthUser) (now : Z) (id : string) (text : option string)
| DeleteComment (user : AuthUser) (id : string).

Definition handle (r : Request) (st : State) : Outcome :=
  match r with
  | PostComment user now url text parentId => createComment user now url text parentId st
  | PostVote user id voteType => vote user id voteType st
  | PutComment user now id text => editComment user now id text st
  | DeleteComment user id => deleteComment user id st
  end.

(** The store after a sequence of requests served one after the other. *)
Definition run (rs : list Request) (st : State) : State :=
  fold_left (λ s r, state (handle r s)) rs st.

End Handlers.

(** The tally of a stored comment, as the vote response reports it. *)
Definition tally (id : string) (st : State) : option (Z * Z) :=
  (λ c, (Comment.upvotes c, Comment.downvotes c)) <$> js_find (has_id id) (comments st).

End FileBacked.

(** ** The Firestore server (second [server.js]) *)

Module Vote.
(** One document of the [votes] collection; [docId] is its document id. *)
Record t := mk {
  docId : string;
  commentId : string;
  userId : string;
  voteType : string;
  timestamp : Z
}.
End Vote.

Module Firestore.

(** A collection is the list of its documents, in the order in which
    queries return them; the document id of a comment, a user or a
    notification is its [id] field.  The stored comment documents carry no
    counters: their [upvotes]/[downvotes] fields are 0 here and the tallies
    come from the [votes] collection. *)
Record State := {
  commentsCollection : list Comment.t;
  usersCollection : list User.t;
  votesCollection : list Vote.t;
  notificationsCollection : list Notification.t
}.

Record Outcome := {
  response : Response;
  state : State;
  events : list Event
}.

Definition reject (st : State) (s : Status) (msg : string) : Outcome :=
  {| response := {| status := s; body := JError msg |}; state := st; events := [] |}.

(** [usersCollection.where('username', '==', mention).get()], then [docs[0]]. *)
Definition resolve (users : list User.t) (mention : string) : option User.t :=
  head (filter (λ u, User.username u = mention) users).

(** [getVotesForComment], lines 783-800. *)
Definition getVotesForComment (commentId : string) (votes : list Vote.t) : Z * Z :=
  fold_left (λ acc v,
               if bool_decide (Vote.voteType v = "up") then (acc.1 + 1, acc.2)%Z
               else if bool_decide (Vote.voteType v = "down") then (acc.1, acc.2 + 1)%Z
               else acc)
            (filter (λ v, Vote.commentId v = commentId) votes)
            (0, 0)%Z.

Definition tally (commentId : string) (st : State) : Z * Z :=
  getVotesForComment commentId (votesCollection st).

(** [ref.delete()] and [ref.update({ voteType })] on the document [docId]. *)
Definition delete_vote (docId : string) (votes : list Vote.t) : list Vote.t :=
  filter (λ v, Vote.docId v ≠ docId) votes.

Definition update_vote (docId voteType : string) (votes : list Vote.t) : list Vote.t :=
  (λ v, if bool_decide (Vote.docId v = docId)
        then Vote.mk (Vote.docId v) (Vote.commentId v) (Vote.userId v) voteType (Vote.timestamp v)
        else v) <$> votes.

Definition delete_comment_doc (docId : string) (cs : list Comment.t) : list Comment.t :=
  filter (λ c, Comment.id c ≠ docId) cs.

Section Handlers.
Variable render : string → string.
(** The document ids that [collection.add] generates, one per store size. *)
Variable autoId : nat → string.

(** Lines 1151-1175: the body of the [for (const mention of mentions)] loop.
    The stored document gets a generated id; the payload of the event is
    the object as it was built, without id. *)
Definition mention_step (users : list User.t) (user : AuthUser) (now : Z)
    (commentId url : string)
    (acc : list Notification.t * list Event) (mention : string)
    : list Notification.t * list Event :=
  match resolve users mention with
  | Some mentionedUser =>
      if bool_decide (User.id mentionedUser ≠ au_id user) then
        let notification (docId : string) :=
          {| Notification.id := docId;
             Notification.userId := User.id mentionedUser;
             Notification.message := mention_message (au_username user);
             Notification.commentId := commentId;
             Notification.url := url;
             Notification.timestamp := now;
             Notification.read := false |} in
        (acc.1 ++ [notification (autoId (length acc.1))],
         acc.2 ++ [EvNotification (User.id mentionedUser) (notification "")])
      else acc
  | None => acc
  end.

(** [POST /api/comments], lines 1119-1185. *)
Definition createComment (user : AuthUser) (now : Z)
    (url text parentId : option string) (st : State) : Outcome :=
  match url, text with
  | Some url', Some text' =>
      if negb (truthy url && truthy text) then
        reject st BadRequest "URL and text are required"
      else
        let commentId := autoId (length (commentsCollection st)) in
        let newComment :=
          {| Comment.id := commentId;
             Comment.url := url';
             Comment.text := render text';
             Comment.rawText := text';
             Comment.parentId := or_null parentId;
             Comment.authorId := au_id user;
             Comment.authorName := au_username user;
             Comment.timestamp := now;
             Comment.editedAt := None;
             Comment.upvotes := 0;
             Comment.downvotes := 0 |} in
        let mentions := extractMentions text' in
        let '(notifications', notified) :=
          fold_left (mention_step (usersCollection st) user now commentId url')
                    mentions (notificationsCollection st, []) in
        {| response := {| status := Created; body := JComment newComment |};
           state := {| commentsCollection := commentsCollection st ++ [newComment];
                       usersCollection := usersCollection st;
                       votesCollection := votesCollection st;
                       notificationsCollection := notifications' |};
           events := notified ++ [EvNewComment url' newComment] |}
  | _, _ => reject st BadRequest "URL and text are required"
  end.

Definition has_id (id : string) (c : Comment.t) : bool :=
  bool_decide (Comment.id c = id).

(** The query [where('commentId', '==', id).where('userId', '==', user.id)]. *)
Definition existingVote (id userId : string) (votes : list Vote.t) : list Vote.t :=
  filter (λ v, Vote.commentId v = id ∧ Vote.userId v = userId) votes.

(** Lines 1209-1233: the write on the [votes] collection. *)
Definition castVote (userId : string) (now : Z) (id voteType : string)
    (votes : list Vote.t) : list Vote.t :=
  let existingVoteSnapshot := existingVote id userId votes in
  if bool_decide (voteType = "remove") then
    match existingVoteSnapshot with
    | doc :: _ => delete_vote (Vote.docId doc) votes
    | [] => votes
    end
  else
    match existingVoteSnapshot with
    | doc :: _ => update_vote (Vote.docId doc) voteType votes
    | [] => votes ++ [Vote.mk (autoId (length votes)) id userId voteType now]
    end.

(** [POST /api/comments/:id/vote], lines 1188-1247. *)
Definition vote (user : AuthUser) (now : Z) (id : string) (voteType : option string)
    (st : State) : Outcome :=
  match voteType with
  | Some voteType' =>
      if negb (valid_voteType voteType) then
        reject st BadRequest "Invalid vote type"
      else
        match js_find (has_id id) (commentsCollection st) with
        | None => reject st NotFound "Comment not found"
        | Some _ =>
            let votes' := castVote (au_id user) now id voteType' (votesCollection st) in
            let votes := getVotesForComment id votes' in
            {| response := {| status := OK; body := JVote votes.1 votes.2 |};
               state := {| commentsCollection := commentsCollection st;
                           usersCollection := usersCollection st;
                           votesCollection := votes';
                           notificationsCollection := notificationsCollection st |};
               events := [EvCommentVoted id votes.1 votes.2] |}
        end
  | None => reject st BadRequest "Invalid vote type"
  end.

(** Lines 1323-1331: the document is deleted, then every document of
    the query [where('parentId', '==', id)]. *)
Definition cascade (id : string) (cs : list Comment.t) : list Comment.t :=
  let cs1 := delete_comment_doc id cs in
  let repliesSnapshot := filter (λ c, Comment.parentId c = Some id) cs1 in
  fold_left (λ acc doc, delete_comment_doc (Comment.id doc) acc) repliesSnapshot cs1.

(** [DELETE /api/comments/:id], lines 1305-1352; the votes of the comment
    are deleted with it. *)
Definition deleteComment (user : AuthUser) (id : string) (st : State) : Outcome :=
  match js_find (has_id id) (commentsCollection st) with
  | None => reject st NotFound "Comment not found"
  | Some comment =>
      if bool_decide (Comment.authorId comment ≠ au_id user) then
        reject st Forbidden "Not authorized to delete this comment"
      else
        {| response := {| status := OK; body := JSuccess |};
           state := {| commentsCollection := cascade id (commentsCollection st);
                       usersCollection := usersCollection st;
                       votesCollection :=
                         filter (λ v, Vote.commentId v ≠ id) (votesCollection st);
                       notificationsCollection := notificationsCollection st |};
           events := [EvCommentDeleted id] |}
  end.

End Handlers.

End Firestore.

(** ** The comment tree builder *)

(** [buildCommentTree] allocates one node object per comment, keeps the
    nodes in a [Map] keyed by identifier and pushes references to them into
    the [replies] array of other nodes.  The embedding keeps that sharing:
    objects live in a heap, a reference is an address, and allocation
    returns the next free address. *)
Abbreviation loc := nat (only parsing).

Inductive cell :=
| CObj (c : Comment.t) (replies : option (list loc))
    (** an object with the fields of a comment and, when [replies] is
        [Some], a [replies] array of references *)
| CArr (elts : list loc)
    (** an array of references *).

Abbreviation heap := (list cell) (only parsing).

(** Heap computations that may throw. *)
Definition M (A : Type) : Type := heap → option (A * heap).

#[global] Instance M_ret : MRet M := λ A a h, Some (a, h).
#[global] Instance M_bind : MBind M := λ A B f m h,
  match m h with
  | Some (a, h') => f a h'
  | None => None
  end.

Definition throw {A} : M A := λ _, None.

Definition alloc (c : cell) : M loc := λ h, Some (length h, h ++ [c]).

Definition load (l : loc) : M cell := λ h, (λ c, (c, h)) <$> h !! l.

Definition store (l : loc) (c : cell) : M unit := λ h,
  if decide (l < length h) then Some (tt, <[l := c]> h) else None.

Definition load_obj (l : loc) : M (Comment.t * option (list loc)) :=
  c ← load l;
  match c with
  | CObj c replies => mret (c, replies)
  | CArr _ => throw
  end.

Definition load_arr (l : loc) : M (list loc) :=
  c ← load l;
  match c with
  | CArr elts => mret elts
  | CObj _ _ => throw
  end.

(** [arr.push(x)] *)
Definition push (arr x : loc) : M unit :=
  elts ← load_arr arr;
  store arr (CArr (elts ++ [x])).

(** [node.replies.push(x)] *)
Definition push_reply (node x : loc) : M unit :=
  o ← load_obj node;
  match o.2 with
  | Some replies => store node (CObj o.1 (Some (replies ++ [x])))
  | None => throw
  end.

(** [elts.forEach(x => ...)], threading the local state of the callback. *)
Fixpoint forEach {S} (f : S → loc → M S) (elts : list loc) (s : S) : M S :=
  match elts with
  | [] => mret s
  | x :: rest => s' ← f s x; forEach f rest s'
  end.

(** Lines 113-115: [commentMap.set(comment.id, { ...comment, replies: [] })]. *)
Definition set_node (commentMap : gmap string loc) (comment : loc) : M (gmap string loc) :=
  o ← load_obj comment;
  node ← alloc (CObj o.1 (Some []));
  mret (<[Comment.id o.1 := node]> commentMap).

(** [commentMap.get(comment.id)]; every identifier was set by the first
    pass, so the lookup cannot miss. *)
Definition get_node (commentMap : gmap string loc) (id : string) : M loc :=
  match commentMap !! id with
  | Some node => mret node
  | None => throw
  end.

(** Lines 118-127: the body of the second [forEach]. *)
Definition link_node (commentMap : gmap string loc) (rootComments : loc)
    (_ : unit) (comment : loc) : M unit :=
  o ← load_obj comment;
  if truthy (Comment.parentId o.1) then
    match Comment.parentId o.1 ≫= (commentMap !!.) with
    | Some parent =>
        node ← get_node commentMap (Comment.id o.1);
        push_reply parent node
    | None => mret tt
    end
  else
    node ← get_node commentMap (Comment.id o.1);
    push rootComments node.

(** Lines 108-130. [comments] is the address of the input array; the result
    is the address of the array [rootComments]. *)
Definition buildCommentTree (comments : loc) : M loc :=
  rootComments ← alloc (CArr []);
  elts ← load_arr comments;
  commentMap ← forEach set_node elts ∅;
  _ ← forEach (link_node commentMap rootComments) elts tt;
  mret rootComments.

(** The forest as [res.json] serialises it: every node with its nested
    replies. *)
#[local] Set Warnings "-register-all".
Inductive Tree := Node (c : Comment.t) (replies : list Tree).

(** Reading the tree below a node out of the heap.  [None] when the fuel
    runs out (a cyclic structure has no finite serialisation) or when the
    address does not hold a node. *)
Fixpoint unfold (fuel : nat) (h : heap) (l : loc) : option Tree :=
  match fuel with
  | 0 => None
  | S fuel' =>
      match h !! l with
      | Some (CObj c (Some replies)) => Node c <$> mapM (unfold fuel' h) replies
      | _ => None
      end
  end.

Definition unfold_forest (fuel : nat) (h : heap) (roots : loc) : option (list Tree) :=
  match h !! roots with
  | Some (CArr elts) => mapM (unfold fuel h) elts
  | _ => None
  end.

(** The heap holding an array of the given comment objects: the objects at
    addresses [0 .. n-1], the array at address [n]. *)
Definition heap_of (comments : list Comment.t) : heap :=
  ((λ c, CObj c None) <$> comments) ++ [CArr (seq 0 (length comments))].

(** [res.json(buildCommentTree(paginatedComments))]: the forest built from a
    page of comments.  A chain of replies is no longer than the page, so the
    fuel [S (length comments)] is enough for every acyclic result. *)
Definition commentTree (comments : list Comment.t) : option (list Tree) :=
  match buildCommentTree (length comments) (heap_of comments) with
  | Some (roots, h) => unfold_forest (S (length comments)) h roots
  | None => None
  end.

(** The number of comments in a tree: the node and all its descendants. *)
Fixpoint tree_size (t : Tree) : nat :=
  match t with
  | Node _ replies => S (sum_list_with tree_size replies)
  end.

Definition forest_size (ts : list Tree) : nat := sum_list_with tree_size ts.

(** The comments of a tree, in preorder. *)
Fixpoint tree_comments (t : Tree) : list Comment.t :=
  match t with
  | Node c replies => c :: (replies ≫= tree_comments)
  end.

Definition has_id (id : string) (c : Comment.t) : bool :=
  bool_decide (Comment.id c = id).

(** The parent of a comment within a page: the comment the page holds under
    its [parentId]. *)
Definition parent_in (cs : list Comment.t) (c : Comment.t) : option Comment.t :=
  Comment.parentId c ≫= (λ p, js_find (has_id p) cs).

(** "Its parent, if any, is also present in the input." *)
Definition parent_present (cs : list Comment.t) (c : Comment.t) : bool :=
  match Comment.parentId c with
  | None => true
  | Some p => existsb (has_id p) cs
  end.

(** A comment hangs from a root of the page when following [parentId]
    inside the page ends, after at most [fuel] steps, at a comment without
    parent. *)
Fixpoint rooted (fuel : nat) (cs : list Comment.t) (c : Comment.t) : bool :=
  if truthy (Comment.parentId c) then
    match fuel with
    | 0 => false
    | S fuel' =>
        match parent_in cs c with
        | Some p => rooted fuel' cs p
        | None => false
        end
    end
  else true.

(** ** Vocabulary of the statements *)

(** The recipients of the mention loop, one per occurrence: the users the
    handles resolve to, in order, the unresolved handles and the author
    left out. *)
Definition recipients (resolve : string → option User.t) (author : string)
    (mentions : list string) : list string :=
  omap (λ m, u ← resolve m;
             if bool_decide (User.id u ≠ author) then Some (User.id u) else None)
       mentions.

(** The recipients tagged on the [notification] events of a request. *)
Definition notified_users (es : list Event) : list string :=
  omap (λ e, match e with EvNotification u _ => Some u | _ => None end) es.

(** How many elements of a list satisfy a test. *)
Definition count_if {A} (P : A → bool) (l : list A) : nat := length (List.filter P l).

(** Both counters of every stored comment are non-negative. *)
Definition tallies_nonneg (st : FileBacked.State) : Prop :=
  Forall (λ c, (0 ≤ Comment.upvotes c)%Z ∧ (0 ≤ Comment.downvotes c)%Z)
         (FileBacked.comments st).

(** ** Sample stores *)

Definition alice : AuthUser := {| au_id := "1"; au_username := "alice" |}.

Definition bob_user : User.t := User.mk "2" "Bob B" "bob" "bob@example.org".

Definition alice_user : User.t := User.mk "1" "Alice A" "alice" "alice@example.org".

Definition file_store_1 : FileBacked.State :=
  {| FileBacked.comments := []; FileBacked.users := [alice_user; bob_user];
     FileBacked.notifications := []; FileBacked.votes := ∅ |}.

Definition firestore_1 : Firestore.State :=
  {| Firestore.commentsCollection := []; Firestore.usersCollection := [alice_user; bob_user];
     Firestore.votesCollection := []; Firestore.notificationsCollection := [] |}.

Definition for_user (u : string) (n : Notification.t) : bool :=
  bool_decide (Notification.userId n = u).

Definition comment_c1 : Comment.t :=
  Comment.mk "c1" "https://example.org" "<p>hello</p>" "hello" None "2" "bob" 900 None 0 0.

Definition file_store_2 : FileBacked.State :=
  {| FileBacked.comments := [comment_c1]; FileBacked.users := [alice_user; bob_user];
     FileBacked.notifications := []; FileBacked.votes := {[ "c1" := (0, 0)%Z ]} |}.

Definition firestore_2 : Firestore.State :=
  {| Firestore.commentsCollection := [comment_c1];
     Firestore.usersCollection := [alice_user; bob_user];
     Firestore.votesCollection := []; Firestore.notificationsCollection := [] |}.

(** A thread of three: [A], its reply [B] and [C], a reply to [B]. *)
Definition thread_A : Comment.t :=
  Comment.mk "A" "https://example.org" "<p>a</p>" "a" None "1" "alice" 100 None 0 0.

Definition thread_B : Comment.t :=
  Comment.mk "B" "https://example.org" "<p>b</p>" "b" (Some "A") "2" "bob" 200 None 0 0.

Definition thread_C : Comment.t :=
  Comment.mk "C" "https://example.org" "<p>c</p>" "c" (Some "B") "1" "alice" 300 None 0 0.

Definition file_store_3 : FileBacked.State :=
  {| FileBacked.comments := [thread_A; thread_B; thread_C];
     FileBacked.users := [alice_user; bob_user];
     FileBacked.notifications := []; FileBacked.votes := ∅ |}.

Definition firestore_3 : Firestore.State :=
  {| Firestore.commentsCollection := [thread_A; thread_B; thread_C];
     Firestore.usersCollection := [alice_user; bob_user];
     Firestore.votesCollection := []; Firestore.notificationsCollection := [] |}.

(** What a deletion leaves when it takes the comment and its direct
    replies: the comments that neither have the identifier nor name it as
    their parent. *)
Definition without_direct (id : string) (cs : list Comment.t) : list Comment.t :=
  filter (λ c, Comment.id c ≠ id ∧ Comment.parentId c ≠ Some id) cs.

(** Two connected sockets: bob's, which joined a room named by his user
    id, and a bystander's, which joined the room of a page only. *)
Definition hub_1 : Hub :=
  joinRoom "s_eve" "https://example.org"
    (joinRoom "s_bob" "2" (connect "s_eve" (connect "s_bob" []))).

(** ** The result of the builder, described *)

(** The [Map] after the first pass over comments whose nodes are allocated
    from address [b] on: each identifier is bound to the node of the last
    comment carrying it. *)
Fixpoint node_map (b : loc) (cs : list Comment.t) (m : gmap string loc) : gmap string loc :=
  match cs with
  | [] => m
  | c :: rest => node_map (S b) rest (<[Comment.id c := b]> m)
  end.

(** What the second pass has pushed to [rootComments] after the comments
    [pre]. *)
Definition roots_of (m : gmap string loc) (pre : list Comment.t) : list loc :=
  omap (λ c, if truthy (Comment.parentId c) then None else m !! Comment.id c) pre.

(** What the second pass has pushed to the [replies] of the node at address
    [a] after the comments [pre]. *)
Definition kids_of (m : gmap string loc) (a : loc) (pre : list Comment.t) : list loc :=
  omap (λ c, if truthy (Comment.parentId c)
                && bool_decide (Comment.parentId c ≫= (m !!.) = Some a)
             then m !! Comment.id c else None) pre.

(** The heap once the second pass has handled [pre]: the old heap [h0], the
    array [rootComments], then one node per comment of the page [cs]. *)
Definition built_heap (h0 : heap) (m : gmap string loc) (cs pre : list Comment.t) : heap :=
  h0 ++ CArr (roots_of m pre)
     :: imap (λ i c, CObj c (Some (kids_of m (S (length h0) + i) pre))) cs.

(** An input array [elts] in the heap [h] whose elements are the comment
    objects [cs]. *)
Definition holds_comments (h : heap) (elts : list loc) (cs : list Comment.t) : Prop :=
  Forall2 (λ l c, ∃ replies, h !! l = Some (CObj c replies)) elts cs.

(** Everything the [Map] holds is the address of a node of the page. *)
Definition map_in_range (h0 : heap) (cs : list Comment.t) (m : gmap string loc) : Prop :=
  ∀ k a, m !! k = Some a → ∃ i, a = S (length h0) + i ∧ i < length cs.

(** The same result without the heap.  The replies of a comment are the
    comments of the page that name it as their parent, in page order; the
    roots are the comments without parent. *)
Definition children (cs : list Comment.t) (c : Comment.t) : list Comment.t :=
  filter (λ c', truthy (Comment.parentId c') = true
                ∧ Comment.parentId c' = Some (Comment.id c)) cs.

Definition roots (cs : list Comment.t) : list Comment.t :=
  filter (λ c, truthy (Comment.parentId c) = false) cs.

Fixpoint tree_of (fuel : nat) (cs : list Comment.t) (c : Comment.t) : option Tree :=
  match fuel with
  | 0 => None
  | S fuel' => Node c <$> mapM (tree_of fuel' cs) (children cs c)
  end.

Definition forest_of (cs : list Comment.t) : option (list Tree) :=
  mapM (tree_of (S (length cs)) cs) (roots cs).

(** The comments at depth [d] of the forest: the roots, their replies, the
    replies to those, and so on. *)
Fixpoint level (cs : list Comment.t) (d : nat) : list Comment.t :=
  match d with
  | 0 => roots cs
  | S d' => level cs d' ≫= children cs
  end.

(** The size of the tree below a comment, cut at depth [fuel]. *)
Fixpoint size_below (fuel : nat) (cs : list Comment.t) (c : Comment.t) : nat :=
  match fuel with
  | 0 => 0
  | S fuel' => S (sum_list_with (size_below fuel' cs) (children cs c))
  end.

(** The levels [0 .. f-1], one after the other. *)
Definition levels_upto (cs : list Comment.t) (f : nat) : list Comment.t :=
  seq 0 f ≫= level cs.

Definition tree_root (t : Tree) : Comment.t :=
  match t with Node c _ => c end.

(** A page where a reply to a missing comment has a reply of its own. *)
Definition orphan_D : Comment.t :=
  Comment.mk "D" "https://example.org" "<p>d</p>" "d" (Some "X") "2" "bob" 400 None 0 0.

Definition orphan_E : Comment.t :=
  Comment.mk "E" "https://example.org" "<p>e</p>" "e" (Some "D") "1" "alice" 500 None 0 0.

Definition orphan_page : list Comment.t := [thread_A; orphan_D; orphan_E].

(** ** Vocabulary of the further statements *)

(** A handle as the regular expression captures it: a non-empty run of
    word characters. *)
Fixpoint all_word (s : string) : bool :=
  match s with
  | EmptyString => true
  | String c rest => is_word c && all_word rest
  end.

Definition is_handle (w : string) : Prop := w ≠ "" ∧ all_word w = true.

(** The number of [@] signs of a text. *)
Fixpoint count_at (s : string) : nat :=
  match s with
  | EmptyString => 0
  | String c rest => (if is_at c then 1 else 0) + count_at rest
  end.

(** A text that mentions the given handles, one after the other:
    [@w1 @w2 ... ]. *)
Definition mention_text (ws : list string) : string :=
  foldr (λ w acc, String "@" (w ++ String " " acc))%string "" ws.

(** The pair a vote row is unique for, and the invariant "at most one row
    per comment and voter". *)
Definition vote_key (v : Vote.t) : string * string := (Vote.commentId v, Vote.userId v).

Definition one_vote_each (votes : list Vote.t) : Prop := NoDup (vote_key <$> votes).

(** What one row of a given type adds to a tally. *)
Definition kind_tally (k : string) : Z * Z :=
  if bool_decide (k = "up") then (1, 0)%Z
  else if bool_decide (k = "down") then (0, 1)%Z
  else (0, 0)%Z.

Definition pair_add (a b : Z * Z) : Z * Z := (a.1 + b.1, a.2 + b.2)%Z.

Definition sum_kinds (l : list Vote.t) : Z * Z :=
  foldr (λ v acc, pair_add (kind_tally (Vote.voteType v)) acc) (0, 0)%Z l.

(** A store of votes: bob has voted down on [c1], alice up on [c2]. *)
Definition votes_1 : list Vote.t :=
  [Vote.mk "v0" "c1" "2" "down" 10; Vote.mk "v1" "c2" "1" "up" 20].

(** What the voter's present row, if any, contributes to the tally of the
    comment. *)
Definition prior_kind (id userId : string) (votes : list Vote.t) : Z * Z :=
  match Firestore.existingVote id userId votes with
  | doc :: _ => kind_tally (Vote.voteType doc)
  | [] => (0, 0)%Z
  end.

(** Everything of a comment that an edit must leave alone. *)
Definition comment_frame (c : Comment.t)
    : string * string * option string * string * string * Z * Z * Z :=
  (Comment.id c, Comment.url c, Comment.parentId c, Comment.authorId c,
   Comment.authorName c, Comment.timestamp c, Comment.upvotes c, Comment.downvotes c).

Definition bob : AuthUser := {| au_id := "2"; au_username := "bob" |}.

(** ** Listing comments and notifications *)

(** Arithmetic of JavaScript numbers on integers, the infinities and NaN. *)
Definition num_neg (a : num) : num :=
  match a with
  | Fin z => Fin (- z)
  | PInf => NInf
  | NInf => PInf
  | NaN => NaN
  end.

Definition num_add (a b : num) : num :=
  match a, b with
  | NaN, _ | _, NaN => NaN
  | Fin x, Fin y => Fin (x + y)
  | PInf, NInf | NInf, PInf => NaN
  | PInf, _ | _, PInf => PInf
  | NInf, _ | _, NInf => NInf
  end.

Definition num_sub (a b : num) : num := num_add a (num_neg b).

Definition num_mul_inf (inf : num) (x : Z) : num :=
  if (x =? 0)%Z then NaN else if (0 <? x)%Z then inf else num_neg inf.

Definition num_mul (a b : num) : num :=
  match a, b with
  | NaN, _ | _, NaN => NaN
  | Fin x, Fin y => Fin (x * y)
  | Fin x, PInf => num_mul_inf PInf x
  | Fin x, NInf => num_mul_inf NInf x
  | PInf, Fin y => num_mul_inf PInf y
  | NInf, Fin y => num_mul_inf NInf y
  | PInf, PInf | NInf, NInf => PInf
  | PInf, NInf | NInf, PInf => NInf
  end.

(** The index [slice] starts or ends at, for an array of length [len]: NaN
    counts as 0, a negative index counts from the end, everything is
    clamped to [0 .. len]. *)
Definition clamp_index (len : Z) (i : num) : Z :=
  match i with
  | NaN | NInf => 0
  | PInf => len
  | Fin z => if (z <? 0)%Z then Z.max (len + z) 0 else Z.min z len
  end.

(** [arr.slice(start, end)] *)
Definition js_slice {A} (start end_ : num) (l : list A) : list A :=
  let len := Z.of_nat (length l) in
  let k := clamp_index len start in
  let final := clamp_index len end_ in
  take (Z.to_nat (final - k)) (drop (Z.to_nat k) l).

(** [arr.sort((a, b) => b.key - a.key)].  The sort of the language is
    stable, so the result is the arrangement by decreasing key in which
    elements of equal key keep their order; it is built here by insertion. *)
Fixpoint insert_desc {A} (key : A → Z) (x : A) (l : list A) : list A :=
  match l with
  | [] => [x]
  | y :: rest => if (key y <=? key x)%Z then x :: y :: rest else y :: insert_desc key x rest
  end.

Definition sort_desc {A} (key : A → Z) (l : list A) : list A :=
  foldr (insert_desc key) [] l.

(** Lines 380-382: the comments of a URL, newest first. *)
Definition filteredComments (url : string) (st : FileBacked.State) : list Comment.t :=
  sort_desc Comment.timestamp (filter (λ c, Comment.url c = url) (FileBacked.comments st)).

(** Lines 385-394: the slice of that list for a page. *)
Definition paginatedComments (url : string) (pageNum limitNum : num)
    (st : FileBacked.State) : list Comment.t :=
  let startIndex := num_mul (num_sub pageNum (Fin 1)) limitNum in
  let endIndex := num_add startIndex limitNum in
  js_slice startIndex endIndex (filteredComments url st).

Record Listing := {
  l_comments : list Tree;
  l_pagination : Pagination
}.

Inductive ListResponse :=
| ListOK (l : Listing)
| ListBadRequest
| ListError
    (** 500: [res.json] throws on a forest that contains itself *).

(** [GET /api/comments], lines 371-413; [pageNum] and [limitNum] are the
    parsed query parameters. *)
Definition getComments (url : option string) (pageNum limitNum : num)
    (st : FileBacked.State) : ListResponse :=
  match url with
  | Some url' =>
      if negb (truthy url) then ListBadRequest
      else
        match commentTree (paginatedComments url' pageNum limitNum st) with
        | Some commentTree' =>
            ListOK {| l_comments := commentTree';
                      l_pagination :=
                        pagination (Z.of_nat (length (filteredComments url' st)))
                                   pageNum limitNum |}
        | None => ListError
        end
  | None => ListBadRequest
  end.

(** [GET /api/notifications], lines 604-616: the user's notifications,
    newest first, at most 50. *)
Definition file_getNotifications (user : AuthUser) (st : FileBacked.State) : list Notification.t :=
  js_slice (Fin 0) (Fin 50)
    (sort_desc Notification.timestamp
       (filter (λ n, Notification.userId n = au_id user) (FileBacked.notifications st))).

Definition marked_read (n : Notification.t) : Notification.t :=
  {| Notification.id := Notification.id n;
     Notification.userId := Notification.userId n;
     Notification.message := Notification.message n;
     Notification.commentId := Notification.commentId n;
     Notification.url := Notification.url n;
     Notification.timestamp := Notification.timestamp n;
     Notification.read := true |}.

Definition is_notification_of (id : string) (user : AuthUser) (n : Notification.t) : bool :=
  bool_decide (Notification.id n = id) && bool_decide (Notification.userId n = au_id user).

(** [PUT /api/notifications/:id/read], lines 619-634. *)
Definition file_markRead (user : AuthUser) (id : string) (st : FileBacked.State)
    : Status * FileBacked.State :=
  match js_find (is_notification_of id user) (FileBacked.notifications st) with
  | None => (NotFound, st)
  | Some notification =>
      (OK, {| FileBacked.comments := FileBacked.comments st;
              FileBacked.users := FileBacked.users st;
              FileBacked.notifications :=
                update_first (is_notification_of id user) marked_read
                             (FileBacked.notifications st);
              FileBacked.votes := FileBacked.votes st |})
  end.

(** Decreasing order of a key. *)
Definition newest_first {A} (key : A → Z) (l : list A) : Prop :=
  StronglySorted (λ a b, (key b ≤ key a)%Z) l.

(** A store of seven comments on one page and one on another. *)
Definition numbered (n : Z) : Comment.t :=
  Comment.mk (pretty n) "https://example.org" "" "" None "1" "alice" n None 0 0.

Definition file_store_7 : FileBacked.State :=
  {| FileBacked.comments :=
       [numbered 3; numbered 1; numbered 7; numbered 2;
        Comment.mk "x" "https://other.example" "" "" None "2" "bob" 9 None 0 0;
        numbered 5; numbered 4; numbered 6];
     FileBacked.users := [alice_user; bob_user];
     FileBacked.notifications := []; FileBacked.votes := ∅ |}.

(** A page in which one identifier is stored twice, once as a root and once
    as a reply below it. *)
Definition cyclic_store : FileBacked.State :=
  {| FileBacked.comments :=
       [Comment.mk "a" "https://example.org" "" "" None "1" "alice" 3 None 0 0;
        Comment.mk "b" "https://example.org" "" "" (Some "a") "1" "alice" 2 None 0 0;
        Comment.mk "a" "https://example.org" "" "" (Some "b") "1" "alice" 1 None 0 0];
     FileBacked.users := [alice_user];
     FileBacked.notifications := []; FileBacked.votes := ∅ |}.

(** [PUT /api/notifications/:id/read] of the Firestore server, lines
    1376-1399: the document is looked up by its id, then the owner is
    checked. *)
Definition firestore_markRead (user : AuthUser) (id : string) (st : Firestore.State)
    : Status * Firestore.State :=
  match js_find (λ n, bool_decide (Notification.id n = id))
                (Firestore.notificationsCollection st) with
  | None => (NotFound, st)
  | Some notification =>
      if bool_decide (Notification.userId notification ≠ au_id user) then (Forbidden, st)
      else
        (OK, {| Firestore.commentsCollection := Firestore.commentsCollection st;
                Firestore.usersCollection := Firestore.usersCollection st;
                Firestore.votesCollection := Firestore.votesCollection st;
                Firestore.notificationsCollection :=
                  (λ n, if bool_decide (Notification.id n = id) then marked_read n else n)
                    <$> Firestore.notificationsCollection st |})
  end.

Definition note (id userId : string) (t : Z) : Notification.t :=
  Notification.mk id userId "bob mentioned you in a comment" "c1" "https://example.org" t false.

Definition file_store_notes : FileBacked.State :=
  {| FileBacked.comments := []; FileBacked.users := [alice_user; bob_user];
     FileBacked.notifications := [note "n1" "1" 10; note "n2" "2" 20; note "n3" "1" 30];
     FileBacked.votes := ∅ |}.

Definition firestore_notes : Firestore.State :=
  {| Firestore.commentsCollection := []; Firestore.usersCollection := [alice_user; bob_user];
     Firestore.votesCollection := [];
     Firestore.notificationsCollection :=
       [note "n1" "1" 10; note "n2" "2" 20; note "n3" "1" 30] |}.

(** ** Accounts: the authentication endpoints of the file-backed server *)

(** [email.split('@')[0]] *)
Fixpoint before_at (s : string) : string :=
  match s with
  | EmptyString => EmptyString
  | String c r => if is_at c then EmptyString else String c (before_at r)
  end.

Module Auth.

(** An element of the [users] array with all its fields.  Accounts created
    by Google sign-in have no [passwordHash]; the others have no [avatar]
    and no [googleId].  The clock reads of one request are taken at one
    instant [now]. *)
Record Account := {
  id : string;
  fullname : string;
  username : string;
  email : string;
  passwordHash : option string;
  avatar : option string;
  googleId : option string;
  createdAt : Z
}.

Record ResetData := { token : string; expiresAt : Z }.

Record State := {
  users : list Account;
  passwordResetTokens : gmap string ResetData
}.

(** The [user] object of a response; an undefined [avatar] is not
    serialised. *)
Record Profile := {
  p_id : string;
  p_fullname : string;
  p_username : string;
  p_email : string;
  p_avatar : option string
}.

Inductive Code :=
  OK | Created | BadRequest | Unauthorized | NotFound | Conflict | ServerError.

Inductive Body :=
| JError (msg : string)
| JSession (token : string) (user : Profile)
| JMessage (msg : string)
| JUser (user : Profile).

Record Response := { status : Code; body : Body }.

(** The payload of a verified Google ID token. *)
Record GooglePayload := {
  g_email : string;
  g_name : string;
  g_picture : option string;
  g_sub : string
}.

Definition reject (st : State) (c : Code) (msg : string) : Response * State :=
  ({| status := c; body := JError msg |}, st).

Definition reset_sent : string :=
  "If an account with this email exists, a password reset link has been sent.".

Definition has_email (e : string) (u : Account) : bool := bool_decide (email u = e).

Definition set_passwordHash (h : string) (u : Account) : Account :=
  {| id := id u; fullname := fullname u; username := username u; email := email u;
     passwordHash := Some h; avatar := avatar u; googleId := googleId u;
     createdAt := createdAt u |}.

Section Handlers.
(** [jwt.sign(payload, JWT_SECRET, { expiresIn: '24h' })] at a given time. *)
Variable sign : AuthUser → Z → string.
(** [bcrypt.hash(password, 10)] with the salt it draws, and
    [bcrypt.compare(password, hash)]. *)
Variable bcrypt_hash : string → string → string.
Variable bcrypt_compare : string → string → bool.

Definition session (now : Z) (u : Account) (with_avatar : bool) : Body :=
  JSession (sign {| au_id := id u; au_username := username u |} now)
           {| p_id := id u; p_fullname := fullname u; p_username := username u;
              p_email := email u;
              p_avatar := if with_avatar then avatar u else None |}.

(** [POST /api/auth/register], lines 148-190. *)
Definition register (now : Z) (salt : string)
    (fullname' username' email' password' : option string) (st : State)
    : Response * State :=
  match fullname', username', email', password' with
  | Some fullname_, Some username_, Some email_, Some password_ =>
      if negb (truthy fullname') || negb (truthy username') || negb (truthy email')
         || negb (truthy password')
      then reject st BadRequest "Full name, username, email, and password are required"
      else
        match js_find (λ u, bool_decide (email u = email_)
                            || bool_decide (username u = username_)) (users st) with
        | Some existingUser => reject st Conflict "User already exists"
        | None =>
            let newUser :=
              {| id := Date_toString now; fullname := fullname_; username := username_;
                 email := email_; passwordHash := Some (bcrypt_hash salt password_);
                 avatar := None; googleId := None; createdAt := now |} in
            ({| status := Created; body := session now newUser false |},
             {| users := users st ++ [newUser];
                passwordResetTokens := passwordResetTokens st |})
        end
  | _, _, _, _ => reject st BadRequest "Full name, username, email, and password are required"
  end.

(** [POST /api/auth/login], lines 193-227.  [bcrypt.compare] throws on an
    account without hash, which the handler answers with 500. *)
Definition login (now : Z) (email' password' : option string) (st : State)
    : Response * State :=
  match email', password' with
  | Some email_, Some password_ =>
      if negb (truthy email') || negb (truthy password')
      then reject st BadRequest "Email and password are required"
      else
        match js_find (has_email email_) (users st) with
        | None => reject st Unauthorized "Invalid credentials"
        | Some user =>
            match passwordHash user with
            | None => reject st ServerError "Failed to login"
            | Some h =>
                if negb (bcrypt_compare password_ h)
                then reject st Unauthorized "Invalid credentials"
                else ({| status := OK; body := session now user false |}, st)
            end
        end
  | _, _ => reject st BadRequest "Email and password are required"
  end.

(** [POST /api/auth/google], lines 230-278; [ticket] is what
    [verifyIdToken] yields, [None] when it throws. *)
Definition google (now : Z) (ticket : option GooglePayload) (token' : option string)
    (st : State) : Response * State :=
  if negb (truthy token') then reject st BadRequest "Google token is required"
  else
    match ticket with
    | None => reject st ServerError "Failed to authenticate with Google"
    | Some payload =>
        match js_find (has_email (g_email payload)) (users st) with
        | Some user => ({| status := OK; body := session now user true |}, st)
        | None =>
            let user :=
              {| id := Date_toString now; fullname := g_name payload;
                 username := before_at (g_email payload); email := g_email payload;
                 passwordHash := None; avatar := g_picture payload;
                 googleId := Some (g_sub payload); createdAt := now |} in
            ({| status := OK; body := session now user true |},
             {| users := users st ++ [user];
                passwordResetTokens := passwordResetTokens st |})
        end
    end.

(** [POST /api/auth/forgot-password], lines 281-313; [resetToken] is the
    random token drawn. *)
Definition forgotPassword (now : Z) (resetToken : string) (email' : option string)
    (st : State) : Response * State :=
  match email' with
  | Some email_ =>
      if negb (truthy email') then reject st BadRequest "Email is required"
      else
        match js_find (has_email email_) (users st) with
        | None => ({| status := OK; body := JMessage reset_sent |}, st)
        | Some user =>
            ({| status := OK; body := JMessage reset_sent |},
             {| users := users st;
                passwordResetTokens :=
                  <[email_ := {| token := resetToken;
                                 expiresAt := (now + 15 * 60 * 1000)%Z |}]>
                    (passwordResetTokens st) |})
        end
  | None => reject st BadRequest "Email is required"
  end.

(** [POST /api/auth/reset-password], lines 316-356. *)
Definition resetPassword (now : Z) (salt : string)
    (email' token' newPassword' : option string) (st : State) : Response * State :=
  match email', token', newPassword' with
  | Some email_, Some token_, Some newPassword =>
      if negb (truthy email') || negb (truthy token') || negb (truthy newPassword')
      then reject st BadRequest "Email, token, and new password are required"
      else if js_length newPassword <? 6
      then reject st BadRequest "Password must be at least 6 characters long"
      else
        match passwordResetTokens st !! email_ with
        | None => reject st BadRequest "Invalid or expired reset token"
        | Some resetData =>
            if bool_decide (token resetData ≠ token_) || (expiresAt resetData <? now)%Z
            then reject st BadRequest "Invalid or expired reset token"
            else
              match js_find (has_email email_) (users st) with
              | None => reject st NotFound "User not found"
              | Some user =>
                  ({| status := OK;
                      body := JMessage "Password reset successful. You can now login with your new password." |},
                   {| users :=
                        update_first (has_email email_)
                                     (set_passwordHash (bcrypt_hash salt newPassword))
                                     (users st);
                      passwordResetTokens := delete email_ (passwordResetTokens st) |})
              end
        end
  | _, _, _ => reject st BadRequest "Email, token, and new password are required"
  end.

(** [GET /api/auth/me], lines 359-368, behind [authenticateToken]. *)
Definition me (user : AuthUser) (st : State) : Response :=
  match js_find (λ u, bool_decide (id u = au_id user)) (users st) with
  | None => {| status := NotFound; body := JError "User not found" |}
  | Some u =>
      {| status := OK;
         body := JUser {| p_id := id u; p_fullname := fullname u; p_username := username u;
                          p_email := email u; p_avatar := avatar u |} |}
  end.

(** One request to the authentication endpoints, with the time at which it
    is served and the random values it draws. *)
Inductive Request :=
| Register (now : Z) (salt : string) (fullname' username' email' password' : option string)
| Login (now : Z) (email' password' : option string)
| Google (now : Z) (ticket : option GooglePayload) (token' : option string)
| ForgotPassword (now : Z) (resetToken : string) (email' : option string)
| ResetPassword (now : Z) (salt : string) (email' token' newPassword' : option string).

Definition handle (r : Request) (st : State) : Response * State :=
  match r with
  | Register now salt f u e p => register now salt f u e p st
  | Login now e p => login now e p st
  | Google now ticket t => google now ticket t st
  | ForgotPassword now t e => forgotPassword now t e st
  | ResetPassword now salt e t p => resetPassword now salt e t p st
  end.

Definition run (rs : list Request) (st : State) : State :=
  fold_left (λ s r, (handle r s).2) rs st.

End Handlers.

End Auth.

Definition is_google (r : Auth.Request) : bool :=
  match r with Auth.Google _ _ _ => true | _ => false end.

(** Everything of an account but its password hash. *)
Definition account_frame (u : Auth.Account)
    : string * string * string * string * option string * option string * Z :=
  (Auth.id u, Auth.fullname u, Auth.username u, Auth.email u, Auth.avatar u,
   Auth.googleId u, Auth.createdAt u).

Definition carol_account : Auth.Account :=
  {| Auth.id := "7"; Auth.fullname := "Carol C"; Auth.username := "carol";
     Auth.email := "carol@example.org"; Auth.passwordHash := Some "old-secret";
     Auth.avatar := None; Auth.googleId := None; Auth.createdAt := 7 |}.

Definition auth_store_1 : Auth.State :=
  {| Auth.users := [carol_account]; Auth.passwordResetTokens := ∅ |}.

(** Stand-ins for the token signer and for bcrypt in examples. *)
Definition plain_sign (u : AuthUser) (now : Z) : string := au_id u.
Definition plain_hash (salt password : string) : string := password.
Definition plain_compare (password hash : string) : bool := String.eqb password hash.

(** ** Editing a comment in the Firestore server *)



(** The comments a listing shows: all comments of its forest. *)
Definition shown (r : ListResponse) : list Comment.t :=
  match r with
  | ListOK l => l_comments l ≫= tree_comments
  | _ => []
  end.

(** A root and a newer reply to it. *)
Definition two_pages : FileBacked.State :=
  {| FileBacked.comments :=
       [Comment.mk "r" "https://example.org" "" "" None "1" "alice" 1 None 0 0;
        Comment.mk "s" "https://example.org" "" "" (Some "r") "2" "bob" 2 None 0 0];
     FileBacked.users := [alice_user; bob_user];
     FileBacked.notifications := []; FileBacked.votes := ∅ |}.

(** ** Letter case *)





(** A user whose name starts with the KELVIN SIGN (U+212A), and a stand-in
    for the built-in lower-casing that knows this one name. *)
Definition kelvin_user : User.t := User.mk "3" "Lord K" "Kelvin" "k@example.org".

Definition lower_kelvin (s : string) : string :=
  if String.eqb s "Kelvin" then "kelvin" else s.

(** * Properties *)

Example extract_twice : extractMentions "hi @bob and @bob" = ["bob"; "bob"].
Proof. reflexivity. Qed.

Example extract_edge : extractMentions "@@a_1 x@B! @ @" = ["a_1"; "B"].
Proof. reflexivity. Qed.

Example tree_of_thread :
  commentTree [thread_A; thread_B; thread_C]
  = Some [Node thread_A [Node thread_B [Node thread_C []]]].
Proof. reflexivity. Qed.

Example tree_newest_first :
  commentTree [thread_C; thread_B; thread_A]
  = Some [Node thread_A [Node thread_B [Node thread_C []]]].
Proof. reflexivity. Qed.

(** ** Pagination *)

Lemma ceil_div_bounds (total limit : Z) :
  (0 < limit)%Z →
  (limit * (- ((- total) / limit) - 1) < total ≤ limit * - ((- total) / limit))%Z.
Proof.
  intros Hl.
  pose proof (Z.div_mod (- total) limit ltac:(lia)) as Hdm.
  pose proof (Z.mod_pos_bound (- total) limit Hl) as Hb.
  nia.
Qed.

(** C6: with a positive limit, [totalPages] is the ceiling of
    [totalComments / limit] (the integer [k] with
    [limit * (k - 1) < totalComments <= limit * k]), [hasNextPage] is
    [currentPage < totalPages] and [hasPrevPage] is [currentPage > 1]; for 7
    comments and a limit of 3 there are 3 pages, page 1 has a next and no
    previous page, page 3 has no next page. *)
Theorem pagination_metadata (total page limit : Z) :
  (0 < limit)%Z →
  (∃ k : Z,
      totalPages (pagination total (Fin page) (Fin limit)) = Fin k
      ∧ (limit * (k - 1) < total ≤ limit * k)%Z
      ∧ hasNextPage (pagination total (Fin page) (Fin limit)) = bool_decide (page < k)%Z
      ∧ hasPrevPage (pagination total (Fin page) (Fin limit)) = bool_decide (page > 1)%Z)
  ∧ totalPages (pagination 7 (Fin 1) (Fin 3)) = Fin 3
  ∧ hasNextPage (pagination 7 (Fin 1) (Fin 3)) = true
  ∧ hasPrevPage (pagination 7 (Fin 1) (Fin 3)) = false
  ∧ hasNextPage (pagination 7 (Fin 3) (Fin 3)) = false.
Proof.
  intros Hl. split; [|by vm_compute].
  exists (- ((- total) / limit))%Z.
  unfold pagination, ceil_div; simpl.
  destruct (Z.eqb_spec limit 0) as [->|_]; [lia|].
  split; [done|]. split; [by apply ceil_div_bounds|].
  split.
  - unfold num_lt. destruct (Z.ltb_spec page (- (- total / limit))%Z);
      [by rewrite bool_decide_eq_true_2 | by rewrite bool_decide_eq_false_2; [|lia]].
  - unfold num_gt, num_lt. destruct (Z.ltb_spec 1 page);
      [by rewrite bool_decide_eq_true_2; [|lia] | by rewrite bool_decide_eq_false_2; [|lia]].
Qed.

Lemma pagination_metadata_witness :
  (∃ k : Z,
      totalPages (pagination 7 (Fin 2) (Fin 3)) = Fin k
      ∧ (3 * (k - 1) < 7 ≤ 3 * k)%Z
      ∧ hasNextPage (pagination 7 (Fin 2) (Fin 3)) = bool_decide (2 < k)%Z
      ∧ hasPrevPage (pagination 7 (Fin 2) (Fin 3)) = bool_decide (2 > 1)%Z)
  ∧ totalPages (pagination 7 (Fin 1) (Fin 3)) = Fin 3
  ∧ hasNextPage (pagination 7 (Fin 1) (Fin 3)) = true
  ∧ hasPrevPage (pagination 7 (Fin 1) (Fin 3)) = false
  ∧ hasNextPage (pagination 7 (Fin 3) (Fin 3)) = false.
Proof. apply (pagination_metadata 7 2 3). lia. Defined.

(** ** Mention resolution *)

Lemma js_find_Some {A} (P : A → bool) (l : list A) (x : A) :
  js_find P l = Some x → x ∈ l ∧ P x = true.
Proof.
  unfold js_find. intros H. apply find_some in H as [Hin HP].
  split; [by apply list_elem_of_In | done].
Qed.

Lemma js_find_None {A} (P : A → bool) (l : list A) :
  js_find P l = None ↔ ∀ x, x ∈ l → P x = false.
Proof.
  unfold js_find. split.
  - intros H x Hx. apply (find_none _ _ H). by apply list_elem_of_In.
  - intros H. induction l as [|y l IH]; [done|]. simpl.
    rewrite (H y) by constructor. apply IH. intros x Hx. apply H. by constructor.
Qed.



Lemma append_cons (x : ascii) (w s : string) :
  (String x w ++ s = String x (w ++ s))%string.
Proof. reflexivity. Qed.

Lemma append_empty_l (s : string) : ("" ++ s = s)%string.
Proof. reflexivity. Qed.

Lemma append_empty_r (s : string) : (s ++ "" = s)%string.
Proof. induction s as [|x s IH]; [done|]. by rewrite append_cons, IH. Qed.

Lemma append_snoc (w : string) (c : ascii) (s : string) :
  ((w ++ String c "") ++ s = w ++ String c s)%string.
Proof.
  induction w as [|x w IH]; [done|]. by rewrite !append_cons, IH.
Qed.

Lemma all_word_snoc (w : string) (c : ascii) :
  all_word (w ++ String c "") = all_word w && is_word c.
Proof.
  induction w as [|x w IH]; [by rewrite append_empty_l; simpl; rewrite andb_true_r|].
  rewrite append_cons. simpl. by rewrite IH, andb_assoc.
Qed.

Lemma flush_handles (cur : option string) :
  (∀ w, cur = Some w → all_word w = true) → Forall is_handle (flush cur).
Proof.
  intros Hcur. destruct cur as [[|c w]|]; simpl; try constructor; [|constructor].
  split; [done|]. by apply Hcur.
Qed.

Lemma scan_handles (s : string) (cur : option string) :
  (∀ w, cur = Some w → all_word w = true) → Forall is_handle (scan_mentions cur s).
Proof.
  revert cur. induction s as [|c s IH]; intros cur Hcur; simpl.
  - by apply flush_handles.
  - destruct cur as [w|].
    + destruct (is_word c) eqn:Hc.
      * apply IH. intros w' [= <-]. rewrite all_word_snoc, Hc, andb_true_r. by apply Hcur.
      * apply Forall_app. split; [by apply flush_handles|].
        apply IH. intros w'. by destruct (is_at c); intros [= <-].
    + apply IH. intros w'. by destruct (is_at c); intros [= <-].
Qed.









(** A name outside ASCII is compared as the built-in folds it: with the
    KELVIN SIGN folded to [k], [@kelvin] finds the user. *)
Example kelvin_resolves :
  ascii_only (User.username kelvin_user) = false
  ∧ FileBacked.resolve lower_kelvin [alice_user; kelvin_user] "kelvin" = Some kelvin_user.
Proof. by vm_compute. Qed.


(** ** The mention loop *)

Section MentionLoop.
Variable unicode_lower : string → string.
Variable render : string → string.
Variable random : nat → string.
Variable autoId : nat → string.

Lemma file_mention_loop users user now cid url mentions ns es :
  ∃ added,
    fold_left (FileBacked.mention_step unicode_lower random users user now cid url) mentions (ns, es)
    = (ns ++ added,
       es ++ ((λ n, EvNotification (Notification.userId n) n) <$> added))
    ∧ Notification.userId <$> added
      = recipients (FileBacked.resolve unicode_lower users) (au_id user) mentions.
Proof.
  revert ns es. induction mentions as [|m ms IH]; intros ns es; simpl.
  { exists []. by rewrite !app_nil_r. }
  unfold FileBacked.mention_step at 2, recipients; simpl.
  destruct (FileBacked.resolve unicode_lower users m) as [u|]; simpl; [|apply IH].
  destruct (bool_decide (User.id u ≠ au_id user)); simpl; [|apply IH].
  match goal with
  | |- context [fold_left _ ms (?a, ?b)] => destruct (IH a b) as (added & -> & Hadd)
  end.
  eexists (Notification.mk _ _ _ _ _ _ _ :: added). split.
  - rewrite <-!(assoc_L (++)). simpl. reflexivity.
  - rewrite fmap_cons. simpl. f_equal. exact Hadd.
Qed.

Lemma firestore_mention_loop users user now cid url mentions ns es :
  ∃ added payloads,
    fold_left (Firestore.mention_step autoId users user now cid url) mentions (ns, es)
    = (ns ++ added,
       es ++ ((λ n, EvNotification (Notification.userId n) n) <$> payloads))
    ∧ Notification.userId <$> added
      = recipients (Firestore.resolve users) (au_id user) mentions
    ∧ Notification.userId <$> payloads = Notification.userId <$> added.
Proof.
  revert ns es. induction mentions as [|m ms IH]; intros ns es; simpl.
  { exists [], []. by rewrite !app_nil_r. }
  unfold Firestore.mention_step at 2, recipients; simpl.
  destruct (Firestore.resolve users m) as [u|]; simpl; [|apply IH].
  destruct (bool_decide (User.id u ≠ au_id user)); simpl; [|apply IH].
  match goal with
  | |- context [fold_left _ ms (?a, ?b)] =>
      destruct (IH a b) as (added & payloads & -> & Hadd & Hpay)
  end.
  eexists (Notification.mk _ _ _ _ _ _ _ :: added),
          (Notification.mk _ _ _ _ _ _ _ :: payloads). split; [|split].
  - rewrite <-!(assoc_L (++)). simpl. reflexivity.
  - rewrite fmap_cons. simpl. f_equal. exact Hadd.
  - rewrite !fmap_cons. simpl. f_equal. exact Hpay.
Qed.

Lemma notified_users_app es1 es2 :
  notified_users (es1 ++ es2) = notified_users es1 ++ notified_users es2.
Proof. apply omap_app. Qed.

Lemma notified_users_notifications (ns : list Notification.t) :
  notified_users ((λ n, EvNotification (Notification.userId n) n) <$> ns)
  = Notification.userId <$> ns.
Proof. induction ns as [|n ns IH]; [done|]. rewrite !fmap_cons. simpl. f_equal. exact IH. Qed.

(** C1, as the code has it: the mention loop runs once per occurrence.
    For a request with a URL and a text, the notification rows added by
    [POST /api/comments], and the [notification] events it emits, have as
    recipients the users that the occurrences of handles in the text
    resolve to, one per occurrence and in order, without the unresolved
    handles and the author; nothing is removed from the store.  This holds
    in the file-backed and in the Firestore server. *)
Theorem mention_notifications_per_occurrence
    (user : AuthUser) (now : Z) (url text : string) (parentId : option string)
    (st : FileBacked.State) (fs : Firestore.State) :
  url ≠ "" → text ≠ "" →
  (∃ added,
      FileBacked.notifications
        (FileBacked.state
           (FileBacked.createComment unicode_lower render random user now (Some url) (Some text) parentId st))
      = FileBacked.notifications st ++ added
      ∧ Notification.userId <$> added
        = recipients (FileBacked.resolve unicode_lower (FileBacked.users st)) (au_id user)
                     (extractMentions text)
      ∧ notified_users
          (FileBacked.events
             (FileBacked.createComment unicode_lower render random user now (Some url) (Some text) parentId st))
        = Notification.userId <$> added)
  ∧ (∃ added,
      Firestore.notificationsCollection
        (Firestore.state
           (Firestore.createComment render autoId user now (Some url) (Some text) parentId fs))
      = Firestore.notificationsCollection fs ++ added
      ∧ Notification.userId <$> added
        = recipients (Firestore.resolve (Firestore.usersCollection fs)) (au_id user)
                     (extractMentions text)
      ∧ notified_users
          (Firestore.events
             (Firestore.createComment render autoId user now (Some url) (Some text) parentId fs))
        = Notification.userId <$> added).
Proof.
  intros Hurl Htext.
  assert (truthy (Some url) && truthy (Some text) = true) as Hv.
  { simpl. apply String.eqb_neq in Hurl, Htext. by rewrite Hurl, Htext. }
  split.
  - unfold FileBacked.createComment. rewrite Hv. simpl.
    edestruct (file_mention_loop (FileBacked.users st) user now (Date_toString now) url
                 (extractMentions text) (FileBacked.notifications st) [])
      as (added & -> & Hadd).
    exists added. simpl. split; [done|]. split; [done|].
    by rewrite notified_users_app, notified_users_notifications, app_nil_r.
  - unfold Firestore.createComment. rewrite Hv. simpl.
    edestruct (firestore_mention_loop (Firestore.usersCollection fs) user now
                 (autoId (length (Firestore.commentsCollection fs))) url
                 (extractMentions text) (Firestore.notificationsCollection fs) [])
      as (added & payloads & -> & Hadd & Hpay).
    exists added. simpl. split; [done|]. split; [done|].
    by rewrite notified_users_app, notified_users_notifications, app_nil_r.
Qed.

End MentionLoop.

(** C1 fails on the code: the text [hi @bob and @bob] posted by alice leaves
    two notification rows for bob, and two [notification] events, in either
    server. *)
Lemma mention_twice_two_notifications :
  let out := FileBacked.createComment (λ s, s) (λ s, s) (λ _, "") alice 1000
               (Some "https://example.org") (Some "hi @bob and @bob") None file_store_1 in
  let out' := Firestore.createComment (λ s, s) (λ n, pretty n) alice 1000
               (Some "https://example.org") (Some "hi @bob and @bob") None firestore_1 in
  count_if (for_user "2") (FileBacked.notifications (FileBacked.state out)) = 2
  ∧ notified_users (FileBacked.events out) = ["2"; "2"]
  ∧ count_if (for_user "2") (Firestore.notificationsCollection (Firestore.state out')) = 2
  ∧ notified_users (Firestore.events out') = ["2"; "2"]
  ∧ count_if (for_user "2") (FileBacked.notifications (FileBacked.state out)) ≠ 1.
Proof. vm_compute. repeat split; lia. Qed.

Lemma mention_notifications_per_occurrence_witness :
  ∃ added,
    FileBacked.notifications
      (FileBacked.state
         (FileBacked.createComment (λ s, s) (λ s, s) (λ _, "") alice 1000
            (Some "https://example.org") (Some "hi @bob and @bob") None file_store_1))
    = [] ++ added
    ∧ Notification.userId <$> added = ["2"; "2"].
Proof.
  destruct (mention_notifications_per_occurrence (λ s, s) (λ s, s) (λ _, "") (λ n, pretty n)
              alice 1000 "https://example.org" "hi @bob and @bob" None
              file_store_1 firestore_1 ltac:(done) ltac:(done))
    as [(added & H1 & H2 & _) _].
  exists added. split; [exact H1 | exact H2].
Defined.

(** ** Voting *)

(** C7: a vote request with a valid type on an identifier that no stored
    comment has is answered [NotFound], emits nothing and leaves the whole
    store (counters, vote rows and everything else) as it was, in the
    file-backed and in the Firestore server. *)
Theorem vote_unknown_comment_not_found
    (autoId : nat → string) (user : AuthUser) (now : Z) (id : string)
    (voteType : option string) (st : FileBacked.State) (fs : Firestore.State) :
  valid_voteType voteType = true →
  (∀ c, c ∈ FileBacked.comments st → Comment.id c ≠ id) →
  (∀ c, c ∈ Firestore.commentsCollection fs → Comment.id c ≠ id) →
  (status (FileBacked.response (FileBacked.vote user id voteType st)) = NotFound
   ∧ FileBacked.state (FileBacked.vote user id voteType st) = st
   ∧ FileBacked.events (FileBacked.vote user id voteType st) = [])
  ∧ (status (Firestore.response (Firestore.vote autoId user now id voteType fs)) = NotFound
     ∧ Firestore.state (Firestore.vote autoId user now id voteType fs) = fs
     ∧ Firestore.events (Firestore.vote autoId user now id voteType fs) = []).
Proof.
  intros Hv Hst Hfs.
  destruct voteType as [v|]; [|done].
  split.
  - unfold FileBacked.vote. rewrite Hv. simpl.
    assert (js_find (FileBacked.has_id id) (FileBacked.comments st) = None) as ->; [|done].
    apply js_find_None. intros c Hc. by apply bool_decide_eq_false, Hst.
  - unfold Firestore.vote. rewrite Hv. simpl.
    assert (js_find (Firestore.has_id id) (Firestore.commentsCollection fs) = None) as ->; [|done].
    apply js_find_None. intros c Hc. by apply bool_decide_eq_false, Hfs.
Qed.

Lemma vote_unknown_comment_not_found_witness :
  status (FileBacked.response (FileBacked.vote alice "nope" (Some "up") file_store_2)) = NotFound
  ∧ FileBacked.state (FileBacked.vote alice "nope" (Some "up") file_store_2) = file_store_2
  ∧ Firestore.state (Firestore.vote (λ n, pretty n) alice 1000 "nope" (Some "up") firestore_2)
    = firestore_2.
Proof.
  destruct (vote_unknown_comment_not_found (λ n, pretty n) alice 1000 "nope" (Some "up")
              file_store_2 firestore_2) as [(H1 & H2 & _) (_ & H3 & _)].
  - reflexivity.
  - intros c Hc. apply list_elem_of_singleton in Hc as ->. by vm_compute.
  - intros c Hc. apply list_elem_of_singleton in Hc as ->. by vm_compute.
  - by repeat split.
Defined.

(** *** The counters of the file-backed server *)

Lemma Forall_update_first {A} (P : A → Prop) (Q : A → bool) (f : A → A) (l : list A) :
  (∀ x, P x → P (f x)) → Forall P l → Forall P (update_first Q f l).
Proof.
  intros Hf. induction 1 as [|x l Hx Hl IH]; simpl; [constructor|].
  destruct (Q x); constructor; auto.
Qed.

Lemma Forall_splice1 {A} (P : A → Prop) (i : Z) (l : list A) :
  Forall P l → Forall P (splice1 i l).
Proof. intros H. unfold splice1. by apply Forall_delete. Qed.

Lemma Forall_file_cascade (P : Comment.t → Prop) (id : string) (l : list Comment.t) :
  Forall P l → Forall P (FileBacked.cascade id l).
Proof.
  intros H. unfold FileBacked.cascade.
  generalize (filter (λ c, Comment.parentId c = Some id)
                (splice1 (findIndex (FileBacked.has_id id) l) l)).
  intros replies.
  assert (Forall P (splice1 (findIndex (FileBacked.has_id id) l) l)) as H1
    by by apply Forall_splice1.
  revert H1. generalize (splice1 (findIndex (FileBacked.has_id id) l) l).
  induction replies as [|r rs IH]; intros cs Hcs; simpl; [done|].
  apply IH. by apply Forall_splice1.
Qed.

Section Counters.
Variable unicode_lower : string → string.
Variable render : string → string.
Variable random : nat → string.

Lemma voted_nonneg (v : string) (c : Comment.t) :
  (0 ≤ Comment.upvotes c)%Z ∧ (0 ≤ Comment.downvotes c)%Z →
  (0 ≤ Comment.upvotes (FileBacked.voted v c))%Z
  ∧ (0 ≤ Comment.downvotes (FileBacked.voted v c))%Z.
Proof.
  intros [Hu Hd]. unfold FileBacked.voted.
  repeat case_bool_decide; simpl; lia.
Qed.

Lemma handle_tallies_nonneg (r : FileBacked.Request) (st : FileBacked.State) :
  tallies_nonneg st →
  tallies_nonneg (FileBacked.state (FileBacked.handle unicode_lower render random r st)).
Proof.
  unfold tallies_nonneg. intros H.
  destruct r as [user now url text parentId | user id voteType
                | user now id text | user id]; simpl.
  - unfold FileBacked.createComment.
    destruct url as [url|], text as [text|]; try done.
    destruct (negb (truthy (Some url) && truthy (Some text))); [done|].
    destruct (fold_left _ _ _) as [ns es]. simpl.
    apply Forall_app. split; [done|]. by repeat constructor.
  - unfold FileBacked.vote. destruct voteType as [v|]; [|done].
    destruct (negb (valid_voteType (Some v))); [done|].
    destruct (js_find _ _); simpl; [|done].
    apply Forall_update_first; [|done]. apply voted_nonneg.
  - unfold FileBacked.editComment. destruct text as [text|]; [|done].
    destruct (negb (truthy (Some text))); [done|].
    destruct (js_find _ _) as [c|]; simpl; [|done].
    destruct (bool_decide _); simpl; [done|].
    apply Forall_update_first; [|done]. by intros x [? ?].
  - unfold FileBacked.deleteComment.
    destruct (js_find _ _) as [c|]; simpl; [|done].
    destruct (bool_decide _); simpl; [done|].
    by apply Forall_file_cascade.
Qed.

(** C8: in the file-backed server the counters never go below zero.  From
    a store whose counters are non-negative (the empty store in
    particular), every sequence of create, vote (up, down or remove),
    edit and delete requests leads to a store where every comment has
    [upvotes >= 0] and [downvotes >= 0]. *)
Theorem file_tallies_never_negative (rs : list FileBacked.Request) (st : FileBacked.State) :
  tallies_nonneg st →
  tallies_nonneg (FileBacked.run unicode_lower render random rs st).
Proof.
  revert st. induction rs as [|r rs IH]; intros st H; simpl; [done|].
  apply IH. by apply handle_tallies_nonneg.
Qed.

End Counters.

Lemma file_tallies_never_negative_witness :
  tallies_nonneg
    (FileBacked.run (λ s, s) (λ s, s) (λ _, "")
       [FileBacked.PostComment alice 1000 (Some "https://example.org") (Some "hi") None;
        FileBacked.PostVote alice "1000" (Some "remove");
        FileBacked.PostVote alice "1000" (Some "down");
        FileBacked.PostVote alice "1000" (Some "remove")]
       FileBacked.empty).
Proof.
  apply file_tallies_never_negative. unfold tallies_nonneg. simpl. constructor.
Defined.

(** C2 on the file-backed server: two [up] votes in a row by the same user
    on the comment [c1] leave the tally at 1/0 after the first and at 2/0
    after the second: the counter variant is not idempotent. *)
Theorem file_vote_twice_counts_twice :
  let st1 := FileBacked.state (FileBacked.vote alice "c1" (Some "up") file_store_2) in
  let st2 := FileBacked.state (FileBacked.vote alice "c1" (Some "up") st1) in
  FileBacked.tally "c1" st1 = Some (1, 0)%Z
  ∧ FileBacked.tally "c1" st2 = Some (2, 0)%Z
  ∧ FileBacked.tally "c1" st2 ≠ FileBacked.tally "c1" st1.
Proof. by vm_compute. Qed.

(** *** The vote rows of the Firestore server *)

Section VoteRows.
Variable autoId : nat → string.

Lemma existingVote_update (id userId d k : string) (votes : list Vote.t) :
  Firestore.existingVote id userId (Firestore.update_vote d k votes)
  = Firestore.update_vote d k (Firestore.existingVote id userId votes).
Proof.
  unfold Firestore.existingVote, Firestore.update_vote.
  induction votes as [|v vs IH]; [done|].
  rewrite fmap_cons, !filter_cons, IH.
  destruct (bool_decide (Vote.docId v = d)) eqn:E; simpl;
    destruct (decide (Vote.commentId v = id ∧ Vote.userId v = userId)) as [H|H];
    rewrite ?fmap_cons, ?E; done.
Qed.

Lemma update_vote_idem (d k : string) (votes : list Vote.t) :
  Firestore.update_vote d k (Firestore.update_vote d k votes) = Firestore.update_vote d k votes.
Proof.
  unfold Firestore.update_vote. rewrite <-list_fmap_compose.
  apply list_fmap_ext. intros _ v _. simpl.
  destruct (bool_decide (Vote.docId v = d)) eqn:E; simpl; by rewrite E.
Qed.

Lemma update_vote_other (d k : string) (votes : list Vote.t) :
  d ∉ Vote.docId <$> votes → Firestore.update_vote d k votes = votes.
Proof.
  intros Hd. unfold Firestore.update_vote.
  rewrite <-(list_fmap_id votes) at 2. apply list_fmap_ext. intros i v Hv.
  rewrite bool_decide_eq_false_2; [done|].
  intros <-. apply Hd, list_elem_of_fmap. exists v. split; [done|].
  by eapply list_elem_of_lookup_2.
Qed.

(** The per-user rows make a repeated vote a no-op: casting the same kind
    a second time leaves the [votes] collection, and so every tally, as
    the first cast left it.  (Document ids generated by [add] are fresh.) *)
Lemma firestore_castVote_idempotent (userId : string) (now now' : Z)
    (id k : string) (votes : list Vote.t) :
  k ≠ "remove" →
  autoId (length votes) ∉ Vote.docId <$> votes →
  Firestore.castVote autoId userId now' id k (Firestore.castVote autoId userId now id k votes)
  = Firestore.castVote autoId userId now id k votes.
Proof.
  intros Hk Hfresh. unfold Firestore.castVote.
  rewrite !(bool_decide_eq_false_2 (k = "remove")) by done.
  destruct (Firestore.existingVote id userId votes) as [|doc rest] eqn:E.
  - unfold Firestore.existingVote in *. rewrite filter_app, E. simpl.
    rewrite filter_cons, decide_True by done. simpl.
    unfold Firestore.update_vote. rewrite fmap_app. f_equal.
    + by apply update_vote_other.
    + simpl. by rewrite bool_decide_eq_true_2.
  - rewrite existingVote_update, E. unfold Firestore.update_vote at 1.
    rewrite fmap_cons.
    assert (Vote.docId (if bool_decide (Vote.docId doc = Vote.docId doc)
              then Vote.mk (Vote.docId doc) (Vote.commentId doc) (Vote.userId doc) k
                     (Vote.timestamp doc) else doc) = Vote.docId doc) as ->.
    { by rewrite bool_decide_eq_true_2. }
    apply update_vote_idem.
Qed.

Lemma firestore_tally_idempotent (userId : string) (now now' : Z)
    (id k : string) (votes : list Vote.t) :
  k ≠ "remove" →
  autoId (length votes) ∉ Vote.docId <$> votes →
  Firestore.getVotesForComment id
    (Firestore.castVote autoId userId now' id k (Firestore.castVote autoId userId now id k votes))
  = Firestore.getVotesForComment id (Firestore.castVote autoId userId now id k votes).
Proof. intros Hk Hf. by rewrite firestore_castVote_idempotent. Qed.

End VoteRows.

(** ** Deletion *)

Lemma findIndex_range {A} (P : A → bool) (l : list A) :
  (-1 ≤ findIndex P l < Z.of_nat (length l))%Z.
Proof.
  induction l as [|x l IH]; simpl; [lia|].
  destruct (P x); [lia|]. destruct (Z.ltb_spec (findIndex P l) 0); lia.
Qed.

Lemma findIndex_found {A} (P : A → bool) (l : list A) (x : A) :
  x ∈ l → P x = true → (0 ≤ findIndex P l)%Z.
Proof.
  induction 1 as [x l|x y l Hx IH]; intros HP; simpl.
  - by rewrite HP.
  - destruct (P y); [done|]. specialize (IH HP).
    destruct (Z.ltb_spec (findIndex P l) 0); lia.
Qed.

Lemma splice1_in_range {A} (i : Z) (l : list A) :
  (0 ≤ i < Z.of_nat (length l))%Z → splice1 i l = delete (Z.to_nat i) l.
Proof.
  intros Hi. unfold splice1.
  destruct (Z.ltb_spec i 0); [lia|]. by rewrite Z.min_l by lia.
Qed.

Lemma filter_all {A} (P : A → Prop) `{!∀ x, Decision (P x)} (l : list A) :
  Forall P l → filter P l = l.
Proof.
  induction 1 as [|x l Hx Hl IH]; [done|].
  by rewrite filter_cons, decide_True, IH.
Qed.

Lemma has_id_true (k : string) (c : Comment.t) :
  FileBacked.has_id k c = true ↔ Comment.id c = k.
Proof. unfold FileBacked.has_id. apply bool_decide_eq_true. Qed.

(** With distinct identifiers, splicing out the comment found under an
    identifier deletes the document of that identifier. *)
Lemma splice1_findIndex_id (k : string) (cs : list Comment.t) :
  NoDup (Comment.id <$> cs) → k ∈ Comment.id <$> cs →
  splice1 (findIndex (FileBacked.has_id k) cs) cs = Firestore.delete_comment_doc k cs.
Proof.
  intros Hnd Hk.
  apply list_elem_of_fmap in Hk as (c & -> & Hc).
  pose proof (findIndex_found (FileBacked.has_id (Comment.id c)) cs c Hc
                ltac:(by apply has_id_true)) as H0.
  pose proof (findIndex_range (FileBacked.has_id (Comment.id c)) cs) as H1.
  rewrite splice1_in_range by lia. clear H0 H1.
  unfold Firestore.delete_comment_doc.
  induction cs as [|x cs IH]; [by apply elem_of_nil in Hc|].
  rewrite fmap_cons in Hnd. apply NoDup_cons in Hnd as [Hx Hnd].
  simpl. rewrite filter_cons.
  destruct (FileBacked.has_id (Comment.id c) x) eqn:E.
  - apply has_id_true in E. rewrite decide_False by (by intros ?). simpl.
    symmetry. apply filter_all.
    apply Forall_forall. intros y Hy Heq. apply Hx. rewrite E, <-Heq.
    apply list_elem_of_fmap. by exists y.
  - assert (Comment.id x ≠ Comment.id c) as Hne.
    { intros Heq. apply has_id_true in Heq. congruence. }
    rewrite decide_True by done.
    apply elem_of_cons in Hc as [->|Hc]; [done|].
    pose proof (findIndex_found (FileBacked.has_id (Comment.id c)) cs c Hc
                  ltac:(by apply has_id_true)) as H0.
    destruct (Z.ltb_spec (findIndex (FileBacked.has_id (Comment.id c)) cs) 0); [lia|].
    rewrite Z2Nat.inj_add by lia. rewrite Nat.add_1_r. simpl.
    f_equal. by apply IH.
Qed.

Lemma NoDup_fmap_eq {A B} (f : A → B) (l : list A) (x y : A) :
  NoDup (f <$> l) → x ∈ l → y ∈ l → f x = f y → x = y.
Proof.
  induction l as [|z l IH]; intros Hnd Hx Hy Hf; [by apply elem_of_nil in Hx|].
  rewrite fmap_cons in Hnd. apply NoDup_cons in Hnd as [Hz Hnd].
  apply elem_of_cons in Hx as [->|Hx], Hy as [->|Hy]; auto.
  - exfalso. apply Hz. rewrite Hf. by apply list_elem_of_fmap_2.
  - exfalso. apply Hz. rewrite <-Hf. by apply list_elem_of_fmap_2.
Qed.

Lemma NoDup_fmap_filter {A B} (f : A → B) (P : A → Prop) `{!∀ x, Decision (P x)}
    (l : list A) :
  NoDup (f <$> l) → NoDup (f <$> filter P l).
Proof.
  intros Hnd. eapply sublist_NoDup; [exact Hnd|].
  apply fmap_sublist, sublist_filter.
Qed.

Lemma filter_ext_in {A} (P Q : A → Prop) `{!∀ x, Decision (P x), !∀ x, Decision (Q x)}
    (l : list A) :
  (∀ x, x ∈ l → P x ↔ Q x) → filter P l = filter Q l.
Proof.
  induction l as [|x l IH]; intros Hext; [done|].
  rewrite !filter_cons, IH by (intros y Hy; apply Hext; by constructor).
  apply decide_ext, Hext. by constructor.
Qed.

(** Deleting the documents of a list of replies, one after the other,
    keeps the comments whose identifier is none of theirs. *)
Lemma fold_delete_docs (replies cs : list Comment.t) :
  fold_left (λ acc doc, Firestore.delete_comment_doc (Comment.id doc) acc) replies cs
  = filter (λ c, Comment.id c ∉ Comment.id <$> replies) cs.
Proof.
  revert cs. induction replies as [|r rs IH]; intros cs; simpl.
  - symmetry. apply filter_all, Forall_forall. intros c _. apply not_elem_of_nil.
  - rewrite IH. unfold Firestore.delete_comment_doc. rewrite list_filter_filter.
    apply list_filter_iff. intros c. rewrite ?fmap_cons, not_elem_of_cons. tauto.
Qed.

(** With distinct identifiers the splices of the file-backed server remove
    the same comments as the document deletions. *)
Lemma fold_splice_docs (replies cs : list Comment.t) :
  NoDup (Comment.id <$> cs) → NoDup (Comment.id <$> replies) → replies ⊆ cs →
  fold_left (λ acc reply, splice1 (findIndex (FileBacked.has_id (Comment.id reply)) acc) acc)
            replies cs
  = fold_left (λ acc doc, Firestore.delete_comment_doc (Comment.id doc) acc) replies cs.
Proof.
  revert cs. induction replies as [|r rs IH]; intros cs Hcs Hrs Hsub; simpl; [done|].
  rewrite fmap_cons in Hrs. apply NoDup_cons in Hrs as [Hr Hrs].
  rewrite splice1_findIndex_id; [|done|].
  2: { apply list_elem_of_fmap_2, Hsub. by constructor. }
  apply IH; [by apply NoDup_fmap_filter|done|].
  intros x Hx. apply list_elem_of_filter. split.
  - intros Heq. apply Hr. rewrite <-Heq. by apply list_elem_of_fmap_2.
  - apply Hsub. by constructor.
Qed.

Lemma firestore_cascade_direct (id : string) (cs : list Comment.t) :
  NoDup (Comment.id <$> cs) → Firestore.cascade id cs = without_direct id cs.
Proof.
  intros Hnd. unfold Firestore.cascade, without_direct.
  rewrite fold_delete_docs. unfold Firestore.delete_comment_doc.
  rewrite list_filter_filter. apply filter_ext_in. intros c Hc.
  split.
  - intros [Hnot Hid]. split; [done|]. intros Hp. apply Hnot.
    apply list_elem_of_fmap_2. apply list_elem_of_filter. split; [done|].
    by apply list_elem_of_filter.
  - intros [Hid Hp]. split; [|done].
    intros (r & Heq & Hr)%list_elem_of_fmap.
    apply list_elem_of_filter in Hr as [Hpr Hr].
    apply list_elem_of_filter in Hr as [_ Hr].
    assert (c = r) as -> by by eapply NoDup_fmap_eq.
    done.
Qed.

Lemma file_cascade_direct (id : string) (cs : list Comment.t) :
  NoDup (Comment.id <$> cs) → id ∈ Comment.id <$> cs →
  FileBacked.cascade id cs = without_direct id cs.
Proof.
  intros Hnd Hid. rewrite <-firestore_cascade_direct by done.
  unfold FileBacked.cascade, Firestore.cascade.
  rewrite splice1_findIndex_id by done.
  apply fold_splice_docs.
  - by apply NoDup_fmap_filter.
  - by apply NoDup_fmap_filter, NoDup_fmap_filter.
  - apply list_subseteq_filter.
Qed.

Lemma js_find_id (id : string) (cs : list Comment.t) (c : Comment.t) :
  NoDup (Comment.id <$> cs) → c ∈ cs → Comment.id c = id →
  js_find (FileBacked.has_id id) cs = Some c.
Proof.
  intros Hnd Hc Hid.
  destruct (js_find (FileBacked.has_id id) cs) as [c'|] eqn:E.
  - apply js_find_Some in E as [Hc' E]. apply has_id_true in E.
    f_equal. eapply NoDup_fmap_eq; eauto. congruence.
  - rewrite js_find_None in E. specialize (E c Hc).
    apply not_true_iff_false in E. by rewrite has_id_true in E.
Qed.

(** C3, as the code has it: deletion takes the comment and its direct
    replies.  When the stored identifiers are distinct and the author
    deletes the comment [id], the request succeeds and the comments left are
    exactly those that neither have the identifier [id] nor have it as
    [parentId]: the comment and its children are gone, every other comment,
    the replies to its children included, stays.  This holds in the
    file-backed and in the Firestore server. *)
Theorem delete_removes_direct_replies
    (user : AuthUser) (id : string) (a a' : Comment.t)
    (st : FileBacked.State) (fs : Firestore.State) :
  NoDup (Comment.id <$> FileBacked.comments st) →
  NoDup (Comment.id <$> Firestore.commentsCollection fs) →
  a ∈ FileBacked.comments st → a' ∈ Firestore.commentsCollection fs →
  Comment.id a = id → Comment.id a' = id →
  Comment.authorId a = au_id user → Comment.authorId a' = au_id user →
  (status (FileBacked.response (FileBacked.deleteComment user id st)) = OK
   ∧ FileBacked.comments (FileBacked.state (FileBacked.deleteComment user id st))
     = without_direct id (FileBacked.comments st))
  ∧ (status (Firestore.response (Firestore.deleteComment user id fs)) = OK
     ∧ Firestore.commentsCollection (Firestore.state (Firestore.deleteComment user id fs))
       = without_direct id (Firestore.commentsCollection fs)).
Proof.
  intros Hst Hfs Ha Ha' Hid Hid' Hau Hau'. split.
  - unfold FileBacked.deleteComment. rewrite (js_find_id id _ a) by done.
    rewrite bool_decide_eq_false_2 by (by intros H). simpl. split; [done|].
    apply file_cascade_direct; [done|]. rewrite <-Hid. by apply list_elem_of_fmap_2.
  - unfold Firestore.deleteComment.
    change (Firestore.has_id id) with (FileBacked.has_id id).
    rewrite (js_find_id id _ a') by done.
    rewrite bool_decide_eq_false_2 by (by intros H). simpl. split; [done|].
    by apply firestore_cascade_direct.
Qed.

Lemma delete_removes_direct_replies_witness :
  FileBacked.comments (FileBacked.state (FileBacked.deleteComment alice "A" file_store_3))
  = without_direct "A" [thread_A; thread_B; thread_C]
  ∧ Firestore.commentsCollection (Firestore.state (Firestore.deleteComment alice "A" firestore_3))
    = without_direct "A" [thread_A; thread_B; thread_C].
Proof.
  assert (NoDup (Comment.id <$> [thread_A; thread_B; thread_C])) as Hnd.
  { apply (bool_decide_unpack _). by vm_compute. }
  destruct (delete_removes_direct_replies alice "A" thread_A thread_A
              file_store_3 firestore_3 Hnd Hnd) as [[_ H1] [_ H2]].
  - by constructor.
  - by constructor.
  - reflexivity.
  - reflexivity.
  - reflexivity.
  - reflexivity.
  - split; [exact H1 | exact H2].
Defined.

(** C3 fails on the code: after alice deletes her comment [A], its reply [B]
    is gone but [C], the reply to [B], is still stored, in either server. *)
Lemma delete_leaves_grandchild :
  FileBacked.comments (FileBacked.state (FileBacked.deleteComment alice "A" file_store_3))
  = [thread_C]
  ∧ Firestore.commentsCollection (Firestore.state (Firestore.deleteComment alice "A" firestore_3))
    = [thread_C]
  ∧ ¬ (thread_C ∉ FileBacked.comments
                     (FileBacked.state (FileBacked.deleteComment alice "A" file_store_3))).
Proof.
  split; [by vm_compute|]. split; [by vm_compute|].
  intros H. apply H. vm_compute. constructor.
Qed.

(** ** Broadcast *)

Lemma io_emit_all (hub : Hub) (es : list Event) (k : Socket) (e : Event) :
  k ∈ hub → e ∈ es → (sid k, e) ∈ deliveries hub es.
Proof.
  intros Hk He. unfold deliveries. apply list_elem_of_bind.
  exists e. split; [|done]. unfold io_emit. by apply (list_elem_of_fmap_2 (λ k, (sid k, e))).
Qed.

Section Broadcast.
Variable unicode_lower : string → string.
Variable render : string → string.
Variable random : nat → string.
Variable autoId : nat → string.

(** C4, as the code has it: [notification] events are broadcast.  Every
    event emitted by [POST /api/comments] (the [notification] events
    included) is delivered to every connected socket, whatever it has
    joined; a [notification] event names its recipient only in its
    payload, as the [userId] of the notification it carries.  This holds
    in the file-backed and in the Firestore server. *)
Theorem notification_broadcast_to_all
    (hub : Hub) (k : Socket) (user : AuthUser) (now : Z)
    (url text parentId : option string)
    (st : FileBacked.State) (fs : Firestore.State) :
  k ∈ hub →
  (∀ e, e ∈ FileBacked.events
              (FileBacked.createComment unicode_lower render random user now url text parentId st) →
        (sid k, e) ∈ deliveries hub
          (FileBacked.events
             (FileBacked.createComment unicode_lower render random user now url text parentId st))
        ∧ (∀ u n, e = EvNotification u n → Notification.userId n = u))
  ∧ (∀ e, e ∈ Firestore.events
                (Firestore.createComment render autoId user now url text parentId fs) →
          (sid k, e) ∈ deliveries hub
            (Firestore.events
               (Firestore.createComment render autoId user now url text parentId fs))
          ∧ (∀ u n, e = EvNotification u n → Notification.userId n = u)).
Proof.
  intros Hk. split; intros e He; (split; [by apply io_emit_all|]); intros u n ->.
  - revert He. unfold FileBacked.createComment.
    destruct url as [url|], text as [text|]; try (by intros ?%elem_of_nil).
    destruct (negb (truthy (Some url) && truthy (Some text)));
      [by intros ?%elem_of_nil|].
    simpl.
    destruct (file_mention_loop unicode_lower random (FileBacked.users st) user now (Date_toString now)
                url (extractMentions text) (FileBacked.notifications st) [])
      as (added & -> & _).
    simpl. rewrite elem_of_app, list_elem_of_fmap, list_elem_of_singleton.
    intros [(m & Hm & _)|Hm]; by simplify_eq.
  - revert He. unfold Firestore.createComment.
    destruct url as [url|], text as [text|]; try (by intros ?%elem_of_nil).
    destruct (negb (truthy (Some url) && truthy (Some text)));
      [by intros ?%elem_of_nil|].
    simpl.
    destruct (firestore_mention_loop autoId (Firestore.usersCollection fs) user now
                (autoId (length (Firestore.commentsCollection fs)))
                url (extractMentions text) (Firestore.notificationsCollection fs) [])
      as (added & payloads & -> & _).
    simpl. rewrite elem_of_app, list_elem_of_fmap, list_elem_of_singleton.
    intros [(m & Hm & _)|Hm]; by simplify_eq.
Qed.

End Broadcast.

Lemma notification_broadcast_to_all_witness :
  ("s_eve", EvNewComment "https://example.org"
              (Comment.mk "1000" "https://example.org" "hi @bob" "hi @bob" None
                 "1" "alice" 1000 None 0 0))
  ∈ deliveries hub_1
      (FileBacked.events
         (FileBacked.createComment (λ s, s) (λ s, s) (λ _, "") alice 1000
            (Some "https://example.org") (Some "hi @bob") None file_store_1)).
Proof.
  apply (notification_broadcast_to_all (λ s, s) (λ s, s) (λ _, "") (λ n, pretty n) hub_1
           {| sid := "s_eve"; rooms := ["https://example.org"] |} alice 1000
           (Some "https://example.org") (Some "hi @bob") None file_store_1 firestore_1).
  - vm_compute. apply list_elem_of_further, list_elem_of_here.
  - vm_compute. apply list_elem_of_further, list_elem_of_here.
Defined.

(** C4 fails on the code: when alice mentions bob, the [notification] event
    for bob (user id 2) is also delivered to the socket [s_eve], which has
    joined only the room of a page and is not subscribed as bob; in either
    server. *)
Lemma notification_reaches_other_socket :
  let out := FileBacked.createComment (λ s, s) (λ s, s) (λ _, "") alice 1000
               (Some "https://example.org") (Some "hi @bob") None file_store_1 in
  let out' := Firestore.createComment (λ s, s) (λ n, pretty n) alice 1000
               (Some "https://example.org") (Some "hi @bob") None firestore_1 in
  ∃ k n n',
    k ∈ hub_1 ∧ sid k = "s_eve" ∧ ¬ subscribed_as "2" k
    ∧ (sid k, EvNotification "2" n) ∈ deliveries hub_1 (FileBacked.events out)
    ∧ (sid k, EvNotification "2" n') ∈ deliveries hub_1 (Firestore.events out').
Proof.
  eexists {| sid := "s_eve"; rooms := ["https://example.org"] |}, _, _.
  split; [vm_compute; apply list_elem_of_further, list_elem_of_here|].
  split; [done|]. split.
  { unfold subscribed_as. simpl. by intros ?%list_elem_of_singleton. }
  split; vm_compute; apply list_elem_of_further, list_elem_of_here.
Qed.

(** ** The comment tree builder *)

(** *** Heap operations *)

Lemma load_obj_eq (h : heap) (l : loc) (c : Comment.t) (r : option (list loc)) :
  h !! l = Some (CObj c r) → load_obj l h = Some ((c, r), h).
Proof. intros H. unfold load_obj, load, mbind, M_bind. by rewrite H. Qed.

Lemma load_arr_eq (h : heap) (l : loc) (elts : list loc) :
  h !! l = Some (CArr elts) → load_arr l h = Some (elts, h).
Proof. intros H. unfold load_arr, load, mbind, M_bind. by rewrite H. Qed.

Lemma push_eq (h : heap) (arr x : loc) (elts : list loc) :
  h !! arr = Some (CArr elts) →
  push arr x h = Some (tt, <[arr := CArr (elts ++ [x])]> h).
Proof.
  intros H. unfold push, mbind, M_bind. rewrite (load_arr_eq _ _ _ H).
  unfold store. rewrite decide_True; [done|]. by eapply lookup_lt_Some.
Qed.

Lemma push_reply_eq (h : heap) (node x : loc) (c : Comment.t) (kids : list loc) :
  h !! node = Some (CObj c (Some kids)) →
  push_reply node x h = Some (tt, <[node := CObj c (Some (kids ++ [x]))]> h).
Proof.
  intros H. unfold push_reply, mbind, M_bind. rewrite (load_obj_eq _ _ _ _ H). simpl.
  unfold store. rewrite decide_True; [done|]. by eapply lookup_lt_Some.
Qed.

(** *** The first pass *)

Lemma holds_comments_length (h : heap) (elts : list loc) (cs : list Comment.t) :
  holds_comments h elts cs → length elts = length cs.
Proof. apply Forall2_length. Qed.

Lemma forEach_set_node (h0 : heap) (elts : list loc) (cs : list Comment.t) :
  holds_comments h0 elts cs →
  ∀ (ext : heap) (m : gmap string loc),
    forEach set_node elts m (h0 ++ ext)
    = Some (node_map (length (h0 ++ ext)) cs m,
            h0 ++ ext ++ ((λ c, CObj c (Some [])) <$> cs)).
Proof.
  induction 1 as [|l c elts cs [r Hl] _ IH]; intros ext m; simpl.
  - by rewrite app_nil_r.
  - unfold mbind, M_bind, set_node at 1.
    unfold mbind, M_bind.
    rewrite (load_obj_eq (h0 ++ ext) l c r) by (by apply lookup_app_l_Some).
    simpl. unfold mret, M_ret.
    rewrite <-(assoc_L (++)), IH. f_equal. f_equal.
    + by rewrite !length_app, Nat.add_1_r, Nat.add_succ_r.
    + by rewrite <-!(assoc_L (++)).
Qed.

(** *** The second pass *)

Lemma insert_imap {A B} (f g : nat → A → B) (l : list A) (i : nat) (c : A) (x : B) :
  l !! i = Some c → g i c = x →
  (∀ j y, l !! j = Some y → j ≠ i → g j y = f j y) →
  <[i := x]> (imap f l) = imap g l.
Proof.
  intros Hi Hx Hother. apply list_eq. intros j.
  destruct (decide (j = i)) as [->|Hne].
  - rewrite list_lookup_insert_eq by (rewrite length_imap; by eapply lookup_lt_Some).
    rewrite list_lookup_imap, Hi. simpl. by rewrite Hx.
  - rewrite list_lookup_insert_ne by done. rewrite !list_lookup_imap.
    destruct (l !! j) as [y|] eqn:E; simpl; [|done]. f_equal. symmetry. by apply Hother.
Qed.

Lemma built_heap_old (h0 : heap) m cs pre (l : loc) (x : cell) :
  h0 !! l = Some x → built_heap h0 m cs pre !! l = Some x.
Proof. apply lookup_app_l_Some. Qed.

Lemma built_heap_roots (h0 : heap) m cs pre :
  built_heap h0 m cs pre !! length h0 = Some (CArr (roots_of m pre)).
Proof. unfold built_heap. by apply list_lookup_middle. Qed.

Lemma built_heap_node (h0 : heap) m cs pre (i : nat) (c : Comment.t) :
  cs !! i = Some c →
  built_heap h0 m cs pre !! (S (length h0) + i)
  = Some (CObj c (Some (kids_of m (S (length h0) + i) pre))).
Proof.
  intros Hi. unfold built_heap. rewrite lookup_app_r by lia.
  replace (S (length h0) + i - length h0) with (S i) by lia. simpl.
  by rewrite list_lookup_imap, Hi.
Qed.

Lemma length_built_heap (h0 : heap) m cs pre :
  length (built_heap h0 m cs pre) = S (length h0 + length cs).
Proof. unfold built_heap. rewrite length_app. simpl. rewrite length_imap. lia. Qed.

Lemma roots_of_snoc m pre (c : Comment.t) :
  roots_of m (pre ++ [c])
  = roots_of m pre
    ++ (if truthy (Comment.parentId c) then [] else option_list (m !! Comment.id c)).
Proof.
  unfold roots_of. rewrite omap_app. f_equal. simpl.
  destruct (truthy (Comment.parentId c)); [done|]. by destruct (m !! Comment.id c).
Qed.

Lemma kids_of_snoc m (a : loc) pre (c : Comment.t) :
  kids_of m a (pre ++ [c])
  = kids_of m a pre
    ++ (if truthy (Comment.parentId c)
           && bool_decide (Comment.parentId c ≫= (m !!.) = Some a)
        then option_list (m !! Comment.id c) else []).
Proof.
  unfold kids_of. rewrite omap_app. f_equal. simpl.
  destruct (truthy (Comment.parentId c) && _); [|done]. by destruct (m !! Comment.id c).
Qed.

Lemma link_node_step (h0 : heap) m cs pre (l : loc) (c : Comment.t) r :
  h0 !! l = Some (CObj c r) →
  map_in_range h0 cs m →
  is_Some (m !! Comment.id c) →
  link_node m (length h0) tt l (built_heap h0 m cs pre)
  = Some (tt, built_heap h0 m cs (pre ++ [c])).
Proof.
  intros Hl Hrange [node Hnode].
  unfold link_node, mbind, M_bind.
  rewrite (load_obj_eq _ l c r) by (by apply built_heap_old). cbn [fst snd].
  unfold get_node. rewrite Hnode. unfold mret, M_ret.
  destruct (truthy (Comment.parentId c)) eqn:Ht.
  - destruct (option_bind _ _ _ (Comment.parentId c)) as [pa|] eqn:Hp;
      [change (Comment.parentId c ≫= (m !!.) = Some pa) in Hp
      |change (Comment.parentId c ≫= (m !!.) = None) in Hp].
    + assert (∃ k, m !! k = Some pa) as [k Hk].
      { destruct (Comment.parentId c) as [s|]; [by exists s | done]. }
      destruct (Hrange _ _ Hk) as (i & -> & Hi).
      destruct (lookup_lt_is_Some_2 cs i Hi) as [ci Hci].
      rewrite (push_reply_eq _ _ _ ci _ (built_heap_node h0 m cs pre i ci Hci)).
      do 2 f_equal. unfold built_heap.
      rewrite insert_app_r_alt by lia.
      replace (S (length h0) + i - length h0) with (S i) by lia. simpl.
      rewrite roots_of_snoc, Ht, app_nil_r. do 2 f_equal.
      apply (insert_imap _ _ _ _ ci); [done| |].
      * rewrite kids_of_snoc, Ht, Hp, Hnode. simpl.
        by rewrite bool_decide_eq_true_2.
      * intros j y Hj Hne. rewrite kids_of_snoc, Ht, Hp. simpl.
        rewrite bool_decide_eq_false_2, app_nil_r; [done|].
        intros [= ?]. lia.
    + do 2 f_equal. unfold built_heap. rewrite roots_of_snoc, Ht, app_nil_r.
      do 2 f_equal. apply imap_ext. intros j y Hj.
      rewrite kids_of_snoc, Ht, Hp. simpl. by rewrite app_nil_r.
  - rewrite (push_eq _ _ _ _ (built_heap_roots h0 m cs pre)).
    do 2 f_equal. unfold built_heap.
    rewrite insert_app_r_alt by lia. rewrite Nat.sub_diag. simpl.
    rewrite roots_of_snoc, Ht, Hnode. simpl. do 2 f_equal.
    apply imap_ext. intros j y Hj. rewrite kids_of_snoc, Ht. simpl.
    by rewrite app_nil_r.
Qed.

Lemma forEach_link_node (h0 : heap) m cs (elts : list loc) (post : list Comment.t) :
  holds_comments h0 elts post →
  map_in_range h0 cs m →
  (∀ c, c ∈ post → is_Some (m !! Comment.id c)) →
  ∀ pre, forEach (link_node m (length h0)) elts tt (built_heap h0 m cs pre)
         = Some (tt, built_heap h0 m cs (pre ++ post)).
Proof.
  intros Hpost Hrange.
  induction Hpost as [|l c elts post [r Hl] _ IH]; intros Hdom pre; simpl.
  - by rewrite app_nil_r.
  - unfold mbind, M_bind.
    rewrite (link_node_step h0 m cs pre l c r Hl Hrange) by (apply Hdom; by constructor).
    rewrite IH by (intros c' Hc'; apply Hdom; by constructor).
    by rewrite <-(assoc_L (++)).
Qed.

(** *** The [Map] of the first pass *)

Lemma node_map_notin (b : loc) (cs : list Comment.t) (m : gmap string loc) (k : string) :
  k ∉ Comment.id <$> cs → node_map b cs m !! k = m !! k.
Proof.
  revert b m. induction cs as [|c cs IH]; intros b m Hk; simpl; [done|].
  rewrite fmap_cons in Hk. apply not_elem_of_cons in Hk as [Hne Hk].
  rewrite IH by done. by rewrite lookup_insert_ne.
Qed.

Lemma node_map_lookup (b : loc) (cs : list Comment.t) (m : gmap string loc)
    (k : string) (a : loc) :
  node_map b cs m !! k = Some a →
  (∃ i c, cs !! i = Some c ∧ Comment.id c = k ∧ a = b + i) ∨ m !! k = Some a.
Proof.
  revert b m. induction cs as [|c cs IH]; intros b m H; simpl in *; [by right|].
  apply IH in H as [(i & c' & Hi & Hid & ->)|H].
  - left. exists (S i), c'. split; [done|]. split; [done|]. lia.
  - destruct (decide (Comment.id c = k)) as [Heq|Hne].
    + rewrite Heq, lookup_insert_eq in H. left. exists 0, c.
      split; [done|]. split; [done|]. injection H as <-. lia.
    + rewrite lookup_insert_ne in H by done. by right.
Qed.

Lemma node_map_dom (b : loc) (cs : list Comment.t) (m : gmap string loc) (k : string) :
  k ∈ Comment.id <$> cs → is_Some (node_map b cs m !! k).
Proof.
  revert b m. induction cs as [|x cs IH]; intros b m Hk; [by apply elem_of_nil in Hk|].
  simpl. rewrite fmap_cons in Hk.
  destruct (decide (k ∈ Comment.id <$> cs)) as [Hin|Hout]; [by apply IH|].
  rewrite node_map_notin by done.
  apply elem_of_cons in Hk as [->|Hk]; [|done].
  rewrite lookup_insert_eq. by eexists.
Qed.

Lemma node_map_NoDup (b : loc) (cs : list Comment.t) (m : gmap string loc)
    (i : nat) (c : Comment.t) :
  NoDup (Comment.id <$> cs) → cs !! i = Some c →
  node_map b cs m !! Comment.id c = Some (b + i).
Proof.
  revert b m i. induction cs as [|x cs IH]; intros b m i Hnd Hi; [done|].
  rewrite fmap_cons in Hnd. apply NoDup_cons in Hnd as [Hx Hnd].
  destruct i as [|i]; simpl in *.
  - injection Hi as ->. rewrite node_map_notin by done.
    rewrite lookup_insert_eq. f_equal. lia.
  - rewrite (IH (S b) _ i) by done. f_equal. lia.
Qed.

Lemma node_map_in_range (h0 : heap) (cs : list Comment.t) :
  map_in_range h0 cs (node_map (S (length h0)) cs ∅).
Proof.
  intros k a H. apply node_map_lookup in H as [(i & c & Hi & _ & ->)|H]; [|done].
  exists i. split; [done|]. by eapply lookup_lt_Some.
Qed.

(** *** The heap the builder leaves *)

Lemma built_heap_nil (h0 : heap) m cs :
  built_heap h0 m cs [] = h0 ++ [CArr []] ++ ((λ c, CObj c (Some [])) <$> cs).
Proof.
  unfold built_heap. simpl. do 2 f_equal.
  apply list_eq. intros i. by rewrite list_lookup_imap, list_lookup_fmap.
Qed.

(** On an input array of comment objects the builder returns; its result
    is the address of the new array [rootComments], and the heap is the
    old one followed by that array and by one node per comment. *)
Lemma buildCommentTree_built (h : heap) (arr : loc) (elts : list loc) (cs : list Comment.t) :
  h !! arr = Some (CArr elts) →
  holds_comments h elts cs →
  buildCommentTree arr h
  = Some (length h, built_heap h (node_map (S (length h)) cs ∅) cs cs).
Proof.
  intros Harr Hcs. unfold buildCommentTree, mbind, M_bind, alloc.
  rewrite (load_arr_eq _ _ elts) by (by apply lookup_app_l_Some).
  rewrite (forEach_set_node h elts cs Hcs [CArr []] ∅).
  replace (length (h ++ [CArr []])) with (S (length h))
    by (rewrite length_app; simpl; lia).
  rewrite <-(built_heap_nil h (node_map (S (length h)) cs ∅) cs).
  rewrite (forEach_link_node h _ cs elts cs Hcs (node_map_in_range h cs)).
  - done.
  - intros c Hc. by apply node_map_dom, list_elem_of_fmap_2.
Qed.

Lemma roots_of_range (h0 : heap) (cs pre : list Comment.t) m :
  map_in_range h0 cs m →
  Forall (λ a, length h0 < a < S (length h0 + length cs)) (roots_of m pre).
Proof.
  intros Hrange. apply Forall_forall. intros a Ha.
  apply list_elem_of_omap in Ha as (c & _ & Ha).
  destruct (truthy (Comment.parentId c)); [done|].
  apply Hrange in Ha as (i & -> & Hi). lia.
Qed.

Lemma kids_of_range (h0 : heap) (cs pre : list Comment.t) m (p : loc) :
  map_in_range h0 cs m →
  Forall (λ a, length h0 < a < S (length h0 + length cs)) (kids_of m p pre).
Proof.
  intros Hrange. apply Forall_forall. intros a Ha.
  apply list_elem_of_omap in Ha as (c & _ & Ha).
  destruct (truthy (Comment.parentId c) && _); [|done].
  apply Hrange in Ha as (i & -> & Hi). lia.
Qed.

(** C10: building the tree does not touch its input.  On a heap [h] holding
    the input array and its comment objects, [buildCommentTree] returns, and
    in the heap it leaves every address of [h] (the input array, every input
    comment, anything else) holds what it held before; the result is a new
    array whose elements are new objects; and there is one new object per
    input comment, carrying the fields of that comment and a [replies] list
    that refers to new objects only. *)
Theorem buildCommentTree_preserves_input
    (h : heap) (arr : loc) (elts : list loc) (cs : list Comment.t) :
  h !! arr = Some (CArr elts) →
  holds_comments h elts cs →
  ∃ h' roots,
    buildCommentTree arr h = Some (length h, h')
    ∧ (∀ l x, h !! l = Some x → h' !! l = Some x)
    ∧ take (length h) h' = h
    ∧ h' !! arr = Some (CArr elts)
    ∧ holds_comments h' elts cs
    ∧ length h' = S (length h + length cs)
    ∧ h' !! length h = Some (CArr roots)
    ∧ Forall (λ a, length h < a < length h') roots
    ∧ (∀ i c, cs !! i = Some c →
         ∃ replies, h' !! (S (length h) + i) = Some (CObj c (Some replies))
                    ∧ Forall (λ a, length h < a < length h') replies).
Proof.
  intros Harr Hcs.
  set (m := node_map (S (length h)) cs ∅).
  exists (built_heap h m cs cs), (roots_of m cs).
  split; [by apply (buildCommentTree_built h arr elts cs)|].
  split; [intros l x; apply built_heap_old|].
  split; [unfold built_heap; by rewrite take_app_length|].
  split; [by apply built_heap_old|].
  split.
  { eapply Forall2_impl; [exact Hcs|]. intros l c [r Hl]. exists r. by apply built_heap_old. }
  split; [apply length_built_heap|].
  split; [apply built_heap_roots|].
  rewrite length_built_heap.
  split; [apply roots_of_range, node_map_in_range|].
  intros i c Hi. eexists. split; [by apply built_heap_node|].
  apply kids_of_range, node_map_in_range.
Qed.

Lemma buildCommentTree_preserves_input_witness :
  ∃ h', buildCommentTree 3 (heap_of [thread_A; thread_B; thread_C]) = Some (4, h')
        ∧ take 4 h' = heap_of [thread_A; thread_B; thread_C].
Proof.
  destruct (buildCommentTree_preserves_input (heap_of [thread_A; thread_B; thread_C]) 3
              [0; 1; 2] [thread_A; thread_B; thread_C])
    as (h' & rs & H1 & _ & H2 & _).
  - reflexivity.
  - unfold holds_comments. repeat (constructor; [by eexists|]). constructor.
  - exists h'. split; [exact H1 | exact H2].
Defined.

(** *** The forest, read back from the heap *)

Lemma mapM_omap_filter {A B C} (g : B → option C) (g' : A → option C)
    (F : A → option B) (P : A → Prop) `{!∀ x, Decision (P x)} (l : list A) :
  (∀ x, x ∈ l → if decide (P x) then ∃ a, F x = Some a ∧ g a = g' x else F x = None) →
  mapM g (omap F l) = mapM g' (filter P l).
Proof.
  induction l as [|x l IH]; intros Hl; [done|].
  rewrite filter_cons.
  pose proof (Hl x ltac:(by constructor)) as Hx.
  assert (mapM g (omap F l) = mapM g' (filter P l)) as IH'
    by (apply IH; intros y Hy; apply Hl; by constructor).
  destruct (decide (P x)) as [HP|HP].
  - destruct Hx as (a & HF & Hga). simpl. rewrite HF. simpl.
    change (list_omap _ _ F l) with (omap F l). by rewrite Hga, IH'.
  - simpl. rewrite Hx. exact IH'.
Qed.

Section ReadBack.
Variable h0 : heap.
Variable cs : list Comment.t.
Hypothesis ids_distinct : NoDup (Comment.id <$> cs).

Let m : gmap string loc := node_map (S (length h0)) cs ∅.
Let H : heap := built_heap h0 m cs cs.

Lemma m_lookup (i : nat) (c : Comment.t) :
  cs !! i = Some c → m !! Comment.id c = Some (S (length h0) + i).
Proof. intros Hi. by apply node_map_NoDup. Qed.

Lemma m_lookup_inv (k : string) (i : nat) (c : Comment.t) :
  cs !! i = Some c → m !! k = Some (S (length h0) + i) → k = Comment.id c.
Proof.
  intros Hi Hk. apply node_map_lookup in Hk as [(i' & c' & Hi' & Hid & Heq)|Hk]; [|done].
  assert (i' = i) as -> by lia. congruence.
Qed.

Lemma unfold_tree_of (fuel i : nat) (a : loc) (c : Comment.t) :
  cs !! i = Some c → a = S (length h0) + i → unfold fuel H a = tree_of fuel cs c.
Proof.
  revert i a c. induction fuel as [|fuel IH]; intros i a c Hi ->; [done|].
  cbn [unfold tree_of]. unfold H at 1. rewrite (built_heap_node h0 m cs cs i c Hi).
  f_equal. unfold kids_of, children.
  apply mapM_omap_filter. intros x Hx.
  apply list_elem_of_lookup in Hx as [j Hj].
  destruct (decide _) as [[Ht Hp]|Hn].
  - exists (S (length h0) + j). rewrite Ht, Hp. simpl.
    rewrite (m_lookup i c Hi), bool_decide_eq_true_2 by done.
    split; [by apply m_lookup | by apply (IH j)].
  - destruct (truthy (Comment.parentId x)) eqn:Ht; [|done]. simpl.
    rewrite bool_decide_eq_false_2; [done|].
    intros Hp. apply Hn. split; [done|].
    destruct (Comment.parentId x) as [p|]; [|done]. simpl in Hp.
    f_equal. by eapply m_lookup_inv.
Qed.

Lemma unfold_roots (fuel : nat) :
  mapM (unfold fuel H) (roots_of m cs) = mapM (tree_of fuel cs) (roots cs).
Proof.
  unfold roots_of, roots. apply mapM_omap_filter. intros x Hx.
  apply list_elem_of_lookup in Hx as [j Hj].
  destruct (decide _) as [Ht|Hn].
  - rewrite Ht. exists (S (length h0) + j).
    split; [by apply m_lookup | by apply (unfold_tree_of fuel j)].
  - by destruct (truthy (Comment.parentId x)).
Qed.

End ReadBack.

Lemma heap_of_holds (cs : list Comment.t) :
  heap_of cs !! length cs = Some (CArr (seq 0 (length cs)))
  ∧ holds_comments (heap_of cs) (seq 0 (length cs)) cs
  ∧ length (heap_of cs) = S (length cs).
Proof.
  unfold heap_of. split; [|split].
  - rewrite <-(length_fmap (λ c, CObj c None)) at 1. by apply list_lookup_middle.
  - apply Forall2_same_length_lookup. split; [by rewrite length_seq|].
    intros i l c Hl Hc. apply lookup_seq in Hl as [-> _]. exists None.
    apply lookup_app_l_Some. simpl. by rewrite list_lookup_fmap, Hc.
  - rewrite length_app, length_fmap. simpl. lia.
Qed.

(** With distinct identifiers the builder produces the forest of the page:
    the comments without parent, each with the comments that name it as
    parent, recursively. *)
Lemma commentTree_forest (cs : list Comment.t) :
  NoDup (Comment.id <$> cs) → commentTree cs = forest_of cs.
Proof.
  intros Hnd. unfold commentTree, forest_of.
  destruct (heap_of_holds cs) as (Harr & Hcs & Hlen).
  rewrite (buildCommentTree_built _ _ _ _ Harr Hcs).
  unfold unfold_forest. rewrite built_heap_roots.
  by apply unfold_roots.
Qed.

(** *** Counting the forest *)

Lemma sum_list_with_Forall2 {A B} (f : A → nat) (g : B → nat) (l : list A) (k : list B) :
  Forall2 (λ x y, f x = g y) l k → sum_list_with f l = sum_list_with g k.
Proof. induction 1 as [|x y l k Hxy _ IH]; simpl; [done|]. by rewrite Hxy, IH. Qed.

Lemma sum_list_with_bind {A B} (g : B → nat) (h : A → list B) (l : list A) :
  sum_list_with g (l ≫= h) = sum_list_with (λ x, sum_list_with g (h x)) l.
Proof.
  induction l as [|x l IH]; [done|].
  rewrite bind_cons, sum_list_with_app, IH. done.
Qed.

Lemma sum_list_with_S {A} (g : A → nat) (l : list A) :
  sum_list_with (λ x, S (g x)) l = length l + sum_list_with g l.
Proof. induction l as [|x l IH]; simpl; [done|]. rewrite IH. lia. Qed.

Lemma sum_list_with_seq_S (g : nat → nat) (n : nat) :
  sum_list_with g (seq 0 (S n)) = g 0 + sum_list_with (λ j, g (S j)) (seq 0 n).
Proof.
  simpl. f_equal. rewrite <-fmap_S_seq.
  generalize (seq 0 n). intros l. induction l as [|x l IH]; [done|].
  rewrite fmap_cons. simpl. f_equal. exact IH.
Qed.

Lemma tree_of_size (fuel : nat) (cs : list Comment.t) (c : Comment.t) (t : Tree) :
  tree_of fuel cs c = Some t → tree_size t = size_below fuel cs c.
Proof.
  revert c t. induction fuel as [|fuel IH]; intros c t Ht; [done|].
  simpl in Ht. apply fmap_Some in Ht as (ts & Hts & ->).
  simpl. f_equal. apply mapM_Some in Hts. symmetry.
  apply sum_list_with_Forall2.
  eapply Forall2_impl; [exact Hts|]. intros x y Hxy. simpl. symmetry. by apply IH.
Qed.

Lemma forest_size_below (fuel : nat) (cs l : list Comment.t) (ts : list Tree) :
  mapM (tree_of fuel cs) l = Some ts →
  forest_size ts = sum_list_with (size_below fuel cs) l.
Proof.
  intros Hts. apply mapM_Some in Hts. symmetry. apply sum_list_with_Forall2.
  eapply Forall2_impl; [exact Hts|]. intros x y Hxy. simpl. symmetry. by apply tree_of_size.
Qed.

(** The cut size of a whole level is the number of comments on that level
    and on the levels below, as far as the cut reaches. *)
Lemma size_below_levels (fuel : nat) (cs : list Comment.t) (d : nat) :
  sum_list_with (size_below fuel cs) (level cs d)
  = sum_list_with (λ j, length (level cs (d + j))) (seq 0 fuel).
Proof.
  revert d. induction fuel as [|fuel IH]; intros d.
  - simpl. induction (level cs d) as [|x l IHl]; simpl; [done|]. by rewrite IHl.
  - rewrite sum_list_with_seq_S. rewrite Nat.add_0_r.
    cbn [size_below]. rewrite sum_list_with_S. f_equal.
    rewrite <-sum_list_with_bind. change (level cs d ≫= children cs) with (level cs (S d)).
    rewrite IH. apply sum_list_with_Forall2, Forall2_same_length_lookup.
    split; [done|]. intros i x y Hx Hy. assert (x = y) as -> by congruence.
    by rewrite Nat.add_succ_r.
Qed.

(** Once a level is empty, trees of the levels above it are read back in
    full. *)
Lemma tree_of_total (fuel : nat) (cs : list Comment.t) (d : nat) (c : Comment.t) :
  level cs (d + fuel) = [] → c ∈ level cs d → is_Some (tree_of fuel cs c).
Proof.
  revert d c. induction fuel as [|fuel IH]; intros d c Hempty Hc.
  - rewrite Nat.add_0_r in Hempty. rewrite Hempty in Hc. by apply elem_of_nil in Hc.
  - simpl. apply fmap_is_Some, mapM_is_Some_2, Forall_forall.
    intros x Hx. simpl. apply (IH (S d)).
    + by rewrite Nat.add_succ_comm.
    + simpl. apply list_elem_of_bind. by exists c.
Qed.

(** *** Levels *)

Lemma roots_elem (cs : list Comment.t) (c : Comment.t) :
  c ∈ roots cs ↔ truthy (Comment.parentId c) = false ∧ c ∈ cs.
Proof. unfold roots. by rewrite list_elem_of_filter. Qed.

Lemma children_elem (cs : list Comment.t) (p c : Comment.t) :
  c ∈ children cs p ↔
  (truthy (Comment.parentId c) = true ∧ Comment.parentId c = Some (Comment.id p)) ∧ c ∈ cs.
Proof. unfold children. by rewrite list_elem_of_filter. Qed.

Lemma level_S_elem (cs : list Comment.t) (d : nat) (c : Comment.t) :
  c ∈ level cs (S d) ↔ ∃ p, c ∈ children cs p ∧ p ∈ level cs d.
Proof. simpl. apply list_elem_of_bind. Qed.

Lemma level_in (cs : list Comment.t) (d : nat) (c : Comment.t) :
  c ∈ level cs d → c ∈ cs.
Proof.
  destruct d as [|d].
  - by intros [_ ?]%roots_elem.
  - intros (p & [_ ?]%children_elem & _)%level_S_elem. done.
Qed.

Lemma level_empty_mono (cs : list Comment.t) (d k : nat) :
  level cs d = [] → level cs (d + k) = [].
Proof.
  intros Hd. induction k as [|k IH]; [by rewrite Nat.add_0_r|].
  rewrite Nat.add_succ_r. simpl. by rewrite IH.
Qed.

Lemma length_bind {A B} (h : A → list B) (l : list A) :
  length (l ≫= h) = sum_list_with (λ x, length (h x)) l.
Proof.
  induction l as [|x l IH]; [done|]. rewrite bind_cons, length_app, IH. done.
Qed.

Lemma levels_upto_S (cs : list Comment.t) (f : nat) :
  levels_upto cs (S f) = levels_upto cs f ++ level cs f.
Proof.
  unfold levels_upto. rewrite seq_S, bind_app. f_equal. simpl. by rewrite app_nil_r.
Qed.

Lemma levels_upto_elem (cs : list Comment.t) (f : nat) (c : Comment.t) :
  c ∈ levels_upto cs f ↔ ∃ d, d < f ∧ c ∈ level cs d.
Proof.
  unfold levels_upto. rewrite list_elem_of_bind. split.
  - intros (d & Hc & Hd). apply elem_of_seq in Hd. exists d. split; [lia|done].
  - intros (d & Hd & Hc). exists d. split; [done|]. apply elem_of_seq. lia.
Qed.

Lemma levels_nonempty_length (cs : list Comment.t) (f : nat) :
  (∀ j, j < f → level cs j ≠ []) → f ≤ length (levels_upto cs f).
Proof.
  induction f as [|f IH]; intros Hne; [lia|].
  rewrite levels_upto_S, length_app.
  specialize (IH ltac:(intros j Hj; apply Hne; lia)).
  specialize (Hne f ltac:(lia)). destruct (level cs f); [done|]. simpl. lia.
Qed.

Section Levels.
Variable cs : list Comment.t.
Hypothesis ids_distinct : NoDup (Comment.id <$> cs).

Lemma level_unique (d d' : nat) (c : Comment.t) :
  c ∈ level cs d → c ∈ level cs d' → d = d'.
Proof.
  revert d' c. induction d as [|d IH]; intros [|d'] c Hd Hd'; [done| | |].
  - apply roots_elem in Hd as [Hf _].
    apply level_S_elem in Hd' as (p & [[Ht _] _]%children_elem & _). congruence.
  - apply roots_elem in Hd' as [Hf _].
    apply level_S_elem in Hd as (p & [[Ht _] _]%children_elem & _). congruence.
  - apply level_S_elem in Hd as (p & [[_ Hp] _]%children_elem & Hpd).
    apply level_S_elem in Hd' as (p' & [[_ Hp'] _]%children_elem & Hpd').
    assert (p = p') as <-.
    { eapply NoDup_fmap_eq; [exact ids_distinct|by eapply level_in..|congruence]. }
    f_equal. by eapply IH.
Qed.

Lemma NoDup_cs : NoDup cs.
Proof. by eapply NoDup_fmap_1. Qed.

Lemma NoDup_level (d : nat) : NoDup (level cs d).
Proof.
  induction d as [|d IH]; simpl.
  - apply NoDup_filter, NoDup_cs.
  - apply NoDup_bind; [|intros; apply NoDup_filter, NoDup_cs|done].
    intros p p' c Hp Hp' [[_ Hc] _]%children_elem [[_ Hc'] _]%children_elem.
    eapply NoDup_fmap_eq; [exact ids_distinct|by eapply level_in..|congruence].
Qed.

Lemma NoDup_levels_upto (f : nat) : NoDup (levels_upto cs f).
Proof.
  induction f as [|f IH]; [constructor|].
  rewrite levels_upto_S. apply NoDup_app. split; [done|]. split; [|apply NoDup_level].
  intros c (d & Hd & Hc)%levels_upto_elem Hc'.
  pose proof (level_unique _ _ _ Hc Hc'). lia.
Qed.

Lemma level_length_empty : level cs (length cs) = [].
Proof.
  destruct (level cs (length cs)) as [|x l] eqn:E; [done|]. exfalso.
  assert (S (length cs) ≤ length (levels_upto cs (S (length cs)))) as Hge.
  { apply levels_nonempty_length. intros j Hj Hempty.
    apply (level_empty_mono cs j (length cs - j)) in Hempty.
    replace (j + (length cs - j)) with (length cs) in Hempty by lia. congruence. }
  assert (length (levels_upto cs (S (length cs))) ≤ length cs) as Hle.
  { apply submseteq_length, NoDup_submseteq; [apply NoDup_levels_upto|].
    intros c (d & _ & Hc)%levels_upto_elem. by eapply level_in. }
  lia.
Qed.

Lemma level_depth_bound (d : nat) (c : Comment.t) : c ∈ level cs d → d < length cs.
Proof.
  intros Hc. destruct (decide (d < length cs)) as [|Hge]; [done|]. exfalso.
  pose proof (level_empty_mono cs (length cs) (d - length cs) level_length_empty) as He.
  replace (length cs + (d - length cs)) with d in He by lia.
  rewrite He in Hc. by apply elem_of_nil in Hc.
Qed.

Lemma parent_in_child (p c : Comment.t) :
  p ∈ cs → Comment.parentId c = Some (Comment.id p) → parent_in cs c = Some p.
Proof.
  intros Hp Hc. unfold parent_in. rewrite Hc. simpl.
  change has_id with FileBacked.has_id. by apply js_find_id.
Qed.

Lemma rooted_level (fuel : nat) (c : Comment.t) :
  c ∈ cs → rooted fuel cs c = true ↔ ∃ d, d ≤ fuel ∧ c ∈ level cs d.
Proof.
  revert c. induction fuel as [|fuel IH]; intros c Hc.
  - simpl. destruct (truthy (Comment.parentId c)) eqn:Ht; split; try done.
    + intros (d & Hd & Hl). assert (d = 0) as -> by lia.
      apply roots_elem in Hl as [? _]. congruence.
    + intros _. exists 0. split; [done|]. by apply roots_elem.
  - simpl. destruct (truthy (Comment.parentId c)) eqn:Ht.
    + split.
      * destruct (parent_in cs c) as [p|] eqn:Hp; [|done]. intros Hr.
        unfold parent_in in Hp. destruct (Comment.parentId c) as [k|] eqn:Hk; [|done].
        simpl in Hp. apply js_find_Some in Hp as [Hin Hid].
        apply has_id_true in Hid.
        apply IH in Hr as (d & Hd & Hl); [|done].
        exists (S d). split; [lia|]. apply level_S_elem. exists p. split; [|done].
        apply children_elem. rewrite Hk, Ht, Hid. done.
      * intros ([|d] & Hd & Hl).
        { apply roots_elem in Hl as [? _]. congruence. }
        apply level_S_elem in Hl as (p & [[_ Hp] _]%children_elem & Hl).
        rewrite (parent_in_child p c) by (by eapply level_in || done).
        apply IH; [by eapply level_in|]. exists d. split; [lia|done].
    + split; [|done]. intros _. exists 0. split; [lia|]. by apply roots_elem.
Qed.

(** The fuel [length cs] is enough for [rooted]: more fuel finds no more
    comments. *)
Lemma rooted_fuel_enough (fuel : nat) (c : Comment.t) :
  c ∈ cs → rooted fuel cs c = true → rooted (length cs) cs c = true.
Proof.
  intros Hc Hr. apply rooted_level in Hr as (d & _ & Hl); [|done].
  apply rooted_level; [done|]. exists d. split; [|done].
  pose proof (level_depth_bound d c Hl). lia.
Qed.

Lemma rooted_count :
  length (filter (λ c, rooted (length cs) cs c = true) cs)
  = length (levels_upto cs (S (length cs))).
Proof.
  apply Permutation_length, NoDup_Permutation.
  - apply NoDup_filter, NoDup_cs.
  - apply NoDup_levels_upto.
  - intros c. rewrite list_elem_of_filter, levels_upto_elem. split.
    + intros [Hr Hc]. apply rooted_level in Hr as (d & Hd & Hl); [|done].
      exists d. split; [lia|done].
    + intros (d & Hd & Hl). pose proof (level_in _ _ _ Hl) as Hc. split; [|done].
      apply rooted_level; [done|]. exists d. split; [lia|done].
Qed.

Lemma tree_of_comments (fuel d : nat) (c : Comment.t) (t : Tree) :
  tree_of fuel cs c = Some t → c ∈ level cs d →
  tree_root t = c ∧ ∀ x, x ∈ tree_comments t → ∃ d', x ∈ level cs d'.
Proof.
  revert d c t. induction fuel as [|fuel IH]; intros d c t Ht Hc; [done|].
  simpl in Ht. apply fmap_Some in Ht as (ts & Hts & ->). split; [done|].
  intros x Hx. simpl in Hx. apply elem_of_cons in Hx as [->|Hx]; [by exists d|].
  apply list_elem_of_bind in Hx as (t' & Hx & Ht').
  apply mapM_Some in Hts.
  apply list_elem_of_lookup in Ht' as [i Hi].
  destruct (Forall2_lookup_r _ _ _ _ _ Hts Hi) as (k & Hk & Hkt).
  apply (IH (S d) k t' Hkt); [|done].
  apply level_S_elem. exists c. split; [|done]. by eapply list_elem_of_lookup_2.
Qed.

End Levels.

(** C5, as the code has it.  For a page of comments with distinct
    identifiers the builder returns a forest, and the number of comments in
    it (the roots and all their descendants) is the number of comments of
    the page from which following [parentId] inside the page leads to a
    comment without parent.  Every comment of the forest is such a comment
    and every root of the forest is a comment without parent: a reply whose
    parent is not in the page is left out, not promoted to a root, and so
    are the replies below it. *)
Theorem commentTree_counts_rooted (cs : list Comment.t) :
  NoDup (Comment.id <$> cs) →
  ∃ ts, commentTree cs = Some ts
        ∧ forest_size ts = length (filter (λ c, rooted (length cs) cs c = true) cs)
        ∧ (∀ c, c ∈ ts ≫= tree_comments → c ∈ cs ∧ rooted (length cs) cs c = true)
        ∧ Forall (λ t, truthy (Comment.parentId (tree_root t)) = false) ts.
Proof.
  intros Hnd. rewrite (commentTree_forest cs Hnd). unfold forest_of.
  assert (level cs (S (length cs)) = []) as Hempty.
  { rewrite <-Nat.add_1_r. apply level_empty_mono. by apply level_length_empty. }
  destruct (mapM_is_Some_2 (tree_of (S (length cs)) cs) (roots cs)) as [ts Hts].
  { apply Forall_forall. intros c Hc. by apply (tree_of_total _ cs 0). }
  exists ts. split; [done|]. split; [|split].
  - rewrite (forest_size_below _ _ _ _ Hts).
    rewrite (size_below_levels _ cs 0). rewrite rooted_count by done.
    unfold levels_upto. by rewrite length_bind.
  - intros c (t & Hc & Ht)%list_elem_of_bind.
    apply mapM_Some in Hts. apply list_elem_of_lookup in Ht as [i Hi].
    destruct (Forall2_lookup_r _ _ _ _ _ Hts Hi) as (r & Hr & Hrt).
    apply list_elem_of_lookup_2 in Hr.
    destruct (tree_of_comments cs _ 0 r t Hrt Hr) as [_ Hall].
    destruct (Hall c Hc) as [d Hd].
    pose proof (level_in _ _ _ Hd) as Hin. split; [done|].
    apply rooted_level; [done..|]. exists d. split; [|done].
    pose proof (level_depth_bound cs Hnd d c Hd). lia.
  - apply mapM_Some in Hts. apply Forall_forall. intros t Ht.
    apply list_elem_of_lookup in Ht as [i Hi].
    destruct (Forall2_lookup_r _ _ _ _ _ Hts Hi) as (r & Hr & Hrt).
    apply list_elem_of_lookup_2 in Hr.
    destruct (tree_of_comments cs _ 0 r t Hrt Hr) as [-> _].
    by apply roots_elem in Hr as [? _].
Qed.

Lemma commentTree_counts_rooted_witness :
  ∃ ts, commentTree orphan_page = Some ts ∧ forest_size ts = 1.
Proof.
  destruct (commentTree_counts_rooted orphan_page) as (ts & H1 & H2 & _).
  - apply (bool_decide_unpack _). by vm_compute.
  - exists ts. split; [exact H1|]. rewrite H2. by vm_compute.
Defined.

(** C5 fails on the code: in the page [A], [D] (a reply to the missing [X])
    and [E] (a reply to [D]), two comments have no parent or a parent in the
    page ([A] and [E]), but the forest holds one comment only: [E] hangs
    from [D], which is left out. *)
Lemma orphan_reply_not_counted :
  commentTree orphan_page = Some [Node thread_A []]
  ∧ option_map forest_size (commentTree orphan_page) = Some 1
  ∧ length (filter (λ c, parent_present orphan_page c = true) orphan_page) = 2.
Proof. by vm_compute. Qed.

(** * Further properties *)

(** ** The mention scanner *)

Lemma is_word_not_at (c : ascii) : is_word c = true → is_at c = false.
Proof.
  unfold is_word, is_at. destruct (Nat.eqb_spec (nat_of_ascii c) 64) as [->|]; [|done].
  by vm_compute.
Qed.

Lemma scan_count (s : string) (cur : option string) :
  length (scan_mentions cur s) ≤ (if cur is Some _ then 1 else 0) + count_at s.
Proof.
  revert cur. induction s as [|c s IH]; intros cur; simpl.
  - destruct cur as [[|x w]|]; simpl; lia.
  - destruct cur as [w|].
    + destruct (is_word c) eqn:Hc.
      * rewrite (is_word_not_at c Hc). apply (IH (Some _)).
      * rewrite length_app.
        assert (length (flush (Some w)) ≤ 1) by (destruct w; simpl; lia).
        pose proof (IH (if is_at c then Some ""%string else None)) as H'.
        destruct (is_at c); simpl in *; lia.
    + pose proof (IH (if is_at c then Some ""%string else None)) as H'.
      destruct (is_at c); simpl in *; lia.
Qed.

(** X1: whatever the text, every extracted mention is a proper handle (not
    empty, word characters only), and there are at most as many mentions as
    [@] signs: a text without [@] mentions nobody. *)
Theorem extractMentions_handles (text : string) :
  Forall is_handle (extractMentions text)
  ∧ length (extractMentions text) ≤ count_at text.
Proof.
  split.
  - by apply scan_handles.
  - apply (scan_count text None).
Qed.

Lemma scan_split (cur : option string) (s1 : string) (c : ascii) (s2 : string) :
  is_word c = false →
  scan_mentions cur (s1 ++ String c s2)
  = scan_mentions cur s1 ++ scan_mentions None (String c s2).
Proof.
  intros Hc. revert cur. induction s1 as [|x s1 IH]; intros cur.
  - rewrite append_empty_l. cbn [scan_mentions]. rewrite Hc. by destruct cur.
  - rewrite append_cons. cbn [scan_mentions]. destruct cur as [w|].
    + destruct (is_word x); [apply IH|]. rewrite IH. by rewrite (assoc_L (++)).
    + apply IH.
Qed.

(** X2: the scan can be cut at any character that is not a word character:
    the mentions of [s1 ++ s2], where [s2] starts with such a character, are
    the mentions of [s1] followed by the mentions of [s2]. *)
Theorem extractMentions_split (s1 : string) (c : ascii) (s2 : string) :
  is_word c = false →
  extractMentions (s1 ++ String c s2)
  = extractMentions s1 ++ extractMentions (String c s2).
Proof. intros Hc. by apply scan_split. Qed.

Lemma extractMentions_split_witness :
  extractMentions ("ping @bob" ++ String "," " and @eve!")
  = extractMentions "ping @bob" ++ extractMentions (String "," " and @eve!").
Proof. apply extractMentions_split. reflexivity. Defined.

Lemma scan_word (acc w rest : string) :
  all_word w = true →
  scan_mentions (Some acc) (w ++ rest) = scan_mentions (Some (acc ++ w)%string) rest.
Proof.
  revert acc. induction w as [|c w IH]; intros acc Hw.
  - by rewrite append_empty_l, append_empty_r.
  - simpl in Hw. apply andb_true_iff in Hw as [Hc Hw].
    rewrite append_cons. cbn [scan_mentions]. rewrite Hc, IH by done.
    by rewrite append_snoc.
Qed.

(** X3: writing handles and reading them back.  In the text
    [@w1 @w2 ... ] made of proper handles, the scanner finds exactly those
    handles, in order and with their repetitions. *)
Theorem extractMentions_mention_text (ws : list string) :
  Forall is_handle ws → extractMentions (mention_text ws) = ws.
Proof.
  induction 1 as [|w ws [Hne Hw] _ IH]; [done|].
  unfold extractMentions in *. cbn [mention_text foldr scan_mentions].
  change (is_at "@") with true. cbn iota.
  rewrite (scan_word "" w _ Hw). rewrite append_empty_l. cbn [scan_mentions].
  change (is_word " ") with false. change (is_at " ") with false. cbn iota.
  fold (mention_text ws). rewrite IH. by destruct w.
Qed.

Lemma extractMentions_mention_text_witness :
  extractMentions (mention_text ["bob"; "Eve_2"; "bob"]) = ["bob"; "Eve_2"; "bob"].
Proof.
  apply extractMentions_mention_text.
  repeat (constructor; [by split|]). constructor.
Defined.

(** ** The vote rows of the Firestore server, continued *)

Section VoteRowsMore.
Variable autoId : nat → string.

Lemma vote_key_update (d k : string) (votes : list Vote.t) :
  vote_key <$> Firestore.update_vote d k votes = vote_key <$> votes.
Proof.
  unfold Firestore.update_vote. rewrite <-list_fmap_compose.
  apply list_fmap_ext. intros _ v _. simpl. by destruct (bool_decide _).
Qed.

Lemma docId_update (d k : string) (votes : list Vote.t) :
  Vote.docId <$> Firestore.update_vote d k votes = Vote.docId <$> votes.
Proof.
  unfold Firestore.update_vote. rewrite <-list_fmap_compose.
  apply list_fmap_ext. intros _ v _. simpl. by destruct (bool_decide _).
Qed.

Lemma existingVote_elem (c u : string) (votes : list Vote.t) (v : Vote.t) :
  v ∈ Firestore.existingVote c u votes ↔
  (Vote.commentId v = c ∧ Vote.userId v = u) ∧ v ∈ votes.
Proof. unfold Firestore.existingVote. by rewrite list_elem_of_filter. Qed.

Lemma existingVote_nil_key (c u : string) (votes : list Vote.t) :
  Firestore.existingVote c u votes = [] → (c, u) ∉ vote_key <$> votes.
Proof.
  intros He (v & Hk & Hv)%list_elem_of_fmap. injection Hk as -> ->.
  assert (v ∈ Firestore.existingVote (Vote.commentId v) (Vote.userId v) votes) as Hin
    by by apply existingVote_elem.
  rewrite He in Hin. by apply elem_of_nil in Hin.
Qed.

(** X4: the vote write keeps the store well formed.  If no voter has two
    rows on one comment, document ids are distinct and the id generated for
    a new row is fresh, the same holds after any vote request (up, down or
    remove). *)
Theorem castVote_keeps_one_vote_each (userId : string) (now : Z) (id k : string)
    (votes : list Vote.t) :
  one_vote_each votes →
  NoDup (Vote.docId <$> votes) →
  autoId (length votes) ∉ Vote.docId <$> votes →
  one_vote_each (Firestore.castVote autoId userId now id k votes)
  ∧ NoDup (Vote.docId <$> Firestore.castVote autoId userId now id k votes).
Proof.
  intros Hone Hdoc Hfresh. unfold Firestore.castVote, one_vote_each in *.
  destruct (bool_decide (k = "remove")).
  - destruct (Firestore.existingVote id userId votes) as [|doc rest]; [done|].
    unfold Firestore.delete_vote. split; by apply NoDup_fmap_filter.
  - destruct (Firestore.existingVote id userId votes) as [|doc rest] eqn:E.
    + rewrite !fmap_app. simpl. split.
      * apply NoDup_app. split; [done|]. split; [|apply NoDup_singleton].
        intros x Hx ->%list_elem_of_singleton. by apply (existingVote_nil_key _ _ _ E).
      * apply NoDup_app. split; [done|]. split; [|apply NoDup_singleton].
        by intros x Hx ->%list_elem_of_singleton.
    + by rewrite vote_key_update, docId_update.
Qed.

Lemma one_vote_each_single (c u : string) (votes : list Vote.t) (doc : Vote.t)
    (rest : list Vote.t) :
  one_vote_each votes → Firestore.existingVote c u votes = doc :: rest → rest = [].
Proof.
  intros Hone He. destruct rest as [|v rest]; [done|]. exfalso.
  assert (NoDup (vote_key <$> Firestore.existingVote c u votes)) as Hnd
    by by apply NoDup_fmap_filter.
  assert (vote_key doc = (c, u) ∧ vote_key v = (c, u)) as [Hd Hv].
  { split.
    - assert (doc ∈ Firestore.existingVote c u votes) as [[<- <-] _]%existingVote_elem
        by (rewrite He; constructor). done.
    - assert (v ∈ Firestore.existingVote c u votes) as [[<- <-] _]%existingVote_elem
        by (rewrite He; do 2 constructor). done. }
  rewrite He, !fmap_cons, Hd, Hv in Hnd.
  apply NoDup_cons in Hnd as [Hnd _]. apply Hnd. constructor.
Qed.

Lemma existingVote_delete (c u d : string) (votes : list Vote.t) :
  Firestore.existingVote c u (Firestore.delete_vote d votes)
  = Firestore.delete_vote d (Firestore.existingVote c u votes).
Proof.
  unfold Firestore.existingVote, Firestore.delete_vote.
  rewrite !list_filter_filter. apply list_filter_iff. intros v. tauto.
Qed.

(** X5: one voter, one row.  In a well-formed store, after a user votes
    [up] or [down] on a comment the store holds exactly one row of that user
    for that comment, and it has the kind just cast, whatever the user had
    voted before; after [remove] it holds none. *)
Theorem castVote_row_of_voter (userId : string) (now : Z) (id k : string)
    (votes : list Vote.t) :
  one_vote_each votes →
  (k ≠ "remove" →
   ∃ v, Firestore.existingVote id userId (Firestore.castVote autoId userId now id k votes) = [v]
        ∧ Vote.voteType v = k)
  ∧ Firestore.existingVote id userId (Firestore.castVote autoId userId now id "remove" votes)
    = [].
Proof.
  intros Hone. unfold Firestore.castVote. split.
  - intros Hk. rewrite bool_decide_eq_false_2 by done.
    destruct (Firestore.existingVote id userId votes) as [|doc rest] eqn:E.
    + eexists (Vote.mk _ _ _ _ _). split; [|reflexivity].
      unfold Firestore.existingVote in *. rewrite filter_app, E. simpl.
      by rewrite filter_cons, decide_True.
    + rewrite (one_vote_each_single _ _ _ _ _ Hone E) in E.
      rewrite existingVote_update, E. unfold Firestore.update_vote. simpl.
      rewrite bool_decide_eq_true_2 by done. by eexists.
  - rewrite bool_decide_eq_true_2 by done.
    destruct (Firestore.existingVote id userId votes) as [|doc rest] eqn:E; [done|].
    rewrite (one_vote_each_single _ _ _ _ _ Hone E) in E.
    rewrite existingVote_delete, E. unfold Firestore.delete_vote.
    by rewrite filter_cons, decide_False by (by intros H).
Qed.

End VoteRowsMore.

Lemma castVote_keeps_one_vote_each_witness :
  one_vote_each (Firestore.castVote (λ n, "v" +:+ pretty n) "1" 30 "c1" "up" votes_1)
  ∧ NoDup (Vote.docId <$> Firestore.castVote (λ n, "v" +:+ pretty n) "1" 30 "c1" "up" votes_1).
Proof.
  apply castVote_keeps_one_vote_each.
  - apply (bool_decide_unpack _). by vm_compute.
  - apply (bool_decide_unpack _). by vm_compute.
  - apply (bool_decide_unpack _). by vm_compute.
Defined.

Lemma castVote_row_of_voter_witness :
  ∃ v, Firestore.existingVote "c1" "2"
         (Firestore.castVote (λ n, "v" +:+ pretty n) "2" 30 "c1" "up" votes_1) = [v]
       ∧ Vote.voteType v = "up".
Proof.
  destruct (castVote_row_of_voter (λ n, "v" +:+ pretty n) "2" 30 "c1" "up" votes_1) as [H _].
  - apply (bool_decide_unpack _). by vm_compute.
  - by apply H.
Defined.

Lemma pair_add_assoc (a b c : Z * Z) : pair_add (pair_add a b) c = pair_add a (pair_add b c).
Proof. unfold pair_add. simpl. f_equal; lia. Qed.

Lemma pair_add_comm (a b : Z * Z) : pair_add a b = pair_add b a.
Proof. unfold pair_add. f_equal; lia. Qed.

Lemma pair_add_0_l (a : Z * Z) : pair_add (0, 0)%Z a = a.
Proof. destruct a. unfold pair_add. simpl. f_equal; lia. Qed.

Lemma sum_kinds_app (l1 l2 : list Vote.t) :
  sum_kinds (l1 ++ l2) = pair_add (sum_kinds l1) (sum_kinds l2).
Proof.
  induction l1 as [|v l1 IH]; simpl; [by rewrite pair_add_0_l|].
  by rewrite IH, pair_add_assoc.
Qed.

Lemma getVotes_sum (c : string) (votes : list Vote.t) :
  Firestore.getVotesForComment c votes
  = sum_kinds (filter (λ v, Vote.commentId v = c) votes).
Proof.
  unfold Firestore.getVotesForComment.
  generalize (filter (λ v, Vote.commentId v = c) votes). intros l.
  rewrite <-(pair_add_0_l (sum_kinds l)). generalize (0, 0)%Z.
  induction l as [|v l IH]; intros acc; simpl.
  - destruct acc. unfold pair_add. simpl. f_equal; lia.
  - rewrite IH. rewrite <-pair_add_assoc. f_equal.
    unfold kind_tally, pair_add. destruct acc as [a b].
    repeat case_bool_decide; simpl; f_equal; lia.
Qed.

Lemma votes_split (k : string) (votes : list Vote.t) (doc : Vote.t) :
  NoDup (Vote.docId <$> votes) → doc ∈ votes →
  ∃ l1 l2,
    votes = l1 ++ doc :: l2
    ∧ Firestore.update_vote (Vote.docId doc) k votes
      = l1 ++ Vote.mk (Vote.docId doc) (Vote.commentId doc) (Vote.userId doc) k
                      (Vote.timestamp doc) :: l2
    ∧ Firestore.delete_vote (Vote.docId doc) votes = l1 ++ l2.
Proof.
  intros Hnd (l1 & l2 & ->)%list_elem_of_split. exists l1, l2. split; [done|].
  rewrite fmap_app, fmap_cons in Hnd.
  apply NoDup_app in Hnd as (_ & H1 & [H2 _]%NoDup_cons).
  assert (Vote.docId doc ∉ Vote.docId <$> l1) as Hl1.
  { intros Hin. apply (H1 _ Hin). constructor. }
  split.
  - unfold Firestore.update_vote. rewrite fmap_app, fmap_cons.
    rewrite bool_decide_eq_true_2 by done.
    fold (Firestore.update_vote (Vote.docId doc) k l1).
    fold (Firestore.update_vote (Vote.docId doc) k l2).
    by rewrite !update_vote_other.
  - unfold Firestore.delete_vote. rewrite filter_app, filter_cons.
    rewrite decide_False by (by intros H). f_equal; apply filter_all, Forall_forall.
    + intros v Hv Heq. apply Hl1. rewrite <-Heq. by apply list_elem_of_fmap_2.
    + intros v Hv Heq. apply H2. rewrite <-Heq. by apply list_elem_of_fmap_2.
Qed.

Lemma existingVote_head (c u : string) (votes : list Vote.t) (doc : Vote.t)
    (rest : list Vote.t) :
  Firestore.existingVote c u votes = doc :: rest →
  doc ∈ votes ∧ Vote.commentId doc = c ∧ Vote.userId doc = u.
Proof.
  intros E. assert (doc ∈ Firestore.existingVote c u votes) as Hin by (rewrite E; constructor).
  apply existingVote_elem in Hin as [[? ?] ?]. done.
Qed.

Section VoteTally.
Variable autoId : nat → string.

(** X6: how a vote moves the tally of its comment.  With distinct document
    ids, casting [up] or [down] takes away what the voter's previous row
    contributed and adds one to the counter cast (so a first vote adds one,
    a repeated vote changes nothing, a changed vote moves one unit from one
    counter to the other); [remove] takes away what the previous row
    contributed. *)
Theorem castVote_tally_change (userId : string) (now : Z) (id k : string)
    (votes : list Vote.t) :
  NoDup (Vote.docId <$> votes) →
  (k ≠ "remove" →
   pair_add (Firestore.getVotesForComment id (Firestore.castVote autoId userId now id k votes))
            (prior_kind id userId votes)
   = pair_add (Firestore.getVotesForComment id votes) (kind_tally k))
  ∧ pair_add (Firestore.getVotesForComment id
                (Firestore.castVote autoId userId now id "remove" votes))
             (prior_kind id userId votes)
    = Firestore.getVotesForComment id votes.
Proof.
  intros Hnd. unfold Firestore.castVote, prior_kind. rewrite !getVotes_sum. split.
  - intros Hk. rewrite bool_decide_eq_false_2 by done.
    destruct (Firestore.existingVote id userId votes) as [|doc rest] eqn:E.
    + rewrite filter_app, sum_kinds_app, filter_cons, decide_True by done. simpl.
      rewrite !pair_add_assoc. f_equal.
      unfold pair_add. destruct (kind_tally k). simpl. f_equal; lia.
    + destruct (existingVote_head _ _ _ _ _ E) as (Hin & Hc & _).
      destruct (votes_split k votes doc Hnd Hin) as (l1 & l2 & Hv & -> & _).
      rewrite Hv, !filter_app, !filter_cons, !decide_True by done.
      rewrite !sum_kinds_app. simpl.
      unfold pair_add. destruct (sum_kinds _), (sum_kinds _), (kind_tally k),
        (kind_tally (Vote.voteType doc)). simpl. f_equal; lia.
  - rewrite bool_decide_eq_true_2 by done.
    destruct (Firestore.existingVote id userId votes) as [|doc rest] eqn:E.
    + unfold pair_add. destruct (sum_kinds _). simpl. f_equal; lia.
    + destruct (existingVote_head _ _ _ _ _ E) as (Hin & Hc & _).
      destruct (votes_split "remove" votes doc Hnd Hin) as (l1 & l2 & Hv & _ & ->).
      rewrite Hv, !filter_app, !filter_cons, !decide_True by done.
      rewrite !sum_kinds_app. simpl.
      unfold pair_add. destruct (sum_kinds _), (sum_kinds _),
        (kind_tally (Vote.voteType doc)). simpl. f_equal; lia.
Qed.

(** X7: a vote on one comment leaves the tallies of all other comments as
    they were (document ids being distinct). *)
Theorem castVote_other_tallies (userId : string) (now : Z) (id k other : string)
    (votes : list Vote.t) :
  NoDup (Vote.docId <$> votes) →
  other ≠ id →
  Firestore.getVotesForComment other (Firestore.castVote autoId userId now id k votes)
  = Firestore.getVotesForComment other votes.
Proof.
  intros Hnd Hne. unfold Firestore.castVote. rewrite !getVotes_sum.
  destruct (Firestore.existingVote id userId votes) as [|doc rest] eqn:E.
  - destruct (bool_decide (k = "remove")); [done|].
    rewrite filter_app, filter_cons, decide_False by (simpl; congruence).
    by rewrite app_nil_r.
  - destruct (existingVote_head _ _ _ _ _ E) as (Hin & Hc & _).
    destruct (votes_split k votes doc Hnd Hin) as (l1 & l2 & Hv & -> & ->).
    destruct (bool_decide (k = "remove"));
      rewrite Hv, !filter_app, !filter_cons;
      rewrite !decide_False by (simpl; congruence); done.
Qed.

End VoteTally.

Lemma castVote_tally_change_witness :
  pair_add (Firestore.getVotesForComment "c1"
              (Firestore.castVote (λ n, "v" +:+ pretty n) "2" 30 "c1" "up" votes_1))
           (0, 1)%Z
  = pair_add (0, 1)%Z (1, 0)%Z.
Proof.
  destruct (castVote_tally_change (λ n, "v" +:+ pretty n) "2" 30 "c1" "up" votes_1) as [H _].
  - apply (bool_decide_unpack _). by vm_compute.
  - apply H. done.
Defined.

Lemma castVote_other_tallies_witness :
  Firestore.getVotesForComment "c2"
    (Firestore.castVote (λ n, "v" +:+ pretty n) "2" 30 "c1" "remove" votes_1)
  = Firestore.getVotesForComment "c2" votes_1.
Proof.
  apply castVote_other_tallies.
  - apply (bool_decide_unpack _). by vm_compute.
  - done.
Defined.

(** X8: deleting a comment in the Firestore server deletes the votes of
    that comment and no others: afterwards its tally is 0/0 and the tally
    of every other identifier, the deleted replies included, is what it was. *)
Theorem firestore_delete_votes (user : AuthUser) (id : string) (a : Comment.t)
    (fs : Firestore.State) :
  js_find (Firestore.has_id id) (Firestore.commentsCollection fs) = Some a →
  Comment.authorId a = au_id user →
  Firestore.tally id (Firestore.state (Firestore.deleteComment user id fs)) = (0, 0)%Z
  ∧ ∀ other, other ≠ id →
      Firestore.tally other (Firestore.state (Firestore.deleteComment user id fs))
      = Firestore.tally other fs.
Proof.
  intros Hfind Hauth. unfold Firestore.deleteComment, Firestore.tally.
  rewrite Hfind, bool_decide_eq_false_2 by (by intros H). simpl.
  unfold Firestore.getVotesForComment. split.
  - rewrite list_filter_filter.
    rewrite (filter_ext_in _ (λ _, False)) by (intros v _; simpl; tauto).
    assert (filter (λ _ : Vote.t, False) (Firestore.votesCollection fs) = []) as ->; [|done].
    induction (Firestore.votesCollection fs) as [|v l IH]; [done|].
    by rewrite filter_cons, decide_False by tauto.
  - intros other Hne. rewrite list_filter_filter.
    f_equal. apply list_filter_iff. intros v. split; [tauto|].
    intros Hv. split; [done|]. congruence.
Qed.

Lemma firestore_delete_votes_witness :
  Firestore.tally "c1"
    (Firestore.state
       (Firestore.deleteComment {| au_id := "2"; au_username := "bob" |} "c1"
          {| Firestore.commentsCollection := [comment_c1];
             Firestore.usersCollection := [];
             Firestore.votesCollection := votes_1;
             Firestore.notificationsCollection := [] |}))
  = (0, 0)%Z.
Proof.
  eapply (firestore_delete_votes {| au_id := "2"; au_username := "bob" |} "c1" comment_c1).
  - reflexivity.
  - reflexivity.
Defined.

(** ** The handlers of the file-backed server *)

Lemma js_find_update_first {A} (P : A → bool) (f : A → A) (l : list A) :
  (∀ x, P (f x) = P x) → js_find P (update_first P f l) = f <$> js_find P l.
Proof.
  intros Hf. unfold js_find. induction l as [|x l IH]; [done|]. simpl.
  destruct (P x) eqn:E; simpl; [by rewrite Hf, E|]. by rewrite E.
Qed.

Lemma js_find_update_other {A} (P Q : A → bool) (f : A → A) (l : list A) :
  (∀ x, Q (f x) = Q x) → (∀ x, P x = true → Q x = false) →
  js_find Q (update_first P f l) = js_find Q l.
Proof.
  intros Hf Hdis. unfold js_find. induction l as [|x l IH]; [done|]. simpl.
  destruct (P x) eqn:E; simpl.
  - by rewrite Hf, (Hdis x E).
  - by rewrite IH.
Qed.

Lemma fmap_update_first {A B} (g : A → B) (P : A → bool) (f : A → A) (l : list A) :
  (∀ x, g (f x) = g x) → g <$> update_first P f l = g <$> l.
Proof.
  intros Hf. induction l as [|x l IH]; [done|]. simpl.
  destruct (P x); rewrite !fmap_cons; [by rewrite Hf|by rewrite IH].
Qed.

Lemma voted_id (v : string) (c : Comment.t) :
  Comment.id (FileBacked.voted v c) = Comment.id c.
Proof. unfold FileBacked.voted. by repeat case_bool_decide. Qed.

(** X9: the tally a vote reports is the tally stored.  For a valid vote on
    an existing comment the response is OK, the tally it carries (and the
    one of the [commentVoted] event) is the tally the store now holds for
    that identifier, no comment is added, removed or renamed, and the
    tallies under all other identifiers are as before. *)
Theorem file_vote_reports_stored_tally (user : AuthUser) (id v : string) (c : Comment.t)
    (st : FileBacked.State) :
  valid_voteType (Some v) = true →
  js_find (FileBacked.has_id id) (FileBacked.comments st) = Some c →
  ∃ up down,
    FileBacked.response (FileBacked.vote user id (Some v) st)
    = {| status := OK; body := JVote up down |}
    ∧ FileBacked.events (FileBacked.vote user id (Some v) st) = [EvCommentVoted id up down]
    ∧ FileBacked.tally id (FileBacked.state (FileBacked.vote user id (Some v) st))
      = Some (up, down)
    ∧ Comment.id <$> FileBacked.comments (FileBacked.state (FileBacked.vote user id (Some v) st))
      = Comment.id <$> FileBacked.comments st
    ∧ ∀ other, other ≠ id →
        FileBacked.tally other (FileBacked.state (FileBacked.vote user id (Some v) st))
        = FileBacked.tally other st.
Proof.
  intros Hv Hfind. unfold FileBacked.vote. rewrite Hv, Hfind. simpl.
  eexists _, _. split; [reflexivity|]. split; [reflexivity|].
  unfold FileBacked.tally. simpl. split; [|split].
  - rewrite js_find_update_first, Hfind; [done|].
    intros x. unfold FileBacked.has_id. by rewrite voted_id.
  - apply fmap_update_first, voted_id.
  - intros other Hne. rewrite js_find_update_other; [done| |].
    + intros x. unfold FileBacked.has_id. by rewrite voted_id.
    + intros x Hx%has_id_true. apply bool_decide_eq_false. congruence.
Qed.

Lemma file_vote_reports_stored_tally_witness :
  ∃ up down,
    FileBacked.response (FileBacked.vote alice "c1" (Some "down") file_store_2)
    = {| status := OK; body := JVote up down |}
    ∧ FileBacked.tally "c1" (FileBacked.state (FileBacked.vote alice "c1" (Some "down") file_store_2))
      = Some (up, down).
Proof.
  destruct (file_vote_reports_stored_tally alice "c1" "down" comment_c1 file_store_2)
    as (up & down & H1 & _ & H2 & _).
  - reflexivity.
  - reflexivity.
  - exists up, down. split; [exact H1 | exact H2].
Defined.

(** X10: [remove] is not the inverse of a vote.  On an existing comment
    with [u] upvotes ([u >= 0]) and [d] downvotes, an [up] vote followed by
    [remove] leaves [u] upvotes but [max 0 (d - 1)] downvotes: the removal
    takes one from both counters. *)
Theorem file_vote_up_then_remove (user : AuthUser) (id : string) (c : Comment.t)
    (st : FileBacked.State) :
  js_find (FileBacked.has_id id) (FileBacked.comments st) = Some c →
  (0 ≤ Comment.upvotes c)%Z →
  FileBacked.tally id
    (FileBacked.state
       (FileBacked.vote user id (Some "remove")
          (FileBacked.state (FileBacked.vote user id (Some "up") st))))
  = Some (Comment.upvotes c, Z.max 0 (Comment.downvotes c - 1)).
Proof.
  intros Hfind Hu.
  assert (js_find (FileBacked.has_id id)
            (FileBacked.comments (FileBacked.state (FileBacked.vote user id (Some "up") st)))
          = Some (FileBacked.voted "up" c)) as Hfind1.
  { unfold FileBacked.vote. rewrite Hfind. simpl.
    rewrite js_find_update_first, Hfind; [done|].
    intros x. unfold FileBacked.has_id. by rewrite voted_id. }
  set (st1 := FileBacked.state (FileBacked.vote user id (Some "up") st)) in *.
  unfold FileBacked.tally, FileBacked.vote. rewrite Hfind1. simpl.
  rewrite js_find_update_first, Hfind1; [|intros x; unfold FileBacked.has_id; by rewrite voted_id].
  simpl. f_equal. f_equal. lia.
Qed.

Lemma file_vote_up_then_remove_witness :
  FileBacked.tally "c1"
    (FileBacked.state
       (FileBacked.vote alice "c1" (Some "remove")
          (FileBacked.state (FileBacked.vote alice "c1" (Some "up") file_store_2))))
  = Some (0, Z.max 0 (0 - 1))%Z.
Proof.
  apply (file_vote_up_then_remove alice "c1" comment_c1 file_store_2).
  - reflexivity.
  - simpl. lia.
Defined.

Section Authorship.
Variable render : string → string.

(** X11: only the author edits or deletes.  When the comment found under
    the identifier belongs to somebody else, [PUT] and [DELETE] answer
    Forbidden, emit nothing and leave the store as it was; so does [DELETE]
    in the Firestore server. *)
Theorem only_author_edits_or_deletes (user : AuthUser) (now : Z) (id : string)
    (text : string) (c c' : Comment.t) (st : FileBacked.State) (fs : Firestore.State) :
  text ≠ "" →
  js_find (FileBacked.has_id id) (FileBacked.comments st) = Some c →
  Comment.authorId c ≠ au_id user →
  js_find (Firestore.has_id id) (Firestore.commentsCollection fs) = Some c' →
  Comment.authorId c' ≠ au_id user →
  (status (FileBacked.response (FileBacked.editComment render user now id (Some text) st))
   = Forbidden
   ∧ FileBacked.state (FileBacked.editComment render user now id (Some text) st) = st
   ∧ FileBacked.events (FileBacked.editComment render user now id (Some text) st) = [])
  ∧ (status (FileBacked.response (FileBacked.deleteComment user id st)) = Forbidden
     ∧ FileBacked.state (FileBacked.deleteComment user id st) = st
     ∧ FileBacked.events (FileBacked.deleteComment user id st) = [])
  ∧ (status (Firestore.response (Firestore.deleteComment user id fs)) = Forbidden
     ∧ Firestore.state (Firestore.deleteComment user id fs) = fs
     ∧ Firestore.events (Firestore.deleteComment user id fs) = []).
Proof.
  intros Ht Hc Ha Hc' Ha'. split; [|split].
  - unfold FileBacked.editComment.
    assert (truthy (Some text) = true) as -> by (simpl; by apply String.eqb_neq in Ht as ->).
    simpl. by rewrite Hc, bool_decide_eq_true_2.
  - unfold FileBacked.deleteComment. by rewrite Hc, bool_decide_eq_true_2.
  - unfold Firestore.deleteComment. by rewrite Hc', bool_decide_eq_true_2.
Qed.

(** X12: an edit changes the text and nothing else.  When the author edits
    a comment with a non-empty text, the request succeeds and every stored
    comment keeps its identifier, URL, parent, author, creation time and
    both counters; the comments keep their order and number. *)
Theorem edit_keeps_thread_and_votes (user : AuthUser) (now : Z) (id text : string)
    (c : Comment.t) (st : FileBacked.State) :
  text ≠ "" →
  js_find (FileBacked.has_id id) (FileBacked.comments st) = Some c →
  Comment.authorId c = au_id user →
  status (FileBacked.response (FileBacked.editComment render user now id (Some text) st)) = OK
  ∧ comment_frame
      <$> FileBacked.comments
            (FileBacked.state (FileBacked.editComment render user now id (Some text) st))
    = comment_frame <$> FileBacked.comments st
  ∧ (Comment.rawText
       <$> js_find (FileBacked.has_id id)
             (FileBacked.comments
                (FileBacked.state (FileBacked.editComment render user now id (Some text) st))))
    = Some text.
Proof.
  intros Ht Hc Ha. unfold FileBacked.editComment.
  assert (truthy (Some text) = true) as -> by (simpl; by apply String.eqb_neq in Ht as ->).
  simpl. rewrite Hc, bool_decide_eq_false_2 by (by intros H). simpl.
  split; [done|]. split.
  - by apply fmap_update_first.
  - rewrite js_find_update_first by done. by rewrite Hc.
Qed.

End Authorship.

Lemma only_author_edits_or_deletes_witness :
  FileBacked.state (FileBacked.editComment (λ s, s) alice 2000 "c1" (Some "mine now") file_store_2)
  = file_store_2
  ∧ FileBacked.state (FileBacked.deleteComment alice "c1" file_store_2) = file_store_2
  ∧ Firestore.state (Firestore.deleteComment alice "c1" firestore_2) = firestore_2.
Proof.
  destruct (only_author_edits_or_deletes (λ s, s) alice 2000 "c1" "mine now"
              comment_c1 comment_c1 file_store_2 firestore_2)
    as [(_ & H1 & _) [(_ & H2 & _) (_ & H3 & _)]].
  - done.
  - reflexivity.
  - done.
  - reflexivity.
  - done.
  - by repeat split.
Defined.

Lemma edit_keeps_thread_and_votes_witness :
  comment_frame
    <$> FileBacked.comments
          (FileBacked.state (FileBacked.editComment (λ s, s) bob 2000 "c1" (Some "edited")
                               file_store_2))
  = comment_frame <$> FileBacked.comments file_store_2.
Proof.
  apply (edit_keeps_thread_and_votes (λ s, s) bob 2000 "c1" "edited" comment_c1 file_store_2).
  - done.
  - reflexivity.
  - reflexivity.
Defined.

(** ** Comment creation *)

Lemma recipients_elem (resolve : string → option User.t) (author : string)
    (mentions : list string) (r : string) :
  r ∈ recipients resolve author mentions →
  r ≠ author ∧ ∃ m u, m ∈ mentions ∧ resolve m = Some u ∧ User.id u = r.
Proof.
  unfold recipients. intros (m & Hm & Hr)%list_elem_of_omap.
  destruct (resolve m) as [u|] eqn:E; [|done]. simpl in Hr.
  case_bool_decide; [|done]. injection Hr as <-. split; [done|]. by exists m, u.
Qed.

Lemma notified_users_elem (es : list Event) (r : string) (n : Notification.t) :
  EvNotification r n ∈ es → r ∈ notified_users es.
Proof.
  intros H. unfold notified_users. apply list_elem_of_omap.
  by exists (EvNotification r n).
Qed.

Section Creation.
Variable unicode_lower : string → string.
Variable render : string → string.
Variable random : nat → string.
Variable autoId : nat → string.

(** X13: a comment needs a URL and a text.  When either is missing or
    empty, [POST /api/comments] answers BadRequest, emits nothing and leaves
    the store as it was, in both servers. *)
Theorem createComment_requires_url_and_text (user : AuthUser) (now : Z)
    (url text parentId : option string) (st : FileBacked.State) (fs : Firestore.State) :
  truthy url && truthy text = false →
  (status (FileBacked.response
             (FileBacked.createComment unicode_lower render random user now url text parentId st))
   = BadRequest
   ∧ FileBacked.state (FileBacked.createComment unicode_lower render random user now url text parentId st)
     = st
   ∧ FileBacked.events (FileBacked.createComment unicode_lower render random user now url text parentId st)
     = [])
  ∧ (status (Firestore.response
               (Firestore.createComment render autoId user now url text parentId fs))
     = BadRequest
     ∧ Firestore.state (Firestore.createComment render autoId user now url text parentId fs)
       = fs
     ∧ Firestore.events (Firestore.createComment render autoId user now url text parentId fs)
       = []).
Proof.
  intros Hv. unfold FileBacked.createComment, Firestore.createComment.
  destruct url as [url|], text as [text|]; try done. by rewrite Hv.
Qed.

(** X14: nobody is notified of their own mention, and only registered users
    are notified.  Every [notification] event of [POST /api/comments] is
    addressed to a user of the store other than the author of the comment,
    in both servers. *)
Theorem notifications_reach_other_users (user : AuthUser) (now : Z)
    (url text parentId : option string) (st : FileBacked.State) (fs : Firestore.State) :
  (∀ r n, EvNotification r n
            ∈ FileBacked.events
                (FileBacked.createComment unicode_lower render random user now url text parentId st) →
          r ≠ au_id user ∧ r ∈ User.id <$> FileBacked.users st)
  ∧ (∀ r n, EvNotification r n
              ∈ Firestore.events
                  (Firestore.createComment render autoId user now url text parentId fs) →
            r ≠ au_id user ∧ r ∈ User.id <$> Firestore.usersCollection fs).
Proof.
  split; intros r n Hev%notified_users_elem; revert Hev.
  - unfold FileBacked.createComment.
    destruct url as [url|], text as [text|]; try (by intros ?%elem_of_nil).
    destruct (negb (truthy (Some url) && truthy (Some text)));
      [by intros ?%elem_of_nil|].
    simpl.
    destruct (file_mention_loop unicode_lower random (FileBacked.users st) user now (Date_toString now)
                url (extractMentions text) (FileBacked.notifications st) [])
      as (added & -> & Hadd).
    simpl. rewrite notified_users_app, notified_users_notifications, Hadd. simpl.
    rewrite app_nil_r. intros [Hne (m & u & _ & Hres & <-)]%recipients_elem.
    split; [done|]. apply list_elem_of_fmap_2.
    unfold FileBacked.resolve in Hres. by apply js_find_Some in Hres as [? _].
  - unfold Firestore.createComment.
    destruct url as [url|], text as [text|]; try (by intros ?%elem_of_nil).
    destruct (negb (truthy (Some url) && truthy (Some text)));
      [by intros ?%elem_of_nil|].
    simpl.
    destruct (firestore_mention_loop autoId (Firestore.usersCollection fs) user now
                (autoId (length (Firestore.commentsCollection fs)))
                url (extractMentions text) (Firestore.notificationsCollection fs) [])
      as (added & payloads & -> & Hadd & Hpay).
    simpl. rewrite notified_users_app, notified_users_notifications, Hpay, Hadd. simpl.
    rewrite app_nil_r. intros [Hne (m & u & _ & Hres & <-)]%recipients_elem.
    split; [done|]. apply list_elem_of_fmap_2.
    unfold Firestore.resolve in Hres. apply head_Some_elem_of in Hres.
    by apply list_elem_of_filter in Hres as [_ ?].
Qed.

End Creation.

Lemma createComment_requires_url_and_text_witness :
  FileBacked.state
    (FileBacked.createComment (λ s, s) (λ s, s) (λ _, "") alice 1000 (Some "https://example.org")
       (Some "") None file_store_1)
  = file_store_1.
Proof.
  destruct (createComment_requires_url_and_text (λ s, s) (λ s, s) (λ _, "") (λ n, pretty n)
              alice 1000 (Some "https://example.org") (Some "") None
              file_store_1 firestore_1) as [(_ & H & _) _].
  - reflexivity.
  - exact H.
Defined.

Example page_2_of_7 :
  Comment.id <$> paginatedComments "https://example.org" (Fin 2) (Fin 3) file_store_7
  = ["4"; "3"; "2"].
Proof. reflexivity. Qed.

Example page_1_negative_limit :
  Comment.id <$> paginatedComments "https://example.org" (Fin 1) (Fin (-5)) file_store_7
  = ["7"; "6"].
Proof. reflexivity. Qed.

(** ** Listing the comments of a page *)

Lemma insert_desc_Permutation {A} (key : A → Z) (x : A) (l : list A) :
  insert_desc key x l ≡ₚ x :: l.
Proof.
  induction l as [|y l IH]; simpl; [done|].
  destruct (key y <=? key x)%Z; [done|]. rewrite IH. apply Permutation_swap.
Qed.

Lemma sort_desc_Permutation {A} (key : A → Z) (l : list A) : sort_desc key l ≡ₚ l.
Proof.
  induction l as [|x l IH]; [done|].
  change (sort_desc key (x :: l)) with (insert_desc key x (sort_desc key l)).
  by rewrite insert_desc_Permutation, IH.
Qed.

Lemma insert_desc_sorted {A} (key : A → Z) (x : A) (l : list A) :
  newest_first key l → newest_first key (insert_desc key x l).
Proof.
  unfold newest_first. induction 1 as [|y l Hs IH Hall]; simpl.
  - repeat constructor.
  - destruct (Z.leb_spec (key y) (key x)).
    + constructor; [by constructor|]. constructor; [done|].
      eapply Forall_impl; [exact Hall|]. simpl. intros; lia.
    + constructor; [done|]. rewrite insert_desc_Permutation. constructor; [lia|done].
Qed.

Lemma sort_desc_sorted {A} (key : A → Z) (l : list A) : newest_first key (sort_desc key l).
Proof.
  induction l as [|x l IH]; [constructor|].
  change (sort_desc key (x :: l)) with (insert_desc key x (sort_desc key l)).
  by apply insert_desc_sorted.
Qed.

(** The sort is stable: elements of one key keep their order. *)
Lemma insert_desc_filter {A} (key : A → Z) (k : Z) (x : A) (l : list A) :
  filter (λ y, key y = k) (insert_desc key x l) = filter (λ y, key y = k) (x :: l).
Proof.
  induction l as [|y l IH]; simpl; [done|].
  destruct (Z.leb_spec (key y) (key x)); [done|].
  rewrite (filter_cons _ y), IH, !filter_cons.
  repeat case_decide; try done; lia.
Qed.

Lemma sort_desc_filter {A} (key : A → Z) (k : Z) (l : list A) :
  filter (λ y, key y = k) (sort_desc key l) = filter (λ y, key y = k) l.
Proof.
  induction l as [|x l IH]; [done|].
  change (sort_desc key (x :: l)) with (insert_desc key x (sort_desc key l)).
  by rewrite insert_desc_filter, !filter_cons, IH.
Qed.

(** X15: the list that [GET /api/comments] paginates holds exactly the
    stored comments of the requested URL, each as often as it is stored, in
    decreasing order of time stamp; comments of one time stamp keep the
    order in which they are stored. *)
Theorem filteredComments_newest_first (url : string) (st : FileBacked.State) :
  filteredComments url st ≡ₚ filter (λ c, Comment.url c = url) (FileBacked.comments st)
  ∧ (∀ c, c ∈ filteredComments url st ↔ c ∈ FileBacked.comments st ∧ Comment.url c = url)
  ∧ newest_first Comment.timestamp (filteredComments url st)
  ∧ (∀ t, filter (λ c, Comment.timestamp c = t) (filteredComments url st)
          = filter (λ c, Comment.timestamp c = t)
                   (filter (λ c, Comment.url c = url) (FileBacked.comments st))).
Proof.
  unfold filteredComments. split; [apply sort_desc_Permutation|]. split; [|split].
  - intros c. rewrite sort_desc_Permutation, list_elem_of_filter. tauto.
  - apply sort_desc_sorted.
  - intros t. apply sort_desc_filter.
Qed.

Lemma js_slice_window {A} (s e : Z) (l : list A) :
  (0 ≤ s ≤ e)%Z →
  js_slice (Fin s) (Fin e) l = take (Z.to_nat (e - s)) (drop (Z.to_nat s) l).
Proof.
  intros Hse. unfold js_slice, clamp_index.
  destruct (Z.ltb_spec s 0); [lia|]. destruct (Z.ltb_spec e 0); [lia|].
  remember (Z.of_nat (length l)) as len eqn:Hlen.
  destruct (Z.le_gt_cases len s) as [Hs|Hs].
  - rewrite !drop_ge by lia. by rewrite !take_nil.
  - rewrite (Z.min_l s) by lia.
    destruct (Z.le_gt_cases e len) as [He|He].
    + by rewrite Z.min_l by lia.
    + rewrite Z.min_r by lia. rewrite !take_ge; [done|rewrite length_drop; lia..].
Qed.

Lemma js_slice_parts {A} (a b : num) (l : list A) :
  ∃ before after, l = before ++ js_slice a b l ++ after.
Proof.
  unfold js_slice.
  exists (take (Z.to_nat (clamp_index (Z.of_nat (length l)) a)) l).
  eexists (drop _ (drop (Z.to_nat (clamp_index (Z.of_nat (length l)) a)) l)).
  by rewrite !take_drop.
Qed.

Lemma js_slice_length {A} (a b : num) (L : Z) (l : list A) :
  (0 ≤ L)%Z → b = num_add a (Fin L) →
  (Z.of_nat (length (js_slice a b l)) ≤ L)%Z.
Proof.
  intros HL ->. unfold js_slice. rewrite length_take, length_drop.
  destruct a as [s | | | ]; simpl; try lia.
  destruct (Z.ltb_spec s 0), (Z.ltb_spec (s + L) 0); lia.
Qed.

(** X16: whatever the page and limit parameters are, the comments of a
    page are a run of consecutive entries of the newest-first list of the
    URL: they are stored comments of that URL, newest first; and when the
    limit is a non-negative integer the page holds at most [limit]
    comments. *)
Theorem page_is_window (url : string) (pageNum limitNum : num) (st : FileBacked.State) :
  (∃ before after,
     filteredComments url st = before ++ paginatedComments url pageNum limitNum st ++ after)
  ∧ (∀ c, c ∈ paginatedComments url pageNum limitNum st →
          c ∈ FileBacked.comments st ∧ Comment.url c = url)
  ∧ newest_first Comment.timestamp (paginatedComments url pageNum limitNum st)
  ∧ (∀ L, limitNum = Fin L → (0 ≤ L)%Z →
          (Z.of_nat (length (paginatedComments url pageNum limitNum st)) ≤ L)%Z).
Proof.
  destruct (js_slice_parts
              (num_mul (num_sub pageNum (Fin 1)) limitNum)
              (num_add (num_mul (num_sub pageNum (Fin 1)) limitNum) limitNum)
              (filteredComments url st)) as (before & after & Hparts).
  fold (paginatedComments url pageNum limitNum st) in Hparts.
  destruct (filteredComments_newest_first url st) as (_ & Hin & Hsorted & _).
  split; [by exists before, after|]. split; [|split].
  - intros c Hc. apply Hin. rewrite Hparts, !elem_of_app. auto.
  - unfold newest_first in *. rewrite Hparts in Hsorted.
    by apply StronglySorted_app_1_r, StronglySorted_app_1_l in Hsorted.
  - intros L -> HL. unfold paginatedComments. by eapply js_slice_length.
Qed.

Lemma paginated_window (url : string) (p L : Z) (st : FileBacked.State) :
  (1 ≤ p)%Z → (0 ≤ L)%Z →
  paginatedComments url (Fin p) (Fin L) st
  = take (Z.to_nat L) (drop (Z.to_nat ((p - 1) * L)) (filteredComments url st)).
Proof.
  intros Hp HL. unfold paginatedComments. simpl.
  rewrite js_slice_window by nia. do 2 f_equal; lia.
Qed.

Lemma pages_upto (url : string) (L : Z) (st : FileBacked.State) (n : nat) :
  (0 ≤ L)%Z →
  mjoin ((λ p : nat, paginatedComments url (Fin (Z.of_nat p)) (Fin L) st) <$> seq 1 n)
  = take (n * Z.to_nat L) (filteredComments url st).
Proof.
  intros HL. induction n as [|n IH]; [done|].
  rewrite seq_S, fmap_app, join_app, IH. simpl. rewrite app_nil_r.
  rewrite paginated_window by lia.
  replace (Z.to_nat ((Z.of_nat (S n) - 1) * L)) with (n * Z.to_nat L) by nia.
  rewrite take_take_drop. f_equal. lia.
Qed.

(** X17: with a positive limit, the pages 1 to [totalPages] follow one
    another without gap or overlap: put end to end they are the whole
    newest-first list of the URL. *)
Theorem pages_cover_listing (url : string) (pageNum : num) (L : Z) (st : FileBacked.State) :
  (0 < L)%Z →
  ∃ n : nat,
    totalPages (pagination (Z.of_nat (length (filteredComments url st))) pageNum (Fin L))
    = Fin (Z.of_nat n)
    ∧ mjoin ((λ p : nat, paginatedComments url (Fin (Z.of_nat p)) (Fin L) st) <$> seq 1 n)
      = filteredComments url st.
Proof.
  intros HL.
  pose proof (ceil_div_bounds (Z.of_nat (length (filteredComments url st))) L HL) as Hb.
  exists (Z.to_nat (- (- Z.of_nat (length (filteredComments url st)) / L))).
  unfold pagination, ceil_div. simpl.
  destruct (Z.eqb_spec L 0) as [->|_]; [lia|].
  split; [f_equal; nia|].
  rewrite pages_upto by lia. apply take_ge. nia.
Qed.

Lemma pages_cover_listing_witness :
  ∃ n : nat,
    totalPages (pagination (Z.of_nat (length (filteredComments "https://example.org" file_store_7)))
                           (Fin 1) (Fin 3))
    = Fin (Z.of_nat n)
    ∧ mjoin ((λ p : nat, paginatedComments "https://example.org" (Fin (Z.of_nat p)) (Fin 3)
                                           file_store_7) <$> seq 1 n)
      = filteredComments "https://example.org" file_store_7.
Proof. apply (pages_cover_listing "https://example.org" (Fin 1) 3 file_store_7). lia. Defined.

(** X18: for a page number of at least 1 and a positive limit, a page
    holds [limit] comments as long as that many are left and the rest
    otherwise (none past the end), and [hasNextPage] is true exactly when
    the next page holds a comment. *)
Theorem hasNextPage_iff_next_page (url : string) (p L : Z) (st : FileBacked.State) :
  (1 ≤ p)%Z → (0 < L)%Z →
  Z.of_nat (length (paginatedComments url (Fin p) (Fin L) st))
  = Z.min L (Z.max 0 (Z.of_nat (length (filteredComments url st)) - (p - 1) * L))
  ∧ (hasNextPage (pagination (Z.of_nat (length (filteredComments url st))) (Fin p) (Fin L))
     = true
     ↔ paginatedComments url (Fin (p + 1)) (Fin L) st ≠ []).
Proof.
  intros Hp HL.
  assert (∀ q, (1 ≤ q)%Z →
    Z.of_nat (length (paginatedComments url (Fin q) (Fin L) st))
    = Z.min L (Z.max 0 (Z.of_nat (length (filteredComments url st)) - (q - 1) * L))) as Hlen.
  { intros q Hq. rewrite paginated_window by lia. rewrite length_take, length_drop. nia. }
  split; [by apply Hlen|].
  pose proof (ceil_div_bounds (Z.of_nat (length (filteredComments url st))) L HL) as Hb.
  pose proof (Hlen (p + 1)%Z ltac:(lia)) as Hnext.
  unfold pagination, ceil_div. simpl.
  destruct (Z.eqb_spec L 0) as [->|_]; [lia|].
  rewrite Z.ltb_lt. split.
  - intros Hlt Hnil. rewrite Hnil in Hnext. simpl in Hnext. nia.
  - intros Hne. destruct (paginatedComments url (Fin (p + 1)) (Fin L) st); [done|].
    simpl in Hnext. nia.
Qed.

Lemma hasNextPage_iff_next_page_witness :
  Z.of_nat (length (paginatedComments "https://example.org" (Fin 2) (Fin 3) file_store_7))
  = Z.min 3 (Z.max 0 (Z.of_nat (length (filteredComments "https://example.org" file_store_7))
                      - (2 - 1) * 3))
  ∧ (hasNextPage (pagination (Z.of_nat (length (filteredComments "https://example.org"
                                                                 file_store_7)))
                             (Fin 2) (Fin 3))
     = true
     ↔ paginatedComments "https://example.org" (Fin (2 + 1)) (Fin 3) file_store_7 ≠ []).
Proof. apply (hasNextPage_iff_next_page "https://example.org" 2 3 file_store_7); lia. Defined.

(** When an identifier is stored twice the forest can contain itself, and
    the listing fails. *)
Example getComments_cyclic :
  getComments (Some "https://example.org") (Fin 1) (Fin 20) cyclic_store = ListError.
Proof. reflexivity. Qed.




Lemma paginated_ids_distinct (url : string) (pageNum limitNum : num) (st : FileBacked.State) :
  NoDup (Comment.id <$> FileBacked.comments st) →
  NoDup (Comment.id <$> paginatedComments url pageNum limitNum st).
Proof.
  intros Hnd.
  destruct (js_slice_parts
              (num_mul (num_sub pageNum (Fin 1)) limitNum)
              (num_add (num_mul (num_sub pageNum (Fin 1)) limitNum) limitNum)
              (filteredComments url st)) as (before & after & Hparts).
  fold (paginatedComments url pageNum limitNum st) in Hparts.
  assert (NoDup (Comment.id <$> filteredComments url st)) as Hf.
  { unfold filteredComments. rewrite sort_desc_Permutation. by apply NoDup_fmap_filter. }
  rewrite Hparts, !fmap_app in Hf.
  by apply NoDup_app in Hf as (_ & _ & [? _]%NoDup_app).
Qed.



(** ** Notifications *)

Lemma js_slice_take {A} (n : nat) (l : list A) :
  js_slice (Fin 0) (Fin (Z.of_nat n)) l = take n l.
Proof.
  rewrite js_slice_window by lia.
  replace (Z.to_nat (Z.of_nat n - 0)) with n by lia. done.
Qed.

(** X20: [GET /api/notifications] of the file-backed server returns only
    stored notifications of the requesting user, newest first and at most
    50 of them; the ones left out are the user's other notifications, none
    of them newer than one that is returned. *)
Theorem getNotifications_own_newest (user : AuthUser) (st : FileBacked.State) :
  (∀ n, n ∈ file_getNotifications user st →
        n ∈ FileBacked.notifications st ∧ Notification.userId n = au_id user)
  ∧ newest_first Notification.timestamp (file_getNotifications user st)
  ∧ length (file_getNotifications user st)
    = 50 `min` length (filter (λ n, Notification.userId n = au_id user)
                              (FileBacked.notifications st))
  ∧ ∃ rest,
      file_getNotifications user st ++ rest
      ≡ₚ filter (λ n, Notification.userId n = au_id user) (FileBacked.notifications st)
      ∧ ∀ n m, n ∈ file_getNotifications user st → m ∈ rest →
               (Notification.timestamp m ≤ Notification.timestamp n)%Z.
Proof.
  unfold file_getNotifications. change (Fin 50) with (Fin (Z.of_nat 50)).
  rewrite js_slice_take.
  set (own := filter (λ n, Notification.userId n = au_id user) (FileBacked.notifications st)).
  pose proof (sort_desc_sorted Notification.timestamp own) as Hsorted.
  pose proof (sort_desc_Permutation Notification.timestamp own) as Hperm.
  rewrite <-(take_drop 50 (sort_desc Notification.timestamp own)) in Hsorted, Hperm.
  split; [|split; [|split]].
  - intros n Hn.
    assert (n ∈ own) as Hown by (rewrite <-Hperm, elem_of_app; by left).
    unfold own in Hown. rewrite list_elem_of_filter in Hown. tauto.
  - by apply StronglySorted_app_1_l in Hsorted.
  - rewrite length_take. f_equal. apply Permutation_length, sort_desc_Permutation.
  - exists (drop 50 (sort_desc Notification.timestamp own)). split; [done|].
    intros n m Hn Hm.
    apply (StronglySorted_app_1_elem_of _ _ _ n m Hsorted Hn Hm).
Qed.

Lemma js_find_split {A} (P : A → bool) (f : A → A) (l : list A) (m : A) :
  js_find P l = Some m →
  ∃ l1 l2, l = l1 ++ m :: l2 ∧ Forall (λ x, P x = false) l1 ∧ P m = true
           ∧ update_first P f l = l1 ++ f m :: l2.
Proof.
  induction l as [|x l IH]; [done|]. unfold js_find. simpl.
  destruct (P x) eqn:Hx.
  - intros [= ->]. by exists [], l.
  - intros (l1 & l2 & -> & Hl1 & Hm & Hupd)%IH.
    exists (x :: l1), l2. rewrite Hupd. by repeat split; [constructor|..].
Qed.

Lemma js_find_app_r {A} (P : A → bool) (l1 l2 : list A) :
  Forall (λ x, P x = false) l1 → js_find P (l1 ++ l2) = js_find P l2.
Proof.
  unfold js_find. induction 1 as [|x l1 Hx _ IH]; [done|]. simpl. by rewrite Hx.
Qed.

(** X21: a user cannot mark a notification of somebody else.  When no
    stored notification with the given id belongs to the user, the
    file-backed server answers 404; the Firestore server answers 403 when a
    notification with that id exists and 404 when none does; neither
    changes its store. *)
Theorem markRead_foreign_notification (user : AuthUser) (id : string)
    (stF : FileBacked.State) (stD : Firestore.State) :
  (∀ n, n ∈ FileBacked.notifications stF → Notification.id n = id →
        Notification.userId n ≠ au_id user) →
  (∀ n, n ∈ Firestore.notificationsCollection stD → Notification.id n = id →
        Notification.userId n ≠ au_id user) →
  file_markRead user id stF = (NotFound, stF)
  ∧ firestore_markRead user id stD
    = (if bool_decide (id ∈ Notification.id <$> Firestore.notificationsCollection stD)
       then Forbidden else NotFound, stD).
Proof.
  intros HF HD. split.
  - unfold file_markRead.
    destruct (js_find _ _) as [m|] eqn:Hm; [|done]. exfalso.
    apply js_find_Some in Hm as [Hin Hp]. unfold is_notification_of in Hp.
    apply andb_true_iff in Hp as [Hid%bool_decide_eq_true Hu%bool_decide_eq_true].
    by apply (HF m).
  - unfold firestore_markRead.
    destruct (js_find _ _) as [m|] eqn:Hm.
    + apply js_find_Some in Hm as [Hin Hid%bool_decide_eq_true].
      rewrite (bool_decide_eq_true_2 (_ ≠ _)) by by apply HD.
      rewrite bool_decide_eq_true_2; [done|].
      apply list_elem_of_fmap. by exists m.
    + rewrite bool_decide_eq_false_2; [done|].
      intros (m & Hid & Hin)%list_elem_of_fmap.
      pose proof (proj1 (js_find_None _ _) Hm m Hin) as Hnone.
      by apply bool_decide_eq_false in Hnone.
Qed.

Lemma markRead_foreign_notification_witness :
  file_markRead alice "n2" file_store_notes = (NotFound, file_store_notes)
  ∧ firestore_markRead alice "n2" firestore_notes
    = (if bool_decide ("n2" ∈ Notification.id <$> Firestore.notificationsCollection
                                                     firestore_notes)
       then Forbidden else NotFound, firestore_notes).
Proof.
  apply (markRead_foreign_notification alice "n2" file_store_notes firestore_notes).
  - apply (proj1 (Forall_forall
                    (λ n, Notification.id n = "n2" → Notification.userId n ≠ au_id alice) _)).
    apply (bool_decide_unpack _). by vm_compute.
  - apply (proj1 (Forall_forall
                    (λ n, Notification.id n = "n2" → Notification.userId n ≠ au_id alice) _)).
    apply (bool_decide_unpack _). by vm_compute.
Defined.

Lemma update_first_app_r {A} (P : A → bool) (f : A → A) (l1 l2 : list A) :
  Forall (λ x, P x = false) l1 → update_first P f (l1 ++ l2) = l1 ++ update_first P f l2.
Proof.
  induction 1 as [|x l1 Hx _ IH]; [done|]. simpl. by rewrite Hx, IH.
Qed.

(** X22: when a stored notification with the given id belongs to the
    user, the file-backed server answers 200 and changes one stored
    notification only, the first one with that id and owner: its [read]
    flag becomes true and nothing else changes; marking it again gives the
    same answer and the same store. *)
Theorem file_markRead_sets_one_flag (user : AuthUser) (id : string)
    (st : FileBacked.State) (n : Notification.t) :
  n ∈ FileBacked.notifications st →
  Notification.id n = id →
  Notification.userId n = au_id user →
  ∃ l1 m l2,
    FileBacked.notifications st = l1 ++ m :: l2
    ∧ Notification.id m = id ∧ Notification.userId m = au_id user
    ∧ (∀ x, x ∈ l1 → ¬ (Notification.id x = id ∧ Notification.userId x = au_id user))
    ∧ file_markRead user id st
      = (OK, {| FileBacked.comments := FileBacked.comments st;
                FileBacked.users := FileBacked.users st;
                FileBacked.notifications := l1 ++ marked_read m :: l2;
                FileBacked.votes := FileBacked.votes st |})
    ∧ file_markRead user id (file_markRead user id st).2 = file_markRead user id st.
Proof.
  intros Hn Hid Hu.
  destruct (js_find (is_notification_of id user) (FileBacked.notifications st))
    as [m|] eqn:Hfind.
  - destruct (js_find_split _ marked_read _ _ Hfind) as (l1 & l2 & Hl & Hl1 & Hm & Hupd).
    assert (is_notification_of id user (marked_read m) = true) as Hm' by exact Hm.
    exists l1, m, l2. unfold is_notification_of in Hm.
    apply andb_true_iff in Hm as [Hmid%bool_decide_eq_true Hmu%bool_decide_eq_true].
    split; [done|]. split; [done|]. split; [done|]. split.
    { intros x Hx [Hxid Hxu]. rewrite Forall_forall in Hl1. specialize (Hl1 x Hx).
      unfold is_notification_of in Hl1.
      by rewrite !bool_decide_eq_true_2 in Hl1. }
    assert (file_markRead user id st
            = (OK, {| FileBacked.comments := FileBacked.comments st;
                      FileBacked.users := FileBacked.users st;
                      FileBacked.notifications := l1 ++ marked_read m :: l2;
                      FileBacked.votes := FileBacked.votes st |})) as Hfirst.
    { unfold file_markRead. by rewrite Hfind, Hupd. }
    split; [done|]. rewrite Hfirst. unfold file_markRead at 1. simpl.
    rewrite js_find_app_r by done. unfold js_find. simpl. rewrite Hm'.
    rewrite update_first_app_r by done. simpl. by rewrite Hm'.
  - exfalso. pose proof (proj1 (js_find_None _ _) Hfind n Hn) as Hnone.
    unfold is_notification_of in Hnone. by rewrite !bool_decide_eq_true_2 in Hnone.
Qed.

Lemma file_markRead_sets_one_flag_witness :
  ∃ l1 m l2,
    FileBacked.notifications file_store_notes = l1 ++ m :: l2
    ∧ Notification.id m = "n3" ∧ Notification.userId m = au_id alice
    ∧ (∀ x, x ∈ l1 → ¬ (Notification.id x = "n3" ∧ Notification.userId x = au_id alice))
    ∧ file_markRead alice "n3" file_store_notes
      = (OK, {| FileBacked.comments := FileBacked.comments file_store_notes;
                FileBacked.users := FileBacked.users file_store_notes;
                FileBacked.notifications := l1 ++ marked_read m :: l2;
                FileBacked.votes := FileBacked.votes file_store_notes |})
    ∧ file_markRead alice "n3" (file_markRead alice "n3" file_store_notes).2
      = file_markRead alice "n3" file_store_notes.
Proof.
  apply (file_markRead_sets_one_flag alice "n3" file_store_notes (note "n3" "1" 30)).
  - apply (bool_decide_unpack _). by vm_compute.
  - reflexivity.
  - reflexivity.
Defined.

Lemma mark_others_id (id : string) (l : list Notification.t) :
  Forall (λ x, Notification.id x ≠ id) l →
  (λ n, if bool_decide (Notification.id n = id) then marked_read n else n) <$> l = l.
Proof.
  induction 1 as [|x l Hx _ IH]; [done|].
  by rewrite fmap_cons, IH, bool_decide_eq_false_2.
Qed.

(** X23: in the Firestore server, where the ids of the stored
    notifications are distinct, marking a notification of one's own
    answers 200 and sets the [read] flag of that document; every other
    document and every other field stays as it is. *)
Theorem firestore_markRead_sets_one_flag (user : AuthUser) (st : Firestore.State)
    (l1 : list Notification.t) (n : Notification.t) (l2 : list Notification.t) :
  Firestore.notificationsCollection st = l1 ++ n :: l2 →
  NoDup (Notification.id <$> Firestore.notificationsCollection st) →
  Notification.userId n = au_id user →
  firestore_markRead user (Notification.id n) st
  = (OK, {| Firestore.commentsCollection := Firestore.commentsCollection st;
            Firestore.usersCollection := Firestore.usersCollection st;
            Firestore.votesCollection := Firestore.votesCollection st;
            Firestore.notificationsCollection := l1 ++ marked_read n :: l2 |}).
Proof.
  intros Hl Hnd Hu. rewrite Hl, fmap_app, fmap_cons in Hnd.
  apply NoDup_app in Hnd as (_ & Hl1 & [Hl2 _]%NoDup_cons).
  assert (Forall (λ x, Notification.id x ≠ Notification.id n) l1) as Hne1.
  { apply Forall_forall. intros x Hx Heq. apply (Hl1 (Notification.id x)).
    - by apply list_elem_of_fmap_2.
    - rewrite Heq. by left. }
  assert (Forall (λ x, Notification.id x ≠ Notification.id n) l2) as Hne2.
  { apply Forall_forall. intros x Hx Heq. apply Hl2. rewrite <-Heq.
    by apply list_elem_of_fmap_2. }
  unfold firestore_markRead. rewrite Hl.
  rewrite js_find_app_r.
  2:{ eapply Forall_impl; [exact Hne1|]. intros x Hx. simpl.
      by apply bool_decide_eq_false_2. }
  unfold js_find. simpl. rewrite (bool_decide_eq_true_2 (_ = _)) by done.
  rewrite (bool_decide_eq_false_2 (_ ≠ _)) by (intros Hc; by apply Hc).
  rewrite fmap_app, fmap_cons, !mark_others_id by done.
  by rewrite bool_decide_eq_true_2.
Qed.

Lemma firestore_markRead_sets_one_flag_witness :
  firestore_markRead alice (Notification.id (note "n3" "1" 30)) firestore_notes
  = (OK, {| Firestore.commentsCollection := Firestore.commentsCollection firestore_notes;
            Firestore.usersCollection := Firestore.usersCollection firestore_notes;
            Firestore.votesCollection := Firestore.votesCollection firestore_notes;
            Firestore.notificationsCollection :=
              [note "n1" "1" 10; note "n2" "2" 20] ++ marked_read (note "n3" "1" 30) :: [] |}).
Proof.
  apply (firestore_markRead_sets_one_flag alice firestore_notes
           [note "n1" "1" 10; note "n2" "2" 20] (note "n3" "1" 30) []).
  - reflexivity.
  - apply (bool_decide_unpack _). by vm_compute.
  - reflexivity.
Defined.

(** ** Accounts *)

Example google_duplicates_username :
  Auth.username
    <$> Auth.users
          (Auth.google plain_sign 9
             (Some {| Auth.g_email := "carol@elsewhere.example"; Auth.g_name := "Carol D";
                      Auth.g_picture := None; Auth.g_sub := "g-1" |})
             (Some "id-token") auth_store_1).2
  = ["carol"; "carol"].
Proof. reflexivity. Qed.

Section Accounts.
Variable sign : AuthUser → Z → string.
Variable bcrypt_hash : string → string → string.
Variable bcrypt_compare : string → string → bool.

Lemma NoDup_fmap_snoc {A B} (g : A → B) (l : list A) (x : A) :
  NoDup (g <$> l) → (∀ y, y ∈ l → g y ≠ g x) → NoDup (g <$> l ++ [x]).
Proof.
  intros Hnd Hfresh. rewrite fmap_app. apply NoDup_app. split; [done|].
  split; [|apply NoDup_singleton].
  intros b (y & -> & Hy)%list_elem_of_fmap Heq%list_elem_of_singleton.
  by apply (Hfresh y).
Qed.

Lemma handle_emails_distinct (r : Auth.Request) (st : Auth.State) :
  NoDup (Auth.email <$> Auth.users st) →
  NoDup (Auth.email <$> Auth.users (Auth.handle sign bcrypt_hash bcrypt_compare r st).2).
Proof.
  intros Hnd. destruct r as [now salt f u e p|now e p|now ticket t|now t e|now salt e t p];
    simpl.
  - unfold Auth.register.
    destruct f as [f|], u as [u|], e as [e|], p as [p|]; try done.
    destruct (_ || _); [done|].
    destruct (js_find _ _) as [x|] eqn:Hfind; [done|]. simpl.
    apply NoDup_fmap_snoc; [done|]. intros y Hy. simpl.
    pose proof (proj1 (js_find_None _ _) Hfind y Hy) as Hno.
    apply orb_false_iff in Hno as [Hno%bool_decide_eq_false _]. done.
  - unfold Auth.login.
    destruct e as [e|], p as [p|]; try done.
    destruct (_ || _); [done|].
    destruct (js_find _ _) as [x|]; [|done].
    destruct (Auth.passwordHash x); [|done]. by destruct (negb _).
  - unfold Auth.google.
    destruct (negb _); [done|]. destruct ticket as [payload|]; [|done].
    destruct (js_find _ _) as [x|] eqn:Hfind; [done|]. simpl.
    apply NoDup_fmap_snoc; [done|]. intros y Hy. simpl.
    pose proof (proj1 (js_find_None _ _) Hfind y Hy) as Hno.
    by apply bool_decide_eq_false in Hno.
  - unfold Auth.forgotPassword.
    destruct e as [e|]; [|done]. destruct (negb _); [done|].
    by destruct (js_find _ _).
  - unfold Auth.resetPassword.
    destruct e as [e|], t as [t|], p as [p|]; try done.
    destruct (_ || _); [done|]. destruct (_ <? _); [done|].
    destruct (_ !! _) as [d|]; [|done]. destruct (_ || _); [done|].
    destruct (js_find _ _) as [x|]; [|done]. simpl.
    by rewrite fmap_update_first.
Qed.

Lemma handle_usernames_distinct (r : Auth.Request) (st : Auth.State) :
  is_google r = false →
  NoDup (Auth.username <$> Auth.users st) →
  NoDup (Auth.username <$> Auth.users (Auth.handle sign bcrypt_hash bcrypt_compare r st).2).
Proof.
  intros Hr Hnd.
  destruct r as [now salt f u e p|now e p|now ticket t|now t e|now salt e t p];
    simpl; [| |done| |].
  - unfold Auth.register.
    destruct f as [f|], u as [u|], e as [e|], p as [p|]; try done.
    destruct (_ || _); [done|].
    destruct (js_find _ _) as [x|] eqn:Hfind; [done|]. simpl.
    apply NoDup_fmap_snoc; [done|]. intros y Hy. simpl.
    pose proof (proj1 (js_find_None _ _) Hfind y Hy) as Hno.
    apply orb_false_iff in Hno as [_ Hno%bool_decide_eq_false]. done.
  - unfold Auth.login.
    destruct e as [e|], p as [p|]; try done.
    destruct (_ || _); [done|].
    destruct (js_find _ _) as [x|]; [|done].
    destruct (Auth.passwordHash x); [|done]. by destruct (negb _).
  - unfold Auth.forgotPassword.
    destruct e as [e|]; [|done]. destruct (negb _); [done|].
    by destruct (js_find _ _).
  - unfold Auth.resetPassword.
    destruct e as [e|], t as [t|], p as [p|]; try done.
    destruct (_ || _); [done|]. destruct (_ <? _); [done|].
    destruct (_ !! _) as [d|]; [|done]. destruct (_ || _); [done|].
    destruct (js_find _ _) as [x|]; [|done]. simpl.
    by rewrite fmap_update_first.
Qed.

(** X24: no two accounts share an e-mail address.  If the addresses of
    the stored accounts are distinct, they are still distinct after any
    sequence of requests to the authentication endpoints; the same holds
    for the user names as long as no request is a Google sign-in (which
    derives the user name from the address without looking for it among
    the accounts). *)
Theorem accounts_stay_distinct (rs : list Auth.Request) (st : Auth.State) :
  NoDup (Auth.email <$> Auth.users st) →
  NoDup (Auth.email <$> Auth.users (Auth.run sign bcrypt_hash bcrypt_compare rs st))
  ∧ (forallb (λ r, negb (is_google r)) rs = true →
     NoDup (Auth.username <$> Auth.users st) →
     NoDup (Auth.username
              <$> Auth.users (Auth.run sign bcrypt_hash bcrypt_compare rs st))).
Proof.
  revert st. induction rs as [|r rs IH]; intros st Hnd; [done|].
  unfold Auth.run in *. simpl.
  destruct (IH _ (handle_emails_distinct r st Hnd)) as [He Hu]. split; [done|].
  intros [Hr%negb_true_iff Hrs]%andb_true_iff Hnames.
  apply Hu; [done|]. by apply handle_usernames_distinct.
Qed.

End Accounts.

Lemma accounts_stay_distinct_witness :
  NoDup (Auth.email
           <$> Auth.users
                 (Auth.run plain_sign plain_hash plain_compare
                    [Auth.Register 8 "s" (Some "Dan D") (Some "dan") (Some "dan@example.org")
                                   (Some "pw");
                     Auth.Register 9 "s" (Some "Carol 2") (Some "carol2")
                                   (Some "carol@example.org") (Some "pw")]
                    auth_store_1)).
Proof.
  apply accounts_stay_distinct.
  apply (bool_decide_unpack _). by vm_compute.
Defined.

Section Passwords.
Variable sign : AuthUser → Z → string.
Variable bcrypt_hash : string → string → string.
Variable bcrypt_compare : string → string → bool.

Lemma truthy_length (p : string) : 6 ≤ js_length p → truthy (Some p) = true.
Proof. destruct p; [simpl; lia|done]. Qed.

(** X25: registering and then logging in.  Provided [bcrypt.compare]
    accepts a password against its own hash, a registration answered with
    201 is followed by a successful login with the same address and
    password, and the session is the one of the account just created. *)
Theorem register_then_login (now now' : Z) (salt f u e p : string) (st : Auth.State) :
  (∀ s q, bcrypt_compare q (bcrypt_hash s q) = true) →
  Auth.status
    (Auth.register sign bcrypt_hash now salt (Some f) (Some u) (Some e) (Some p) st).1
  = Auth.Created →
  Auth.login sign bcrypt_compare now' (Some e) (Some p)
    (Auth.register sign bcrypt_hash now salt (Some f) (Some u) (Some e) (Some p) st).2
  = ({| Auth.status := Auth.OK;
        Auth.body :=
          Auth.JSession (sign {| au_id := Date_toString now; au_username := u |} now')
            {| Auth.p_id := Date_toString now; Auth.p_fullname := f; Auth.p_username := u;
               Auth.p_email := e; Auth.p_avatar := None |} |},
     (Auth.register sign bcrypt_hash now salt (Some f) (Some u) (Some e) (Some p) st).2).
Proof.
  intros Hbcrypt. unfold Auth.register.
  destruct (negb (truthy (Some f)) || negb (truthy (Some u)) || negb (truthy (Some e))
            || negb (truthy (Some p))) eqn:Hfields; [done|].
  destruct (js_find _ _) as [x|] eqn:Hfind; [done|]. intros _. simpl.
  apply orb_false_iff in Hfields as [[[_ _]%orb_false_iff He]%orb_false_iff Hp].
  unfold Auth.login. simpl in He, Hp. rewrite He, Hp. simpl.
  rewrite js_find_app_r.
  2:{ apply Forall_forall. intros y Hy.
      pose proof (proj1 (js_find_None _ _) Hfind y Hy) as Hno.
      by apply orb_false_iff in Hno as [Hno _]. }
  unfold js_find, Auth.has_email. simpl. rewrite bool_decide_eq_true_2 by done. simpl.
  by rewrite Hbcrypt.
Qed.

(** X26: the answer of [POST /api/auth/forgot-password] does not tell
    whether an account exists: for a given [email] field it is the same
    whatever the accounts, the time and the token drawn are; and the
    request changes no account. *)
Theorem forgotPassword_same_answer (now now' : Z) (t t' : string) (email : option string)
    (st st' : Auth.State) :
  (Auth.forgotPassword now t email st).1 = (Auth.forgotPassword now' t' email st').1
  ∧ Auth.users (Auth.forgotPassword now t email st).2 = Auth.users st.
Proof.
  unfold Auth.forgotPassword. destruct email as [e|]; [|done].
  destruct (negb _); [done|].
  by destruct (js_find _ (Auth.users st)), (js_find _ (Auth.users st')).
Qed.

(** X27: resetting a password.  For an existing account, a token
    requested at time [now] and used with a new password of at least six
    UTF-16 code units ([newPassword.length]) no later than fifteen minutes
    afterwards is accepted; the
    account then logs in with the new password (given that
    [bcrypt.compare] accepts a password against its own hash); and the same
    token is refused when it is presented again. *)
Theorem reset_round_trip (now now' now'' : Z) (t salt salt' e p p' : string)
    (u : Auth.Account) (st : Auth.State) :
  (∀ s q, bcrypt_compare q (bcrypt_hash s q) = true) →
  e ≠ "" → t ≠ "" → 6 ≤ js_length p →
  js_find (Auth.has_email e) (Auth.users st) = Some u →
  (now ≤ now' ≤ now + 900000)%Z →
  Auth.status
    (Auth.resetPassword bcrypt_hash now' salt (Some e) (Some t) (Some p)
       (Auth.forgotPassword now t (Some e) st).2).1
  = Auth.OK
  ∧ Auth.login sign bcrypt_compare now'' (Some e) (Some p)
      (Auth.resetPassword bcrypt_hash now' salt (Some e) (Some t) (Some p)
         (Auth.forgotPassword now t (Some e) st).2).2
    = ({| Auth.status := Auth.OK;
          Auth.body :=
            Auth.JSession (sign {| au_id := Auth.id u; au_username := Auth.username u |} now'')
              {| Auth.p_id := Auth.id u; Auth.p_fullname := Auth.fullname u;
                 Auth.p_username := Auth.username u; Auth.p_email := Auth.email u;
                 Auth.p_avatar := None |} |},
       (Auth.resetPassword bcrypt_hash now' salt (Some e) (Some t) (Some p)
          (Auth.forgotPassword now t (Some e) st).2).2)
  ∧ Auth.resetPassword bcrypt_hash now'' salt' (Some e) (Some t) (Some p')
      (Auth.resetPassword bcrypt_hash now' salt (Some e) (Some t) (Some p)
         (Auth.forgotPassword now t (Some e) st).2).2
    = ({| Auth.status := Auth.BadRequest;
          Auth.body :=
            Auth.JError (if negb (truthy (Some p')) then
                           "Email, token, and new password are required"
                         else if js_length p' <? 6 then
                           "Password must be at least 6 characters long"
                         else "Invalid or expired reset token") |},
       (Auth.resetPassword bcrypt_hash now' salt (Some e) (Some t) (Some p)
          (Auth.forgotPassword now t (Some e) st).2).2).
Proof.
  intros Hbcrypt He Ht Hp Hu Hnow.
  assert (truthy (Some e) = true) as Hte by (destruct e; done).
  assert (truthy (Some t) = true) as Htt by (destruct t; done).
  pose proof (truthy_length p Hp) as Htp.
  assert (Auth.resetPassword bcrypt_hash now' salt (Some e) (Some t) (Some p)
            (Auth.forgotPassword now t (Some e) st).2
          = ({| Auth.status := Auth.OK;
                Auth.body := Auth.JMessage
                  "Password reset successful. You can now login with your new password." |},
             {| Auth.users :=
                  update_first (Auth.has_email e)
                    (Auth.set_passwordHash (bcrypt_hash salt p)) (Auth.users st);
                Auth.passwordResetTokens := delete e (Auth.passwordResetTokens st) |}))
    as Hreset.
  { unfold Auth.forgotPassword, Auth.resetPassword. rewrite !Hte, Htt, Htp, !Hu. simpl.
    destruct (Nat.ltb_spec (js_length p) 6); [lia|].
    rewrite lookup_insert_eq. simpl.
    rewrite bool_decide_eq_false_2 by (by intros H'; apply H').
    destruct (Z.ltb_spec (now + 15 * 60 * 1000) now'); [lia|]. simpl.
    rewrite Hu. by rewrite delete_insert_eq. }
  rewrite Hreset. split; [done|]. split.
  - unfold Auth.login. rewrite Hte, Htp. simpl.
    rewrite js_find_update_first by done. rewrite Hu. simpl.
    rewrite Hbcrypt. simpl. unfold Auth.session. simpl.
    apply js_find_Some in Hu as [_ Hue%bool_decide_eq_true]. done.
  - unfold Auth.resetPassword. rewrite Hte, Htt. cbn [negb orb].
    destruct (negb (truthy (Some p'))); [done|].
    destruct (js_length p' <? 6); [done|]. simpl.
    by rewrite lookup_delete_eq.
Qed.

(** X28: a password changes only against the stored token.  When
    [POST /api/auth/reset-password] answers 200, the token presented is the
    one stored for the address and has not expired, the new password has at
    least six UTF-16 code units, the token is removed and nothing but a password
    hash has changed in the accounts; when it answers anything else, the
    store is as it was. *)
Theorem reset_needs_valid_token (now : Z) (salt : string)
    (email token newPassword : option string) (st : Auth.State) :
  (Auth.status (Auth.resetPassword bcrypt_hash now salt email token newPassword st).1
   = Auth.OK →
   ∃ e t p d,
     email = Some e ∧ token = Some t ∧ newPassword = Some p
     ∧ Auth.passwordResetTokens st !! e = Some d
     ∧ Auth.token d = t ∧ (now ≤ Auth.expiresAt d)%Z ∧ 6 ≤ js_length p
     ∧ account_frame
         <$> Auth.users (Auth.resetPassword bcrypt_hash now salt email token newPassword st).2
       = account_frame <$> Auth.users st
     ∧ Auth.passwordResetTokens
         (Auth.resetPassword bcrypt_hash now salt email token newPassword st).2
       = delete e (Auth.passwordResetTokens st))
  ∧ (Auth.status (Auth.resetPassword bcrypt_hash now salt email token newPassword st).1
     ≠ Auth.OK →
     (Auth.resetPassword bcrypt_hash now salt email token newPassword st).2 = st).
Proof.
  unfold Auth.resetPassword.
  destruct email as [e|], token as [t|], newPassword as [p|]; try by split.
  destruct (_ || _); [by split|].
  destruct (Nat.ltb_spec (js_length p) 6); [by split|].
  destruct (_ !! _) as [d|] eqn:Hd; [|by split].
  destruct (bool_decide (Auth.token d ≠ t)) eqn:Htok; [by split|].
  destruct (Z.ltb_spec (Auth.expiresAt d) now); [by split|]. simpl.
  destruct (js_find _ _) as [x|]; [|by split]. simpl. split; [|done].
  intros _. exists e, t, p, d. repeat split; try done.
  - apply bool_decide_eq_false in Htok. by apply dec_stable.
  - by apply fmap_update_first.
Qed.

End Passwords.

(** The length test counts code units, not bytes: a password of five CJK
    characters is refused, one of six is accepted. *)
Example reset_counts_code_units :
  js_length "密碼密碼密" = 5 ∧ String.length "密碼密碼密" = 15
  ∧ js_length "a😀" = 3
  ∧ Auth.status
      (Auth.resetPassword plain_hash 200 "s" (Some "carol@example.org") (Some "tok")
         (Some "密碼密碼密")
         (Auth.forgotPassword 100 "tok" (Some "carol@example.org") auth_store_1).2).1
    = Auth.BadRequest
  ∧ Auth.status
      (Auth.resetPassword plain_hash 200 "s" (Some "carol@example.org") (Some "tok")
         (Some "密碼密碼密碼")
         (Auth.forgotPassword 100 "tok" (Some "carol@example.org") auth_store_1).2).1
    = Auth.OK.
Proof. by vm_compute. Qed.

Lemma register_then_login_witness :
  Auth.login plain_sign plain_compare 9 (Some "dan@example.org") (Some "pw")
    (Auth.register plain_sign plain_hash 8 "s" (Some "Dan D") (Some "dan")
                   (Some "dan@example.org") (Some "pw") auth_store_1).2
  = ({| Auth.status := Auth.OK;
        Auth.body :=
          Auth.JSession (plain_sign {| au_id := Date_toString 8; au_username := "dan" |} 9)
            {| Auth.p_id := Date_toString 8; Auth.p_fullname := "Dan D";
               Auth.p_username := "dan"; Auth.p_email := "dan@example.org";
               Auth.p_avatar := None |} |},
     (Auth.register plain_sign plain_hash 8 "s" (Some "Dan D") (Some "dan")
                    (Some "dan@example.org") (Some "pw") auth_store_1).2).
Proof.
  apply (register_then_login plain_sign plain_hash plain_compare 8 9 "s" "Dan D" "dan"
           "dan@example.org" "pw" auth_store_1).
  - intros s q. apply String.eqb_refl.
  - reflexivity.
Defined.

Lemma reset_round_trip_witness :
  Auth.status
    (Auth.resetPassword plain_hash 200 "s" (Some "carol@example.org") (Some "tok")
                        (Some "new-secret")
       (Auth.forgotPassword 100 "tok" (Some "carol@example.org") auth_store_1).2).1
  = Auth.OK.
Proof.
  apply (reset_round_trip plain_sign plain_hash plain_compare 100 200 300 "tok" "s" "s"
           "carol@example.org" "new-secret" "x" carol_account auth_store_1).
  - intros s q. apply String.eqb_refl.
  - done.
  - done.
  - vm_compute. lia.
  - reflexivity.
  - lia.
Defined.

(** ** Editing in the Firestore server *)




(** ** Replies across pages *)

Lemma tree_of_parent (fuel : nat) (cs : list Comment.t) (r : Comment.t) (t : Tree)
    (c : Comment.t) :
  tree_of fuel cs r = Some t → c ∈ tree_comments t →
  c = r ∨ ∃ q, q ∈ tree_comments t ∧ c ∈ children cs q.
Proof.
  revert r t. induction fuel as [|fuel IH]; intros r t Ht Hc; [done|].
  simpl in Ht. apply fmap_Some in Ht as (ts & Hts & ->). simpl in Hc.
  apply elem_of_cons in Hc as [->|Hc]; [by left|]. right.
  apply list_elem_of_bind in Hc as (t' & Hc & Ht').
  apply mapM_Some in Hts. apply list_elem_of_lookup in Ht' as [i Hi].
  destruct (Forall2_lookup_r _ _ _ _ _ Hts Hi) as (k & Hk & Hkt).
  apply list_elem_of_lookup_2 in Hk.
  assert (∀ x, x ∈ tree_comments t' → x ∈ tree_comments (Node r ts)) as Hsub.
  { intros x Hx. simpl. apply elem_of_cons. right. apply list_elem_of_bind.
    exists t'. split; [done|]. by eapply list_elem_of_lookup_2. }
  destruct (IH k t' Hkt Hc) as [->|(q & Hq & Hcq)].
  - exists r. split; [by left|done].
  - exists q. split; [by apply Hsub|done].
Qed.

(** X30: a reply is listed only under its parent.  When the stored
    identifiers are distinct, every reply that [GET /api/comments] shows on
    a page has its parent among the comments shown on that same page: a
    reply whose parent falls on another page is shown on neither, although
    it counts in [totalComments]. *)
Theorem reply_listed_with_parent (url : option string) (pageNum limitNum : num)
    (st : FileBacked.State) (c : Comment.t) :
  NoDup (Comment.id <$> FileBacked.comments st) →
  c ∈ shown (getComments url pageNum limitNum st) →
  truthy (Comment.parentId c) = true →
  ∃ q, q ∈ shown (getComments url pageNum limitNum st)
       ∧ Comment.parentId c = Some (Comment.id q).
Proof.
  intros Hnd Hc Hreply. unfold getComments in *.
  destruct url as [u|]; [|by apply elem_of_nil in Hc].
  destruct (negb _); [by apply elem_of_nil in Hc|].
  pose proof (paginated_ids_distinct u pageNum limitNum st Hnd) as Hpage.
  rewrite (commentTree_forest _ Hpage) in *.
  destruct (forest_of _) as [ts|] eqn:Hts; [|by apply elem_of_nil in Hc].
  simpl in *. unfold forest_of in Hts. apply mapM_Some in Hts.
  apply list_elem_of_bind in Hc as (t & Hc & Ht).
  apply list_elem_of_lookup in Ht as [i Hi].
  destruct (Forall2_lookup_r _ _ _ _ _ Hts Hi) as (r & Hr & Hrt).
  apply list_elem_of_lookup_2 in Hr, Hi.
  destruct (tree_of_parent _ _ _ _ _ Hrt Hc) as [->|(q & Hq & Hcq)].
  - apply roots_elem in Hr as [Hroot _]. congruence.
  - exists q. split.
    + apply list_elem_of_bind. by exists t.
    + by apply children_elem in Hcq as [[_ ?] _].
Qed.

Lemma reply_listed_with_parent_witness :
  ∃ q, q ∈ shown (getComments (Some "https://example.org") (Fin 1) (Fin 2) two_pages)
       ∧ Comment.parentId
           (Comment.mk "s" "https://example.org" "" "" (Some "r") "2" "bob" 2 None 0 0)
         = Some (Comment.id q).
Proof.
  apply (reply_listed_with_parent (Some "https://example.org") (Fin 1) (Fin 2) two_pages).
  - apply (bool_decide_unpack _). by vm_compute.
  - apply (bool_decide_unpack _). by vm_compute.
  - reflexivity.
Defined.

(** With one comment per page the reply is shown on no page, and the root
    is shown without it. *)
Example reply_on_no_page :
  totalComments
    <$> (match getComments (Some "https://example.org") (Fin 1) (Fin 1) two_pages with
         | ListOK l => Some (l_pagination l) | _ => None end) = Some 2%Z
  ∧ shown (getComments (Some "https://example.org") (Fin 1) (Fin 1) two_pages) = []
  ∧ Comment.id <$> shown (getComments (Some "https://example.org") (Fin 2) (Fin 1) two_pages)
    = ["r"].
Proof. by vm_compute. Qed.
